(** * Rent reconciliation: matcher, findings engine and report merge

    A shallow embedding of [recon/matcher.py], [recon/rules.py] and of the
    findings merge of [app.py] / [streamlit_app.py], with the properties
    of the specification proved (or refuted) about it.

    Modelling conventions.
    - A pandas data frame is a list of column names and a list of rows,
      each row carrying its index label.
    - A nullable numeric cell ([float64] with [NaN]) is an [option Q]:
      [None] is [NaN], and a present value is the exact rational value
      of the float.  The subtraction of the amount test rounds to the
      nearest float ([Float64.round]); comparisons are exact, and so is
      the arithmetic of the quantile.
    - Text is [string] over 8-bit characters; case folding and the
      character classes of the regular expressions are the ASCII ones.
    - A Python [dict] with string keys is a [gmap string _], a Python
      [set] of row labels is a [gset nat]. *)

From Stdlib Require Import String Ascii List Bool Arith ZArith QArith Qabs Qround Qpower Lia Lqa.
From stdpp Require Import gmap strings list sorting.

Open Scope string_scope.
Open Scope nat_scope.
Open Scope list_scope.

(** ** Characters and strings *)

Module Chars.

Definition code (c : ascii) : nat := nat_of_ascii c.

Definition is_upper (c : ascii) : bool := (65 <=? code c) && (code c <=? 90).
Definition is_lower (c : ascii) : bool := (97 <=? code c) && (code c <=? 122).
Definition is_digit (c : ascii) : bool := (48 <=? code c) && (code c <=? 57).

(** [\w] of the [re] module, on ASCII. *)
Definition is_word (c : ascii) : bool :=
  is_upper c || is_lower c || is_digit c || (code c =? 95).

(** [str.isspace], on ASCII: tab, line feed, vertical tab, form feed,
    carriage return, the four separators 28..31, and space. *)
Definition is_space (c : ascii) : bool :=
  ((9 <=? code c) && (code c <=? 13)) || ((28 <=? code c) && (code c <=? 32)).

Definition upper_char (c : ascii) : ascii :=
  if is_lower c then ascii_of_nat (code c - 32) else c.

Definition chars (s : string) : list ascii := list_ascii_of_string s.
Definition text (l : list ascii) : string := string_of_list_ascii l.

(** [str.upper] *)
Definition upper (s : string) : string := text (map upper_char (chars s)).

Fixpoint lstrip (l : list ascii) : list ascii :=
  match l with
  | c :: l' => if is_space c then lstrip l' else l
  | [] => []
  end.

(** [str.strip] *)
Definition strip (s : string) : string :=
  text (rev (lstrip (rev (lstrip (chars s))))).

End Chars.
Import Chars.

(** ** The fragment of regular expressions used by [REF_PATTERNS] *)

Module Regex.

Inductive atom :=
| WordB                                   (* \b *)
| Lit (c : ascii)                         (* a literal character *)
| Rep (cls : ascii -> bool) (lo : nat).   (* [cls]{lo,}, greedy *)

Definition regex := list atom.

Definition word_opt (o : option ascii) : bool :=
  match o with Some c => is_word c | None => false end.

(** [\b] holds between two positions exactly one of which is a word
    character; outside the text counts as a non-word character. *)
Definition at_boundary (prev : option ascii) (s : list ascii) : bool :=
  xorb (word_opt prev) (word_opt (head s)).

(** Length of the longest prefix of [s] made of [cls] characters. *)
Fixpoint run (cls : ascii -> bool) (s : list ascii) : nat :=
  match s with
  | c :: s' => if cls c then S (run cls s') else 0
  | [] => 0
  end.

(** The character before position [k] of [s], [prev] being the one
    before position 0. *)
Definition prev_after (prev : option ascii) (s : list ascii) (k : nat)
  : option ascii :=
  match k with 0 => prev | S k' => s !! k' end.

(** Greedy repetition with backtracking: try [k] repetitions, the most
    first, and give back one at a time while the rest fails. *)
Fixpoint greedy (lo : nat) (rest : nat -> option nat) (k : nat) : option nat :=
  if k <? lo then None
  else match rest k with
       | Some n => Some (k + n)
       | None => match k with 0 => None | S k' => greedy lo rest k' end
       end.

(** [match_here re prev s]: the length of the match of [re] that starts
    at the head of [s], as the backtracking matcher finds it. *)
Fixpoint match_here (re : regex) (prev : option ascii) (s : list ascii)
  : option nat :=
  match re with
  | [] => Some 0
  | WordB :: re' =>
      if at_boundary prev s then match_here re' prev s else None
  | Lit c :: re' =>
      match s with
      | x :: s' =>
          if Ascii.eqb x c then S <$> match_here re' (Some x) s' else None
      | [] => None
      end
  | Rep cls lo :: re' =>
      greedy lo (fun k => match_here re' (prev_after prev s k) (drop k s))
             (run cls s)
  end.

(** [re.search]: the match at the leftmost position that has one. *)
Fixpoint search_from (re : regex) (prev : option ascii) (s : list ascii)
  : option (list ascii) :=
  match match_here re prev s with
  | Some n => Some (take n s)
  | None =>
      match s with
      | [] => None
      | c :: s' => search_from re (Some c) s'
      end
  end.

Definition search (re : regex) (s : string) : option string :=
  text <$> search_from re None (chars s).

End Regex.
Import Regex.

(** ** [recon/matcher.py]: helpers *)

(** [r'\b[A-Z]{2,}-\d{1,}\b'] *)
Definition REF_DASH : regex :=
  [WordB; Rep is_upper 2; Lit "-"; Rep is_digit 1; WordB].

(** [r'\b[A-Z]{2,}\d{2,}\b'] *)
Definition REF_PLAIN : regex :=
  [WordB; Rep is_upper 2; Rep is_digit 2; WordB].

Definition REF_PATTERNS : list regex := [REF_DASH; REF_PLAIN].

(** The loop [for p in REF_PATTERNS] of [extract_reference]. *)
Fixpoint first_search (ps : list regex) (txt : string) : string :=
  match ps with
  | [] => ""
  | p :: ps' =>
      match search p txt with
      | Some m => m
      | None => first_search ps' txt
      end
  end.

Definition extract_reference (t : string) : string :=
  if String.eqb t "" then ""
  else first_search REF_PATTERNS (upper t).

(** ** Binary floating point

    The [float64] format: 53 significant bits, and no unit in the last
    place below [2 ^ -1074].  A finite float is the rational it stands
    for, and an operation returns the float nearest to the exact result,
    the one with the even significand of two that are equally near.  A
    result too large for the format (an infinity) is not modelled; the
    rounded rational stands for it. *)

Module Float64.

(** The largest [k] with [2 ^ k <= q], for a positive [q]. *)
Definition flog2 (q : Q) : Z :=
  let k := (Z.log2 (Qnum q) - Z.log2 (Zpos (Qden q)))%Z in
  if Qle_bool (2 ^ k) q then k else (k - 1)%Z.

(** The exponent of the unit in the last place at a positive [q]. *)
Definition ulp_exp (q : Q) : Z := Z.max (-1074) (flog2 q - 52).

(** The nearest integer, the even one of two that are equally near. *)
Definition rint (q : Q) : Z :=
  let f := Qfloor q in
  match (q - inject_Z f ?= 1 # 2)%Q with
  | Lt => f
  | Gt => (f + 1)%Z
  | Eq => if Z.even f then f else (f + 1)%Z
  end.

(** The float nearest to a positive [q]. *)
Definition round_pos (q : Q) : Q :=
  let e := ulp_exp q in (inject_Z (rint (q / 2 ^ e)) * 2 ^ e)%Q.

(** The float nearest to [q]. *)
Definition round (q : Q) : Q :=
  match (q ?= 0)%Q with
  | Eq => 0%Q
  | Gt => round_pos q
  | Lt => (- round_pos (- q))%Q
  end.

End Float64.

(** ** Nullable numbers

    A [float64] cell is [None] for [NaN] and [Some q] otherwise, [q]
    being the value of the float.  Every operation returns [NaN] on a
    [NaN] operand and every comparison with [NaN] is false, as in IEEE
    arithmetic. *)

Module Num.

Definition num := option Q.

(** [a - b], rounded as the floats are. *)
Definition sub (a b : num) : num :=
  match a, b with
  | Some x, Some y => Some (Float64.round (x - y))
  | _, _ => None
  end.

Definition abs (a : num) : num := Qabs <$> a.

Definition Qlt_bool (x y : Q) : bool := negb (Qle_bool y x).

(** [a < b] *)
Definition lt (a b : num) : bool :=
  match a, b with
  | Some x, Some y => Qlt_bool x y
  | _, _ => false
  end.

(** [a >= b] *)
Definition ge (a b : num) : bool :=
  match a, b with
  | Some x, Some y => Qle_bool y x
  | _, _ => false
  end.

(** Equality of two cells as a grouping key ([duplicated], [factorize]):
    two missing values fall into the same group. *)
Definition same (a b : num) : bool :=
  match a, b with
  | Some x, Some y => Qeq_bool x y
  | None, None => true
  | _, _ => false
  end.

End Num.

(** ** Data frames *)

(** A frame: its column names, and its rows with their index labels. *)
Record frame (R : Type) := Frame { columns : list string; rows : list (nat * R) }.
Arguments Frame {R} _ _.
Arguments columns {R} _.
Arguments rows {R} _.

(** [pd.DataFrame()] *)
Definition no_frame {R} : frame R := Frame [] [].

(** [df.empty]: some axis has length zero. *)
Definition is_empty {R} (f : frame R) : bool :=
  (length (columns f) =? 0) || (length (rows f) =? 0).

Definition index {R} (f : frame R) : list nat := (rows f).*1.

(** [df.reset_index(drop=True)] *)
Definition reset_index {R} (f : frame R) : frame R :=
  Frame (columns f) (imap (fun i r => (i, r.2)) (rows f)).

(** [df[mask]] for a boolean mask aligned with the rows. *)
Fixpoint select {A} (mask : list bool) (l : list A) : list A :=
  match mask, l with
  | b :: mask', x :: l' => if b then x :: select mask' l' else select mask' l'
  | _, _ => []
  end.

(** A calendar date is its day number. *)
Definition date_t := Z.

(** Bank transactions: the canonical columns after [preprocess] (a
    column missing from the input is filled with [None]), and the derived
    column [_extracted_ref]. *)
Module Bank.
Record raw := Raw {
  raw_txn_id : option string;
  raw_date : option date_t;       (* after [_to_date] *)
  raw_amount : Num.num;           (* after [pd.to_numeric(errors='coerce')] *)
  raw_description : option string;
  raw_reference : option string }.

Record row := Row {
  txn_id : option string;
  date : option date_t;
  amount : Num.num;
  description : option string;
  reference : option string;
  _extracted_ref : string }.

(** The columns of the preprocessed frame of an input that has the five
    canonical headers, in this order.  [preprocess] keeps the headers of
    its input in their order and adds the missing ones, so another input
    gives another list; [amount] and [date] are in it for every input,
    and the statements rely on nothing else. *)
Definition COLUMNS : list string :=
  ["txn_id"; "date"; "amount"; "description"; "reference";
   "_extracted_ref"; "_norm_text"].
End Bank.

(** Invoices (expected payments). *)
Module Inv.
Record raw := Raw {
  raw_invoice_id : option string;
  raw_customer : option string;
  raw_amount : Num.num;
  raw_due_date : option date_t;
  raw_issue_date : option (option date_t);  (* [None]: no such column *)
  raw_reference : option string }.

Record row := Row {
  invoice_id : option string;
  customer : option string;
  amount : Num.num;
  due_date : option date_t;
  issue_date : option date_t;
  reference : option string }.

(** The columns of the preprocessed frame of an input that has the five
    canonical headers, in this order, and no [issue_date]; as for the
    transactions, another input gives another list. *)
Definition COLUMNS : list string :=
  ["invoice_id"; "customer"; "amount"; "due_date"; "reference";
   "issue_date"; "_norm_customer"].
End Inv.

(** [.fillna('')] *)
Definition fill (o : option string) : string := default "" o.

(** The derived column [_extracted_ref]: the reference found in the
    description, or else the one found in the reference column. *)
Definition preprocess_txn (r : Bank.raw) : Bank.row :=
  let from_description := extract_reference (fill (Bank.raw_description r)) in
  {| Bank.txn_id := Bank.raw_txn_id r;
     Bank.date := Bank.raw_date r;
     Bank.amount := Bank.raw_amount r;
     Bank.description := Bank.raw_description r;
     Bank.reference := Bank.raw_reference r;
     Bank._extracted_ref :=
       if String.eqb from_description ""
       then extract_reference (fill (Bank.raw_reference r))
       else from_description |}.

(** [issue_date] defaults to [due_date] when the input has no such
    column. *)
Definition preprocess_inv (r : Inv.raw) : Inv.row :=
  {| Inv.invoice_id := Inv.raw_invoice_id r;
     Inv.customer := Inv.raw_customer r;
     Inv.amount := Inv.raw_amount r;
     Inv.due_date := Inv.raw_due_date r;
     Inv.issue_date := default (Inv.raw_due_date r) (Inv.raw_issue_date r);
     Inv.reference := Inv.raw_reference r |}.

(** [preprocess], on the columns the matcher and the rules read.  The
    rows of the result keep their positions (the index is copied);
    [_norm_text] and [_norm_customer] are read by no later step and are
    left out of the rows. *)
Definition preprocess (bank_df : list Bank.raw) (inv_df : list Inv.raw)
  : list Bank.row * list Inv.row :=
  (map preprocess_txn bank_df, map preprocess_inv inv_df).

(** ** [recon/matcher.py]: [match] *)

(** One entry of [results]: the transaction's columns overlaid with the
    invoice's ([{**txn, **inv, 'match_type': ...}]), so [amount] and
    [reference] are the invoice's.  [m_txn] and [m_inv] are the labels of
    the two rows the entry was built from. *)
Record match_row := MatchRow {
  m_txn : nat;
  m_inv : nat;
  m_txn_id : option string;
  m_date : option date_t;
  m_description : option string;
  m_extracted_ref : string;
  m_invoice_id : option string;
  m_customer : option string;
  m_amount : Num.num;
  m_due_date : option date_t;
  m_issue_date : option date_t;
  m_reference : option string;
  match_type : string }.

(** [{**bank.loc[bi].to_dict(), **inv.loc[ii].to_dict(),
      'match_type': 'exact_ref'}] *)
Definition merged (bi ii : nat) (t : Bank.row) (i : Inv.row) : match_row :=
  {| m_txn := bi; m_inv := ii;
     m_txn_id := Bank.txn_id t; m_date := Bank.date t;
     m_description := Bank.description t;
     m_extracted_ref := Bank._extracted_ref t;
     m_invoice_id := Inv.invoice_id i; m_customer := Inv.customer i;
     m_amount := Inv.amount i; m_due_date := Inv.due_date i;
     m_issue_date := Inv.issue_date i; m_reference := Inv.reference i;
     match_type := "exact_ref" |}.

(** A partial-payment descriptor (never produced by the present code). *)
Record partial := Partial {
  p_customer : option string;
  p_invoice_id : option string;
  p_received_total : Num.num }.

(** A value stored under a finding category. *)
Inductive finding :=
| DataFrame (f : frame Bank.row)
| PyList (l : list partial).

(** The mutable state of the matching loop. *)
Record pools := Pools {
  unmatched_txns_idx : gset nat;
  unmatched_inv_idx : gset nat;
  results : list match_row }.

(** [{str(r).strip().upper(): i for i, r in inv['reference'].items()
      if pd.notna(r)}] *)
Definition add_ref (m : gmap string nat) (ir : nat * Inv.row) : gmap string nat :=
  match Inv.reference ir.2 with
  | Some r => <[upper (strip r) := ir.1]> m
  | None => m
  end.

(** The comprehension runs over the invoices in order, a later entry
    overwriting an earlier one with the same key. *)
Definition inv_by_ref (inv : list Inv.row) : gmap string nat :=
  fold_left add_ref (imap pair inv) ∅.

(** [bank['amount'].to_dict()], [inv['amount'].to_dict()] *)
Definition bank_amts (bank : list Bank.row) : gmap nat Num.num :=
  map_seq 0 (Bank.amount <$> bank).
Definition inv_amts (inv : list Inv.row) : gmap nat Num.num :=
  map_seq 0 (Inv.amount <$> inv).

(** [0.05], the float: 7205759403792794 units of [2 ^ -57]. *)
Definition TOLERANCE : Q := 3602879701896397 # 72057594037927936.

(** [b_amt is not None and i_amt is not None and abs(b_amt - i_amt) < 0.05],
    for the results of the two [dict.get]: the difference is the rounded
    one, and [0.05] is the float. *)
Definition amounts_agree (b_amt i_amt : option Num.num) : bool :=
  match b_amt, i_amt with
  | Some b, Some i => Num.lt (Num.abs (Num.sub b i)) (Some TOLERANCE)
  | _, _ => false
  end.

(** The body of [for bi in list(unmatched_txns_idx)].  The two lookups
    of a row by its label cannot fail: [bi] is a label of [bank], and the
    lookup only holds labels of [inv]. *)
Definition try_match (bank : list Bank.row) (inv : list Inv.row)
    (by_ref : gmap string nat) (st : pools) (bi : nat) : pools :=
  match bank !! bi with
  | None => st
  | Some t =>
      match by_ref !! Bank._extracted_ref t with
      | None => st
      | Some ii =>
          if decide (ii ∈ unmatched_inv_idx st) then
            if amounts_agree (bank_amts bank !! bi) (inv_amts inv !! ii) then
              match inv !! ii with
              | None => st
              | Some i =>
                  {| unmatched_txns_idx := unmatched_txns_idx st ∖ {[bi]};
                     unmatched_inv_idx := unmatched_inv_idx st ∖ {[ii]};
                     results := results st ++ [merged bi ii t i] |}
              end
            else st
          else st
      end
  end.

(** The exact-reference pass, the transactions being visited in [order]. *)
Definition exact_pass (bank : list Bank.row) (inv : list Inv.row)
    (order : list nat) (st : pools) : pools :=
  fold_left (try_match bank inv (inv_by_ref inv)) order st.

(** [df.loc[labels]] on a frame with the default index. *)
Definition loc {R} (df : list R) (labels : list nat) : list (nat * R) :=
  omap (fun i => pair i <$> df !! i) labels.

(** [sorted] on a set of labels. *)
Definition sorted (s : gset nat) : list nat := merge_sort (≤) (elements s).

(** [df.index] of a frame as it is read from a file: [0 .. n-1]. *)
Definition labels {R} (df : list R) : list nat := seq 0 (length df).

(** [df.loc[sorted(idx)] if idx else pd.DataFrame(columns=df.columns)] *)
Definition unmatched_frame {R} (cols : list string) (df : list R) (s : gset nat)
  : frame R :=
  if decide (s = ∅) then Frame cols [] else Frame cols (loc df (sorted s)).

(** [{'duplicate_txn': pd.DataFrame(), 'partials': []}] *)
Definition MATCHER_FINDINGS : gmap string finding :=
  <["partials" := PyList []]> (<["duplicate_txn" := DataFrame no_frame]> ∅).

(** What [match] returns. *)
Record outcome := Outcome {
  matches : list match_row;
  unmatched_txns : frame Bank.row;
  unmatched_invs : frame Inv.row;
  findings : gmap string finding }.

(** The pass over the preprocessed data.  A set of the labels [0..n-1]
    is iterated in ascending order. *)
Definition run_match (bank : list Bank.row) (inv : list Inv.row) : outcome :=
  let st0 := {| unmatched_txns_idx := list_to_set (labels bank);
                unmatched_inv_idx := list_to_set (labels inv);
                results := [] |} in
  let st := exact_pass bank inv (labels bank) st0 in
  {| matches := results st;
     unmatched_txns := unmatched_frame Bank.COLUMNS bank (unmatched_txns_idx st);
     unmatched_invs := unmatched_frame Inv.COLUMNS inv (unmatched_inv_idx st);
     findings := MATCHER_FINDINGS |}.

(** [match(bank_df, inv_df)] *)
Definition match_ (bank_df : list Bank.raw) (inv_df : list Inv.raw) : outcome :=
  let '(bank, inv) := preprocess bank_df inv_df in run_match bank inv.

(** ** [recon/rules.py]: [compute_findings] *)

(** Selecting a column that the frame does not have raises [KeyError]. *)
Inductive result (A : Type) :=
| Ok (a : A)
| KeyError (column_name : string).
Arguments Ok {A} _.
Arguments KeyError {A} _.

#[global] Instance result_ret : MRet result := fun A a => Ok a.
#[global] Instance result_bind : MBind result := fun A B k r =>
  match r with
  | Ok a => k a
  | KeyError c => KeyError c
  end.

(** [df[name]] *)
Definition column {R A} (f : frame R) (name : string) (cell : R -> A)
  : result (list A) :=
  if decide (name ∈ columns f) then Ok (map (fun r => cell r.2) (rows f))
  else KeyError name.

(** [df[mask]] *)
Definition where_ {R} (f : frame R) (mask : list bool) : frame R :=
  Frame (columns f) (select mask (rows f)).

(** Equality of two grouping keys (amount, date). *)
Definition same_date (a b : option date_t) : bool := bool_decide (a = b).

Definition same_key (k1 k2 : Num.num * option date_t) : bool :=
  Num.same k1.1 k2.1 && same_date k1.2 k2.2.

Definition occurrences (k : Num.num * option date_t)
    (keys : list (Num.num * option date_t)) : nat :=
  length (filter (fun k' => same_key k k' = true) keys).

(** [df.duplicated(subset=['amount', 'date'], keep=False)]: a row is
    marked when its key occurs more than once. *)
Definition duplicated (f : frame Bank.row) : result (list bool) :=
  amounts ← column f "amount" Bank.amount;
  dates ← column f "date" Bank.date;
  let keys := zip amounts dates in
  Ok (map (fun k => 2 <=? occurrences k keys) keys).

(** Sorting the present values in ascending order. *)
Fixpoint insert_sorted (x : Q) (l : list Q) : list Q :=
  match l with
  | [] => [x]
  | y :: l' => if Qle_bool x y then x :: l else y :: insert_sorted x l'
  end.

Definition sort_values (l : list Q) : list Q := foldr insert_sorted [] l.

(** [Series.quantile(q)] with the default linear interpolation: missing
    values are skipped; on the sorted values [v] of length [n] the
    result is [v[lo] + (v[hi] - v[lo]) * frac] at the position
    [q * (n - 1) = lo + frac]; [NaN] when no value is present. *)
Definition quantile (q : Q) (col : list Num.num) : Num.num :=
  let v := sort_values (omap id col) in
  match v with
  | [] => None
  | _ =>
      let pos := (q * inject_Z (Z.of_nat (length v - 1)))%Q in
      let lo := Z.to_nat (Qfloor pos) in
      let hi := Nat.min (S lo) (length v - 1) in
      let frac := (pos - inject_Z (Qfloor pos))%Q in
      let a := nth lo v 0%Q in
      let b := nth hi v 0%Q in
      Some (a + (b - a) * frac)%Q
  end.

(** [name in df.columns] *)
Definition has_column {R} (f : frame R) (name : string) : bool :=
  bool_decide (name ∈ columns f).

(** [compute_findings(matches, bank_unmatched, inv_unmatched)] *)
Definition compute_findings (matches : list match_row)
    (bank_unmatched : frame Bank.row) (inv_unmatched : frame Inv.row)
  : result (gmap string (frame Bank.row)) :=
  let findings : gmap string (frame Bank.row) := ∅ in
  (* Rule 1: duplicates (same amount and date) *)
  findings ←
    (if negb (is_empty bank_unmatched)
        && (has_column bank_unmatched "amount" && has_column bank_unmatched "date")
     then
       dup_mask ← duplicated bank_unmatched;
       Ok (<["duplicate_txn" := reset_index (where_ bank_unmatched dup_mask)]> findings)
     else Ok (<["duplicate_txn" := no_frame]> findings));
  (* Rule 2: high value unmatched *)
  findings ←
    (if negb (is_empty bank_unmatched) && has_column bank_unmatched "amount"
     then
       amounts ← column bank_unmatched "amount" Bank.amount;
       let threshold := quantile (90 # 100) amounts in
       let mask := map (fun a => Num.ge a threshold) amounts in
       Ok (<["high_value_unmatched" := reset_index (where_ bank_unmatched mask)]> findings)
     else Ok findings);
  Ok findings.

(** ** [app.py], [streamlit_app.py]: merging the two sets of findings *)

(** The body of [for k, v in strict_findings.items()]. *)
Definition merge_one (k : string) (v : frame Bank.row)
    (findings : gmap string finding) : gmap string finding :=
  match findings !! k with
  | None => <[k := DataFrame v]> findings
  | Some (DataFrame existing) =>
      if is_empty existing && negb (is_empty v)
      then <[k := DataFrame v]> findings
      else findings
  | Some (PyList _) => findings
  end.

(** The loop over the items of [strict_findings], updating [findings]. *)
Definition merge_findings (findings : gmap string finding)
    (strict_findings : gmap string (frame Bank.row)) : gmap string finding :=
  map_fold merge_one findings strict_findings.

(** ** Predicates used in the statements *)

(** [str(r).strip().upper()] *)
Definition norm_ref (r : string) : string := upper (strip r).

(** Invoice [ii] has a reference, and [k] is that reference trimmed and
    uppercased. *)
Definition has_ref (inv : list Inv.row) (k : string) (ii : nat) : Prop :=
  ∃ i r, inv !! ii = Some i ∧ Inv.reference i = Some r ∧ norm_ref r = k.

(** Invoice [ii] carries the normalized reference [k], and no later
    invoice does. *)
Definition last_with_ref (inv : list Inv.row) (k : string) (ii : nat) : Prop :=
  has_ref inv k ii ∧ ∀ j, ii < j → ¬ has_ref inv k j.

(** The midpoint between [TOLERANCE] and the float before it,
    [0.05 - 6.9e-19]: 7205759403792793.5 units of [2 ^ -57]. *)
Definition CUTOFF : Q := 14411518807585587 # 288230376151711744.

(** The two amounts are present and their values are closer than the
    cutoff. *)
Definition within_tolerance (b i : Num.num) : Prop :=
  ∃ x y, b = Some x ∧ i = Some y ∧ (Qabs (x - y) < CUTOFF)%Q.

(** The cell read from an amount written in decimals: the float nearest
    to it. *)
Definition float (q : Q) : Num.num := Some (Float64.round q).

(** The state after transaction [bi] has been paired with invoice [ii]. *)
Definition paired (st : pools) (bi ii : nat) (t : Bank.row) (i : Inv.row) : pools :=
  {| unmatched_txns_idx := unmatched_txns_idx st ∖ {[bi]};
     unmatched_inv_idx := unmatched_inv_idx st ∖ {[ii]};
     results := results st ++ [merged bi ii t i] |}.

(** How an entry of [results] relates to the data it was built from. *)
Definition built_from (bank : list Bank.row) (inv : list Inv.row)
    (m : match_row) : Prop :=
  ∃ t i, bank !! m_txn m = Some t ∧ inv !! m_inv m = Some i ∧
         m = merged (m_txn m) (m_inv m) t i ∧
         last_with_ref inv (Bank._extracted_ref t) (m_inv m) ∧
         within_tolerance (Bank.amount t) (Inv.amount i).

(** The invariant of the loop, [visited] being the transactions seen so
    far and [T0], [I0] the initial pools. *)
Record pass_inv (T0 I0 : gset nat) (bank : list Bank.row) (inv : list Inv.row)
    (visited : list nat) (st : pools) : Prop := PassInv {
  inv_txns : unmatched_txns_idx st = T0 ∖ list_to_set (m_txn <$> results st);
  inv_invs : unmatched_inv_idx st = I0 ∖ list_to_set (m_inv <$> results st);
  inv_visited : ∀ m, m ∈ results st → m_txn m ∈ visited;
  inv_pool : ∀ m, m ∈ results st → m_inv m ∈ I0;
  inv_nodup_txn : NoDup (m_txn <$> results st);
  inv_nodup_inv : NoDup (m_inv <$> results st);
  inv_built : ∀ m, m ∈ results st → built_from bank inv m }.

Definition w_txn : Bank.row :=
  Bank.Row (Some "T1") (Some 738000%Z) (float (100049 # 1000))
           (Some "Payment ref ABC-123 received") None "ABC-123".

Definition w_bank : list Bank.row := [w_txn].

Definition w_inv : list Inv.row :=
  [Inv.Row (Some "INV-1") (Some "A Tenant") (Some (100 # 1))
           (Some 738000%Z) (Some 738000%Z) (Some " abc-123 ")].

Definition w_pools : pools := Pools {[0]} {[0]} [].

(** A stored value that counts as empty: by the words of the
    specification (any empty collection), and by the test of the code
    (an empty data frame). *)
Definition empty_collection (f : finding) : Prop :=
  match f with
  | DataFrame d => is_empty d = true
  | PyList l => l = []
  end.

Definition empty_data_frame (f : finding) : Prop :=
  match f with
  | DataFrame d => is_empty d = true
  | PyList _ => False
  end.

(** The precedence rule for one category [k] that the findings engine
    reports as [v], for a given notion of an empty stored value. *)
Definition engine_wins (is_void : finding → Prop)
    (findings : gmap string finding) (k : string) (v : frame Bank.row) : Prop :=
  findings !! k = None ∨
  ∃ e, findings !! k = Some e ∧ is_void e ∧ is_empty v = false.

Definition merge_rule (is_void : finding → Prop)
    (findings : gmap string finding) (strict : gmap string (frame Bank.row))
    (k : string) : Prop :=
  match strict !! k with
  | Some v =>
      (engine_wins is_void findings k v →
       merge_findings findings strict !! k = Some (DataFrame v)) ∧
      (¬ engine_wins is_void findings k v →
       merge_findings findings strict !! k = findings !! k)
  | None => merge_findings findings strict !! k = findings !! k
  end.

Definition w_row (a : Q) (d : Z) : Bank.row :=
  Bank.Row None (Some d) (Some a) None None "".

Definition one_row : frame Bank.row := Frame Bank.COLUMNS [(0, w_row (500 # 1) 738000)].
Definition two_rows : frame Bank.row :=
  Frame Bank.COLUMNS [(0, w_row (500 # 1) 738000); (1, w_row (500 # 1) 738000)].

(** The grouping key of rule 1, the mask it computes and the mask of
    rule 2, as [compute_findings] builds them from a frame that has the
    columns. *)
Definition key_of (r : Bank.row) : Num.num * option date_t :=
  (Bank.amount r, Bank.date r).

Definition keys_of (f : frame Bank.row) : list (Num.num * option date_t) :=
  map (fun r => key_of r.2) (rows f).

Definition dup_flag (f : frame Bank.row) (r : Bank.row) : bool :=
  2 <=? occurrences (key_of r) (keys_of f).

Definition amounts_of (f : frame Bank.row) : list Num.num :=
  map (fun r => Bank.amount r.2) (rows f).

Definition threshold_of (f : frame Bank.row) : Num.num :=
  quantile (90 # 100) (amounts_of f).

Definition high_flag (f : frame Bank.row) (r : Bank.row) : bool :=
  Num.ge (Bank.amount r) (threshold_of f).

(** Two transactions agree on amount and date; two missing amounts
    agree, and so do two missing dates. *)
Definition same_amount_and_date (r r' : Bank.row) : Prop :=
  match Bank.amount r, Bank.amount r' with
  | Some x, Some y => (x == y)%Q
  | None, None => True
  | _, _ => False
  end ∧ Bank.date r = Bank.date r'.

(** The amount is present and at or above a present threshold. *)
Definition at_or_above (a t : Num.num) : Prop :=
  ∃ x y, a = Some x ∧ t = Some y ∧ (y <= x)%Q.

Definition DUPLICATE_TXN : string := "duplicate_txn".
Definition HIGH_VALUE : string := "high_value_unmatched".

(** The frame stored by rule 1 and by rule 2 when they run. *)
Definition duplicates_of (f : frame Bank.row) : frame Bank.row :=
  reset_index (where_ f (map (fun r => dup_flag f r.2) (rows f))).

Definition high_values_of (f : frame Bank.row) : frame Bank.row :=
  reset_index (where_ f (map (fun r => high_flag f r.2) (rows f))).

(** Sample frames: two transactions of 500.00 on one day and a third of
    another amount on that day; ten transactions of 10, 20, ..., 100; two
    transactions without an amount on one day. *)
Definition sample_frame (amounts : list Num.num) (d : Z) : frame Bank.row :=
  Frame Bank.COLUMNS
        (imap (fun i a => (i, Bank.Row None (Some d) a None None "")) amounts).

Definition w_dups : frame Bank.row :=
  sample_frame [Some (500 # 1); Some (500 # 1); Some (120 # 1)] 738000.

Definition w_ten : frame Bank.row :=
  sample_frame (map (fun z => Some (inject_Z z)) [10; 20; 30; 40; 50; 60; 70; 80; 90; 100]%Z)
               738000.

Definition w_nulls : frame Bank.row := sample_frame [None; None; Some (75 # 1)] 738000.

(** ** Reference codes, stated without the matcher *)

Definition all_of (cls : ascii → bool) (l : list ascii) : Prop :=
  Forall (fun c => cls c = true) l.

(** Two or more capital letters, a hyphen, one or more digits. *)
Definition dash_code (r : list ascii) : Prop :=
  ∃ ls ds, r = ls ++ "-"%char :: ds ∧
           2 ≤ length ls ∧ all_of is_upper ls ∧
           1 ≤ length ds ∧ all_of is_digit ds.

(** Two or more capital letters directly followed by two or more digits. *)
Definition plain_code (r : list ascii) : Prop :=
  ∃ ls ds, r = ls ++ ds ∧
           2 ≤ length ls ∧ all_of is_upper ls ∧
           2 ≤ length ds ∧ all_of is_digit ds.

(** [r] stands in [txt] at position [i], between two word boundaries. *)
Definition occurs_at (code : list ascii → Prop) (txt : list ascii)
    (i : nat) (r : list ascii) : Prop :=
  ∃ pre post, txt = pre ++ r ++ post ∧ length pre = i ∧ code r ∧
              word_opt (last pre) = false ∧ word_opt (head post) = false.

Definition leftmost (code : list ascii → Prop) (txt : list ascii)
    (i : nat) (r : list ascii) : Prop :=
  occurs_at code txt i r ∧ ∀ j r', occurs_at code txt j r' → i ≤ j.

Definition absent (code : list ascii → Prop) (txt : list ascii) : Prop :=
  ∀ i r, ¬ occurs_at code txt i r.

(** What [extract_reference] returns, the first pattern having priority
    over the second wherever the two occur. *)
Definition priority_reference (t out : string) : Prop :=
  let txt := chars (upper t) in
  (∃ i r, leftmost dash_code txt i r ∧ out = text r) ∨
  (absent dash_code txt ∧ ∃ i r, leftmost plain_code txt i r ∧ out = text r) ∨
  (absent dash_code txt ∧ absent plain_code txt ∧ out = "").

(** The claim as it is worded: the first substring, from the left, that
    is a code of either kind. *)
Definition either_code_at (txt : list ascii) (i : nat) (r : list ascii) : Prop :=
  occurs_at dash_code txt i r ∨ occurs_at plain_code txt i r.

Definition first_reference (t out : string) : Prop :=
  let txt := chars (upper t) in
  (∃ i r, either_code_at txt i r ∧
          (∀ j r', either_code_at txt j r' → i ≤ j) ∧ out = text r) ∨
  (absent dash_code txt ∧ absent plain_code txt ∧ out = "").

Definition not_in (cls : ascii → bool) (o : option ascii) : Prop :=
  match o with Some c => cls c = false | None => True end.

(** A code of the given kind starts the text [s], [prev] being the
    character before it, and takes its first [n] characters. *)
Definition code_here (code : list ascii → Prop) (prev : option ascii)
    (s : list ascii) (n : nat) : Prop :=
  ∃ r post, s = r ++ post ∧ n = length r ∧ code r ∧
            word_opt prev = false ∧ word_opt (head post) = false.

(** Sample input of [match]: four transactions (amounts written 100.049,
    100.05 and 100.06, and one without amount) and four invoices of
    100.00 (the last without amount), the references agreeing row by
    row; two invoices sharing one reference. *)
Definition sample_bank : list Bank.raw :=
  [Bank.Raw (Some "T1") (Some 738000%Z) (float (100049 # 1000))
            (Some "Payment ref ABC-123 received") None;
   Bank.Raw (Some "T2") (Some 738001%Z) (float (10005 # 100))
            (Some "eft abc-124") None;
   Bank.Raw (Some "T3") (Some 738002%Z) (float (10006 # 100))
            (Some "eft abc-125") None;
   Bank.Raw (Some "T4") None None (Some "rent") (Some "ab-7")].

Definition sample_invoices : list Inv.raw :=
  [Inv.Raw (Some "I1") (Some "A") (float (100 # 1)) None None (Some " abc-123 ");
   Inv.Raw (Some "I2") (Some "B") (float (100 # 1)) None None (Some "ABC-124");
   Inv.Raw (Some "I3") (Some "C") (float (100 # 1)) None None (Some "ABC-125");
   Inv.Raw (Some "I4") (Some "D") None None None (Some "AB-7")].

(** One transaction written 100.05 and one invoice written 100.00, with
    the same reference. *)
Definition boundary_bank : list Bank.raw :=
  [Bank.Raw (Some "T1") (Some 738000%Z) (float (10005 # 100)) (Some "rent ABC-1") None].

Definition boundary_invoices : list Inv.raw :=
  [Inv.Raw (Some "I1") (Some "A") (float (100 # 1)) None None (Some "ABC-1")].

Definition shared_reference : list Inv.raw :=
  [Inv.Raw (Some "I1") (Some "A") (Some (100 # 1)) None None (Some "ABC-123");
   Inv.Raw (Some "I2") (Some "B") (Some (100 # 1)) None None (Some "abc-123")].

(** The labels of the pairs, and of the rows left over, in an outcome. *)
Definition summary (o : outcome) : list (nat * nat) * list nat * list nat :=
  (map (fun m => (m_txn m, m_inv m)) (matches o),
   index (unmatched_txns o), index (unmatched_invs o)).

(** The rows a call of [compute_findings] stored under a category. *)
Definition stored (r : result (gmap string (frame Bank.row))) (k : string)
  : option (list (nat * Bank.row)) :=
  match r with
  | Ok f => rows <$> f !! k
  | KeyError _ => None
  end.

(** ** Further predicates on the matcher *)

(** Transaction [bi] can be paired with invoice [ii]: its extracted
    reference finds [ii] in the lookup and the two amounts are present
    and pass the amount test, their values being closer than the
    cutoff. *)
Definition eligible (bank : list Bank.row) (inv : list Inv.row)
    (bi ii : nat) : Prop :=
  ∃ t i, bank !! bi = Some t ∧
         inv_by_ref inv !! Bank._extracted_ref t = Some ii ∧
         inv !! ii = Some i ∧
         within_tolerance (Bank.amount t) (Inv.amount i).

(** The state of the loop of [match] after the transactions [0 .. k-1]. *)
Definition pass_upto (bank : list Bank.row) (inv : list Inv.row) (k : nat)
  : pools :=
  exact_pass bank inv (seq 0 k)
    (Pools (list_to_set (labels bank)) (list_to_set (labels inv)) []).

(** What the greedy loop has achieved after [k] transactions: an invoice
    some visited transaction could take is taken; each pair was made
    with the first transaction that could take the invoice; the pairs
    are listed in the order of the transactions. *)
Record greedy_inv (bank : list Bank.row) (inv : list Inv.row) (k : nat)
    (st : pools) : Prop := GreedyInv {
  g_taken : ∀ bj ii, bj < k → eligible bank inv bj ii →
                     ii ∉ unmatched_inv_idx st;
  g_first : ∀ m, m ∈ results st →
                 m_txn m < k ∧
                 ∀ bj, bj < m_txn m → ¬ eligible bank inv bj (m_inv m);
  g_order : StronglySorted lt (m_txn <$> results st) }.

(** Sample input of [match]: a transaction in which no reference code is
    found, and an invoice whose reference is blank. *)
Definition blank_bank : list Bank.raw :=
  [Bank.Raw (Some "T1") None (float (65005 # 100)) (Some "rent march") None].

Definition blank_invoices : list Inv.raw :=
  [Inv.Raw (Some "I1") (Some "A") (float (650 # 1)) None None (Some "   ")].

(** Two transactions that carry the same reference, the first written
    100.05 and the second 100.00, and the one invoice of 100.00 they both
    fit. *)
Definition competing_bank : list Bank.raw :=
  [Bank.Raw (Some "T1") None (float (10005 # 100)) (Some "ref ABC-123") None;
   Bank.Raw (Some "T2") None (float (100 # 1)) (Some "again ABC-123") None].

Definition one_invoice : list Inv.raw :=
  [Inv.Raw (Some "I1") (Some "A") (float (100 # 1)) None None (Some "ABC-123")].

(** ** Further predicates on reference codes *)

(** A character that a reference code can hold. *)
Definition code_char (c : ascii) : Prop :=
  is_upper c = true ∨ is_digit c = true ∨ c = "-"%char.

(** The text is empty or is a reference code of one of the two kinds. *)
Definition empty_or_code (s : string) : Prop :=
  chars s = [] ∨ dash_code (chars s) ∨ plain_code (chars s).

(** An invoice whose reference holds more than the code, and a
    transaction that carries the code. *)
Definition wordy_invoices : list Inv.raw :=
  [Inv.Raw (Some "I1") (Some "A") (Some (100 # 1)) None None (Some "Ref ABC-123")].

(** ** [recon/matcher.py]: [normalize_text] *)

Definition lower_char (c : ascii) : ascii :=
  if is_upper c then ascii_of_nat (code c + 32) else c.

(** [str.lower] *)
Definition lower (s : string) : string := text (map lower_char (chars s)).

(** The alternatives of [NOISE_WORDS_RE], in their order:
    [r'\b(payment|eft|incoming|debit order|txn|ref:|paid)\b'] with
    [re.I]. *)
Definition NOISE_WORDS : list string :=
  ["payment"; "eft"; "incoming"; "debit order"; "txn"; "ref:"; "paid"].

(** [w] is a prefix of [s] when case is ignored. *)
Fixpoint starts_with_ci (w s : list ascii) : bool :=
  match w, s with
  | [], _ => true
  | c :: w', x :: s' =>
      Ascii.eqb (lower_char x) (lower_char c) && starts_with_ci w' s'
  | _ :: _, [] => false
  end.

(** One alternative at the head of [s], followed by a word boundary. *)
Definition word_here (w : list ascii) (s : list ascii) : bool :=
  starts_with_ci w s &&
  at_boundary (last (take (length w) s)) (drop (length w) s).

(** The alternation: the first alternative that matches and is followed
    by a boundary. *)
Fixpoint first_word (ws : list string) (s : list ascii) : option nat :=
  match ws with
  | [] => None
  | w :: ws' =>
      if word_here (chars w) s then Some (length (chars w))
      else first_word ws' s
  end.

(** The match of [NOISE_WORDS_RE] that starts at the head of [s]. *)
Definition noise_here (prev : option ascii) (s : list ascii) : option nat :=
  if at_boundary prev s then first_word NOISE_WORDS s else None.

(** [NOISE_WORDS_RE.sub(' ', s)]: the text is scanned from the left; a
    match is replaced by one blank and the scan goes on after it ([skip]
    counts the characters of the match still to pass); elsewhere the
    character is kept. *)
Fixpoint sub_noise (skip : nat) (prev : option ascii) (s : list ascii)
  : list ascii :=
  match s with
  | [] => []
  | c :: s' =>
      match skip with
      | S k => sub_noise k (Some c) s'
      | 0 =>
          match noise_here prev s with
          | Some n => " "%char :: sub_noise (n - 1) (Some c) s'
          | None => c :: sub_noise 0 (Some c) s'
          end
      end
  end.

Definition is_alnum (c : ascii) : bool := is_upper c || is_lower c || is_digit c.

(** [re.sub(r'[^A-Za-z0-9\s]', ' ', s)] *)
Definition blank_symbols (s : list ascii) : list ascii :=
  map (fun c => if is_alnum c || is_space c then c else " "%char) s.

(** [re.sub(r'\s+', ' ', s)]: each run of whitespace becomes one blank. *)
Fixpoint collapse (in_run : bool) (s : list ascii) : list ascii :=
  match s with
  | [] => []
  | c :: s' =>
      if is_space c
      then (if in_run then collapse true s' else " "%char :: collapse true s')
      else c :: collapse false s'
  end.

Definition normalize_text (s : string) : string :=
  if String.eqb s "" then ""
  else
    let s1 := sub_noise 0 None (chars s) in
    let s2 := map lower_char (blank_symbols s1) in
    strip (text (collapse false s2)).

(** The derived columns [_norm_text] and [_norm_customer] of
    [preprocess]. *)
Definition norm_text_of (r : Bank.raw) : string :=
  normalize_text (fill (Bank.raw_description r) ++ " " ++ fill (Bank.raw_reference r))%string.

Definition norm_customer_of (r : Inv.raw) : string :=
  normalize_text (fill (Inv.raw_customer r)).

(** A character of a normalized text. *)
Definition plain_char (c : ascii) : Prop :=
  is_lower c = true ∨ is_digit c = true ∨ c = " "%char.

(** No two blanks side by side, none at either end. *)
Definition single_spaced (l : list ascii) : Prop :=
  (∀ l1 a b l2, l = l1 ++ a :: b :: l2 → ¬ (a = " "%char ∧ b = " "%char)) ∧
  head l ≠ Some " "%char ∧ last l ≠ Some " "%char.

(** [str.strip], on the characters. *)
Definition strip_list (l : list ascii) : list ascii :=
  rev (lstrip (rev (lstrip l))).

(** A character before whitespace is collapsed: a lowercase letter, a
    digit or whitespace. *)
Definition spaced_char (c : ascii) : Prop :=
  is_lower c = true ∨ is_digit c = true ∨ is_space c = true.

Fixpoint no_double (l : list ascii) : Prop :=
  match l with
  | a :: t =>
      match t with
      | b :: _ => ¬ (a = " "%char ∧ b = " "%char)
      | [] => True
      end ∧ no_double t
  | [] => True
  end.

(** ** [app.py], [streamlit_app.py], [recon/summarizer.py]: the run *)

(** Steps 2 and 3 of [main]: [match], then [compute_findings] and the
    merge inside [try]; a failure of the rules leaves the matcher's
    findings as they are. *)
Definition reconcile (bank_df : list Bank.raw) (inv_df : list Inv.raw) : outcome :=
  let o := match_ bank_df inv_df in
  let merged :=
    match compute_findings (matches o) (unmatched_txns o) (unmatched_invs o) with
    | Ok strict_findings => merge_findings (findings o) strict_findings
    | KeyError _ => findings o
    end in
  {| matches := matches o;
     unmatched_txns := unmatched_txns o;
     unmatched_invs := unmatched_invs o;
     findings := merged |}.

(** [len(findings.get(k, []))] *)
Definition finding_len (findings : gmap string finding) (k : string) : nat :=
  match findings !! k with
  | Some (DataFrame d) => length (rows d)
  | Some (PyList l) => length l
  | None => 0
  end.

(** The dict [stats] handed to [summarize_report]: the count of matches
    under ["counts"], when the caller has put it there, the two frames of
    unmatched rows and the findings. *)
Record raw_stats := RawStats {
  rs_matches : option nat;
  rs_unmatched_txns : frame Bank.row;
  rs_unmatched_invs : frame Inv.row;
  rs_findings : gmap string finding }.

(** Step 4 of [main]: [stats = {"counts": {"matches": len(matches)}, ...}]. *)
Definition stats_of (o : outcome) : raw_stats :=
  {| rs_matches := Some (length (matches o));
     rs_unmatched_txns := unmatched_txns o;
     rs_unmatched_invs := unmatched_invs o;
     rs_findings := findings o |}.

(** The ["counts"] of [generate_stats_from_inputs]. *)
Record counts := Counts {
  c_matches : nat;
  c_unmatched_txn : nat;
  c_unmatched_inv : nat;
  c_dup_txn : nat }.

Definition generate_stats_from_inputs (raw_stats : raw_stats) : counts :=
  {| c_matches := default 0 (rs_matches raw_stats);
     c_unmatched_txn := length (rows (rs_unmatched_txns raw_stats));
     c_unmatched_inv := length (rows (rs_unmatched_invs raw_stats));
     c_dup_txn := finding_len (rs_findings raw_stats) "duplicate_txn" |}.

(** ** [recon/llm_gemini.py]: [_retry_call] *)

(** [range(lo, hi)] *)
Definition range (lo hi : Z) : list Z :=
  (fun i => (lo + Z.of_nat i)%Z) <$> seq 0 (Z.to_nat (hi - lo)).

(** What leaves [_retry_call] as an exception: the exception of a call
    of [fn]; the [TypeError] of [raise None], when [last_exc] is still
    [None]; the [ValueError] of [time.sleep] on a negative length. *)
Inductive raised (E : Type) :=
| FromCall (e : E)
| RaiseNone
| NegativeSleep.
Arguments FromCall {E} e.
Arguments RaiseNone {E}.
Arguments NegativeSleep {E}.

(** How a run of [_retry_call] ends: what it returns or raises, the world
    the calls of [fn] leave behind, and the lengths it has slept, in
    seconds. *)
Record ended (W E A : Type) := Ended {
  answer : raised E + A;
  world : W;
  slept : list Q }.
Arguments Ended {W E A} answer world slept.
Arguments answer {W E A} e.
Arguments world {W E A} e.
Arguments slept {W E A} e.

Section Retry.
Context {W E A : Type}.

(** A call [fn()] in the world [w]: what it returns ([inr]) or raises
    ([inl], an [Exception]), and the world after it.  Seconds are exact
    rationals. *)
Variable fn : W → (E + A) * W.

(** The [for] loop over the attempts that remain. *)
Fixpoint retry_loop (backoff_base : Q) (attempts : list Z) (last_exc : option E)
    (w : W) (log : list Q) : ended W E A :=
  match attempts with
  | [] =>
      Ended (inl (match last_exc with Some e => FromCall e | None => RaiseNone end))
            w log
  | attempt :: rest =>
      match fn w with
      | (inr a, w') => Ended (inr a) w' log
      | (inl e, w') =>
          let secs := (backoff_base * inject_Z attempt)%Q in
          if Num.Qlt_bool secs 0 then Ended (inl NegativeSleep) w' log
          else retry_loop backoff_base rest (Some e) w' (log ++ [secs])
      end
  end.

Definition _retry_call (retries : Z) (backoff_base : Q) (w : W) : ended W E A :=
  retry_loop backoff_base (range 1 (retries + 2)) None w [].

(** The world after [n] calls of [fn], and what call number [n] (from 0)
    returns or raises. *)
Fixpoint after_calls (n : nat) (w : W) : W :=
  match n with
  | 0 => w
  | S n => after_calls n (fn w).2
  end.

Definition call (n : nat) (w : W) : E + A := (fn (after_calls n w)).1.

End Retry.

(** The pauses after the first [n] failures: [backoff_base * 1], ...,
    [backoff_base * n]. *)
Definition backoffs (backoff_base : Q) (n : nat) : list Q :=
  (fun attempt => (backoff_base * inject_Z attempt)%Q) <$> range 1 (1 + Z.of_nat n).

Definition failed {E A} (r : E + A) : Prop := ∃ e, r = inl e.

(** Three calls: the first two time out, the third answers. *)
Definition flaky (n : nat) : (string + string) * nat :=
  (if n <? 2 then inl "timeout" else inr "plan", S n).

(** Every call fails, with its number in the message. *)
Definition down (n : nat) : (nat + string) * nat := (inl n, S n).

(** ** [recon/llm_gemini.py]: [generate_action_plan_with_gemini] *)

(** ["\n"] *)
Definition nl : string := String "010"%char "".

Definition get_local_fallback : string :=
  "**[AI Summary: Local Fallback]** Gemini key not detected or API failed. "
  +:+ nl +:+ nl +:+
  "**Priority Actions:**" +:+ nl +:+
  "1. Review Unpaid Invoices list." +:+ nl +:+
  "2. Check Partial Payments for shortfalls." +:+ nl +:+
  "3. Manually reconcile Mystery Payments.".

(** What [call_gemini] sends. *)
Record GenerateContentConfig := Config {
  max_output_tokens : nat;
  temperature : Q }.

Record request := Request {
  model : string;
  contents : string;
  config : GenerateContentConfig }.

(** How [generate_action_plan_with_gemini] ends: the text returned, the
    world the SDK calls leave behind, the lines printed and the lengths
    slept. *)
Record told (W : Type) := Told {
  plan : string;
  sdk : W;
  printed : list string;
  paused : list Q }.
Arguments Told {W} plan sdk printed paused.
Arguments plan {W} t.
Arguments sdk {W} t.
Arguments printed {W} t.
Arguments paused {W} t.

Section Gemini.
Context {W E C Stats : Type}.

(** The surroundings: [str(e)] of an exception of the SDK or of
    [_build_prompt]; [genai.Client(api_key=...)];
    [client.models.generate_content(...).text], a [str]; and
    [_build_prompt(stats)], which reads [stats] only. *)
Variable str : E → string.
Variable Client : string → W → (E + C) * W.
Variable generate_content : C → request → W → (E + string) * W.
Variable _build_prompt : Stats → E + string.

Definition str_raised (e : raised E) : string :=
  match e with
  | FromCall e => str e
  | RaiseNone => "exceptions must derive from BaseException"
  | NegativeSleep => "sleep length must be non-negative"
  end.

(** The [except] branch. *)
Definition api_error (e : raised E) (w : W) (slept : list Q) : told W :=
  Told (get_local_fallback +:+ nl +:+ nl +:+ "*(API Error: " +:+ str_raised e +:+ ")*")
       w ["[Gemini Error] " +:+ str_raised e] slept.

Definition call_gemini (client : C) (model prompt : string) : W → (E + string) * W :=
  generate_content client (Request model prompt (Config 800 (4 # 10))).

(** [api_key] is [os.environ.get("GEMINI_API_KEY")]. *)
Definition generate_action_plan_with_gemini (api_key : option string)
    (stats : Stats) (model : string) (w : W) : told W :=
  match api_key with
  | None => Told get_local_fallback w [] []
  | Some key =>
      if String.eqb key "" then Told get_local_fallback w [] []
      else
        match Client key w with
        | (inl e, w1) => api_error (FromCall e) w1 []
        | (inr client, w1) =>
            match _build_prompt stats with
            | inl e => api_error (FromCall e) w1 []
            | inr prompt =>
                let r := _retry_call (call_gemini client model prompt) 2 (6 # 10) w1 in
                match answer r with
                | inr text => Told text (world r) [] (slept r)
                | inl e => api_error e (world r) (slept r)
                end
            end
        end
  end.

End Gemini.

(** A client that is always created, a prompt that is always built. *)
Definition any_client (key : string) (w : nat) : (string + unit) * nat := (inr (), w).
Definition any_prompt (stats : unit) : string + string := inr "prompt".

(** An API that answers the third request, and one that never answers. *)
Definition third_time (c : unit) (r : request) (w : nat) : (string + string) * nat :=
  (if w <? 2 then inl "503" else inr "1. Chase unpaid rent.", S w).
Definition outage (c : unit) (r : request) (w : nat) : (string + string) * nat :=
  (inl (if w <? 2 then "503" else "quota"), S w).

(** ** [recon/integrators.py] *)

(** The frames handed to [publish_recon_report]. *)
Inductive table :=
| MatchTable (matches : list match_row)
| TxnTable (un_txns : frame Bank.row)
| InvTable (un_invs : frame Inv.row).

(** What the module does to the outside: [os.makedirs(path,
    exist_ok=True)], [df.to_csv(path, index=False)],
    [requests.post(url, json={"text": text})] and [print(line)]. *)
Inductive effect :=
| Makedirs (path : string)
| ToCsv (df : table) (path : string)
| Post (url text : string)
| Print (line : string).

Section Publish.
Context {E : Type}.

(** [str(e)], and whether an effect raises, given the effects that have
    taken place before it. *)
Variable str : E → string.
Variable raises : list effect → effect → option E.

(** A computation reads the effects so far, adds its own, and returns or
    raises. *)
Definition io (A : Type) : Type := list effect → (E + A) * list effect.

#[local] Instance io_ret : MRet io := fun A a log => (inr a, log).
#[local] Instance io_bind : MBind io := fun A B k m log =>
  match m log with
  | (inr a, log') => k a log'
  | (inl e, log') => (inl e, log')
  end.

Definition perform (ev : effect) : io unit := fun log =>
  match raises log ev with
  | Some e => (inl e, log)
  | None => (inr (), log ++ [ev])
  end.

(** [print] is taken not to raise. *)
Definition print (line : string) : io unit := fun log => (inr (), log ++ [Print line]).

(** [os.path.join("reports", filename)], with the separator [/]. *)
Definition export_csv (df : table) (filename : string) : io string :=
  let path := "reports/" +:+ filename in
  _ ← perform (Makedirs "reports");
  _ ← perform (ToCsv df path);
  mret path.

(** [url] is [os.environ.get("SLACK_WEBHOOK_URL")]. *)
Definition send_slack_message (url : option string) (msg : string) : io unit :=
  match url with
  | None => print "Slack skipped (no URL)."
  | Some u =>
      if String.eqb u "" then print "Slack skipped (no URL)."
      else _ ← perform (Post u msg); print "Slack sent."
  end.

(** The effects after [publish_recon_report], from the effects before it. *)
Definition publish_recon_report (url : option string) (matches : list match_row)
    (un_txns : frame Bank.row) (un_invs : frame Inv.row) (summary : string)
    (log : list effect) : list effect :=
  match (_ ← export_csv (MatchTable matches) "matches.csv";
         _ ← export_csv (TxnTable un_txns) "unmatched_txns.csv";
         send_slack_message url summary) log with
  | (inr _, log') => log'
  | (inl e, log') => log' ++ [Print ("Publish error: " +:+ str e)]
  end.

End Publish.

(** The steps of a publication that goes through, before its last line. *)
Definition publication (url : option string) (matches : list match_row)
    (un_txns : frame Bank.row) (summary : string) : list effect :=
  [Makedirs "reports"; ToCsv (MatchTable matches) "reports/matches.csv";
   Makedirs "reports"; ToCsv (TxnTable un_txns) "reports/unmatched_txns.csv"]
  ++ match url with
     | None => []
     | Some u => if String.eqb u "" then [] else [Post u summary]
     end.

Definition last_line (url : option string) : string :=
  match url with
  | None => "Slack skipped (no URL)."
  | Some u => if String.eqb u "" then "Slack skipped (no URL)." else "Slack sent."
  end.

(** ** [recon/matcher.py]: the headers in [preprocess] *)

(** [df.rename(columns=names)]: a header that is a key of [names] is
    replaced, any other is kept. *)
Definition rename (names : list (string * string)) (columns : list string)
  : list string :=
  (fun c => default c (snd <$> find (fun kv => String.eqb kv.1 c) names)) <$> columns.

(** [_ensure_cols]: each missing column is added at the end. *)
Fixpoint _ensure_cols (columns cols : list string) : list string :=
  match cols with
  | [] => columns
  | c :: rest =>
      _ensure_cols (if bool_decide (c ∈ columns) then columns else columns ++ [c]) rest
  end.

Definition BANK_NAMES : list (string * string) :=
  [("TransactionID", "txn_id"); ("DatePaid", "date"); ("AmountPaid", "amount");
   ("Description", "description"); ("Reference", "reference")].

Definition INV_NAMES : list (string * string) :=
  [("InvoiceID", "invoice_id"); ("TenantName", "customer"); ("MonthlyRent", "amount");
   ("DueDate", "due_date"); ("PaymentReference", "reference")].

Definition BANK_COLS : list string :=
  ["txn_id"; "date"; "amount"; "description"; "reference"].

Definition INV_COLS : list string :=
  ["invoice_id"; "customer"; "amount"; "due_date"; "reference"].

(** Steps 1 to 3 of [preprocess], on the headers of a frame (ASCII
    headers: [str.lower] is [lower]). *)
Definition standard_headers (names : list (string * string)) (cols : list string)
    (columns : list string) : list string :=
  _ensure_cols (lower <$> rename names columns) cols.

Definition bank_headers : list string → list string := standard_headers BANK_NAMES BANK_COLS.
Definition inv_headers : list string → list string := standard_headers INV_NAMES INV_COLS.

(** * Properties *)

(** ** The invoice lookup *)

Lemma inv_by_ref_snoc inv x :
  inv_by_ref (inv ++ [x]) = add_ref (inv_by_ref inv) (length inv, x).
Proof.
  unfold inv_by_ref. rewrite imap_app, fold_left_app. simpl.
  by rewrite Nat.add_0_r.
Qed.

Lemma has_ref_snoc inv x k j :
  has_ref (inv ++ [x]) k j ↔
  has_ref inv k j ∨ (j = length inv ∧ ∃ r, Inv.reference x = Some r ∧ norm_ref r = k).
Proof.
  unfold has_ref. split.
  - intros (i & r & Hi & Hr & Hk).
    apply lookup_app_Some in Hi as [Hi | [Hlen Hi]].
    + left. eauto.
    + right. apply list_lookup_singleton_Some in Hi as [Hj ->].
      split; [lia | eauto].
  - intros [(i & r & Hi & Hr & Hk) | [-> (r & Hr & Hk)]].
    + exists i, r. split; [| done]. by apply lookup_app_l_Some.
    + exists x, r. split; [| done].
      rewrite lookup_app_r by lia. by rewrite Nat.sub_diag.
Qed.

Lemma has_ref_lt inv k j : has_ref inv k j → j < length inv.
Proof. intros (i & r & Hi & _). by apply lookup_lt_Some in Hi. Qed.

Lemma inv_by_ref_spec inv k :
  match inv_by_ref inv !! k with
  | Some ii => last_with_ref inv k ii
  | None => ∀ j, ¬ has_ref inv k j
  end.
Proof.
  induction inv as [| x inv IH] using rev_ind.
  - unfold inv_by_ref. simpl. rewrite lookup_empty.
    intros j (i & r & Hi & _). by rewrite lookup_nil in Hi.
  - rewrite inv_by_ref_snoc. unfold add_ref. simpl.
    destruct (Inv.reference x) as [r |] eqn:Hr.
    + destruct (decide (norm_ref r = k)) as [<- | Hne].
      * fold (norm_ref r). rewrite lookup_insert_eq. split.
        -- apply has_ref_snoc. right. eauto.
        -- intros j Hj Hh. apply has_ref_lt in Hh.
           rewrite length_app in Hh. simpl in Hh. lia.
      * fold (norm_ref r). rewrite lookup_insert_ne by done.
        destruct (inv_by_ref inv !! k) as [ii |].
        -- destruct IH as [Hh Hlast]. split.
           ++ apply has_ref_snoc. by left.
           ++ intros j Hj Hh'. apply has_ref_snoc in Hh' as [Hh' | [_ (r' & Hr' & Hk)]].
              ** by apply (Hlast j).
              ** congruence.
        -- intros j Hh. apply has_ref_snoc in Hh as [Hh | [_ (r' & Hr' & Hk)]].
           ++ by apply (IH j).
           ++ congruence.
    + destruct (inv_by_ref inv !! k) as [ii |].
      * destruct IH as [Hh Hlast]. split.
        -- apply has_ref_snoc. by left.
        -- intros j Hj Hh'. apply has_ref_snoc in Hh' as [Hh' | [_ (r' & Hr' & Hk)]].
           ++ by apply (Hlast j).
           ++ congruence.
      * intros j Hh. apply has_ref_snoc in Hh as [Hh | [_ (r' & Hr' & Hk)]].
        -- by apply (IH j).
        -- congruence.
Qed.

Lemma inv_by_ref_Some inv k ii :
  inv_by_ref inv !! k = Some ii ↔ last_with_ref inv k ii.
Proof.
  pose proof (inv_by_ref_spec inv k) as H. split.
  - intros Heq. by rewrite Heq in H.
  - intros [Hh Hlast]. destruct (inv_by_ref inv !! k) as [ii' |].
    + destruct H as [Hh' Hlast']. f_equal.
      destruct (Nat.lt_trichotomy ii ii') as [Hlt | [-> | Hlt]]; [| done |].
      * by destruct (Hlast ii').
      * by destruct (Hlast' ii).
    + by destruct (H ii).
Qed.

Lemma inv_by_ref_None inv k :
  inv_by_ref inv !! k = None ↔ ∀ j, ¬ has_ref inv k j.
Proof.
  pose proof (inv_by_ref_spec inv k) as H. split.
  - intros Heq. by rewrite Heq in H.
  - intros Hno. destruct (inv_by_ref inv !! k) as [ii |]; [| done].
    destruct H as [Hh _]. by destruct (Hno ii).
Qed.

(** ** The matching loop *)

Lemma lookup_bank_amts bank bi :
  bank_amts bank !! bi = Bank.amount <$> bank !! bi.
Proof. unfold bank_amts. by rewrite lookup_map_seq_0, list_lookup_fmap. Qed.

Lemma lookup_inv_amts inv ii :
  inv_amts inv !! ii = Inv.amount <$> inv !! ii.
Proof. unfold inv_amts. by rewrite lookup_map_seq_0, list_lookup_fmap. Qed.

(** ** Rounding to the nearest float *)

Section Float64Facts.
Import Float64.
Local Open Scope Q_scope.

Lemma pow2_pos e : 0 < 2 ^ e.
Proof. by apply Qpower_0_lt. Qed.

Lemma pow2_add a b : 2 ^ (a + b) == 2 ^ a * 2 ^ b.
Proof. by apply Qpower_plus. Qed.

Lemma pow2_le a b : (a ≤ b)%Z → 2 ^ a <= 2 ^ b.
Proof. intros. by apply Qpower_le_compat_l. Qed.

Lemma pow2_Z n : (0 ≤ n)%Z → inject_Z (2 ^ n) == 2 ^ n.
Proof. intros. by rewrite Zpower_Qpower. Qed.

Lemma flog2_spec q : 0 < q → 2 ^ flog2 q <= q ∧ q < 2 ^ (flog2 q + 1).
Proof.
  intros Hq. unfold flog2.
  set (a := Z.log2 (Qnum q)). set (b := Z.log2 (Zpos (Qden q))).
  assert (Hn : (0 < Qnum q)%Z).
  { destruct q as [n d]. unfold Qlt in Hq. simpl in *. lia. }
  destruct (Z.log2_spec (Qnum q) Hn) as [Ha1 Ha2]. fold a in Ha1, Ha2.
  destruct (Z.log2_spec (Zpos (Qden q)) eq_refl) as [Hb1 Hb2]. fold b in Hb1, Hb2.
  unfold Z.succ in Ha2, Hb2.
  assert (Ha0 : (0 ≤ a)%Z) by apply Z.log2_nonneg.
  assert (Hb0 : (0 ≤ b)%Z) by apply Z.log2_nonneg.
  rewrite Zle_Qle, pow2_Z in Ha1 by done.
  rewrite Zlt_Qlt, pow2_Z in Ha2 by lia.
  rewrite Zle_Qle, pow2_Z in Hb1 by done.
  rewrite Zlt_Qlt, pow2_Z in Hb2 by lia.
  assert (Hqd : q * inject_Z (Zpos (Qden q)) == inject_Z (Qnum q)).
  { destruct q as [n d]. simpl. unfold Qeq, Qmult, inject_Z. simpl. lia. }
  assert (Hd : 0 < inject_Z (Zpos (Qden q))) by (rewrite <- (Zlt_Qlt 0); lia).
  pose proof (pow2_pos (a - b)) as Hk.
  pose proof (pow2_pos b) as Hpb.
  pose proof (pow2_add (a - b) b) as E1. replace (a - b + b)%Z with a in E1 by lia.
  pose proof (pow2_add (a - b - 1) 1) as E2. replace (a - b - 1 + 1)%Z with (a - b)%Z in E2 by lia.
  pose proof (pow2_add (a - b) 1) as E3.
  pose proof (pow2_add b 1) as E4.
  pose proof (pow2_add a 1) as E5.
  change (2 ^ 1) with 2 in E2, E3, E4, E5.
  pose proof (pow2_pos (a - b - 1)) as Hk1.
  set (N := inject_Z (Qnum q)) in *. set (D := inject_Z (Zpos (Qden q))) in *.
  set (A := 2 ^ a) in *. set (B := 2 ^ b) in *. set (K := 2 ^ (a - b)) in *.
  set (K1 := 2 ^ (a - b - 1)) in *.
  set (A1 := 2 ^ (a + 1)) in *. set (B1 := 2 ^ (b + 1)) in *.
  assert (HB1 : 0 < B1) by (rewrite E4; lra).
  assert (Hlo : K1 < q).
  { assert (q * D < q * B1) by (by apply Qmult_lt_l).
    assert (K1 * B1 == A) by (rewrite E4, E1, E2; ring).
    assert (K1 * B1 < q * B1) by lra.
    by apply (Qmult_lt_r _ _ B1). }
  assert (Hhi : q < 2 ^ (a - b + 1)).
  { rewrite E3.
    assert (HK2 : 0 < K * 2) by lra.
    assert (K * 2 * B <= K * 2 * D) by (by apply Qmult_le_l).
    assert (A1 == K * 2 * B) by (rewrite E5, E1; ring).
    assert (q * D < K * 2 * D) by lra.
    by apply (Qmult_lt_r _ _ D). }
  destruct (Qle_bool K q) eqn:Hc.
  - apply Qle_bool_iff in Hc. split; assumption.
  - assert (q < K).
    { apply Qnot_le_lt. intros Hle. apply Qle_bool_iff in Hle. congruence. }
    split; [by apply Qlt_le_weak |].
    replace (a - b - 1 + 1)%Z with (a - b)%Z by lia. assumption.
Qed.

Lemma rint_bounds q : (Qfloor q ≤ rint q ≤ Qfloor q + 1)%Z.
Proof.
  unfold rint. destruct (_ ?= _); [destruct (Z.even _) | |]; lia.
Qed.

Lemma rint_ge n q : inject_Z n <= q → (n ≤ rint q)%Z.
Proof.
  intros H. apply Qfloor_resp_le in H. rewrite Qfloor_Z in H.
  pose proof (rint_bounds q). lia.
Qed.

Lemma rint_le n q : q <= inject_Z n → (rint q ≤ n)%Z.
Proof.
  intros H. pose proof (rint_bounds q) as Hb.
  pose proof (Qfloor_le q) as Hf.
  destruct (Z_lt_le_dec (Qfloor q) n) as [Hlt | Hge]; [lia |].
  assert (Qfloor q = n) as Heq.
  { apply Z.le_antisymm; [| done]. rewrite Zle_Qle. lra. }
  unfold rint. rewrite Heq.
  assert (Hcmp : (q - inject_Z n ?= 1 # 2) = Lt).
  { apply (proj1 (Qlt_alt _ _)). rewrite Heq in Hf. lra. }
  by rewrite Hcmp.
Qed.

Lemma inject_Z_pred n : inject_Z (n - 1) == inject_Z n - 1.
Proof. unfold Qeq, Qminus, Qplus, Qopp, inject_Z. simpl. lia. Qed.

Lemma rint_lt_even n q :
  Z.even n = true → (rint q < n)%Z ↔ q < inject_Z n - (1 # 2).
Proof.
  intros Hn. pose proof (rint_bounds q) as Hb.
  pose proof (Qfloor_le q) as Hf. pose proof (Qlt_floor q) as Hf'.
  rewrite inject_Z_plus in Hf'. change (inject_Z 1) with 1 in Hf'.
  split.
  - intros Hlt. apply Qnot_le_lt. intros Hge.
    assert (Hfl : (n - 1 ≤ Qfloor q)%Z).
    { assert (inject_Z (n - 1) <= q) by (rewrite inject_Z_pred; lra).
      apply Qfloor_resp_le in H. by rewrite Qfloor_Z in H. }
    assert (Heq : Qfloor q = (n - 1)%Z) by lia.
    unfold rint in Hlt. rewrite Heq in Hlt.
    pose proof (inject_Z_pred n) as Hi.
    destruct (q - inject_Z (n - 1) ?= 1 # 2) eqn:Hc.
    + assert (Z.even (n - 1) = false) as Hodd.
      { rewrite Z.even_sub, Hn. reflexivity. }
      rewrite Hodd in Hlt. lia.
    + apply (proj2 (Qlt_alt _ _)) in Hc. lra.
    + lia.
  - intros Hlt.
    assert (Hfl : (Qfloor q ≤ n - 1)%Z).
    { apply Z.lt_succ_r. rewrite Zlt_Qlt. unfold Z.succ.
      rewrite !inject_Z_plus, inject_Z_pred. change (inject_Z 1) with 1. lra. }
    destruct (Z_lt_le_dec (Qfloor q) (n - 1)) as [Hlt' | Hge]; [lia |].
    assert (Heq : Qfloor q = (n - 1)%Z) by lia.
    unfold rint. rewrite Heq.
    pose proof (inject_Z_pred n) as Hi.
    assert (Hcmp : (q - inject_Z (n - 1) ?= 1 # 2) = Lt).
    { apply (proj1 (Qlt_alt _ _)). lra. }
    rewrite Hcmp. lia.
Qed.

(** Rounding does not leave the binade: below [2 ^ k] the result is at
    most [2 ^ k], from [2 ^ k] on it is at least [2 ^ k]. *)
Lemma round_pos_below a k :
  0 < a → a < 2 ^ k → (-1074 + 53 ≤ k)%Z → round_pos a <= 2 ^ k.
Proof.
  intros Ha Hk Hmin. destruct (flog2_spec a Ha) as [Hlo Hhi].
  unfold round_pos. set (e := ulp_exp a).
  pose proof (pow2_pos e) as He.
  assert (HL : (flog2 a < k)%Z).
  { apply Z.lt_nge. intros Hge. apply pow2_le in Hge. lra. }
  destruct (Z_lt_le_dec k (e + 53)) as [Hke | Hke].
  - (* the unit is already coarser than the bound *)
    unfold e, ulp_exp in Hke. lia.
  - assert (Hq : a / 2 ^ e <= inject_Z (2 ^ (k - e))).
    { rewrite pow2_Z by lia. apply Qle_shift_div_r; [done |].
      rewrite <- pow2_add. replace (k - e + e)%Z with k by lia. lra. }
    apply rint_le in Hq. rewrite Zle_Qle, pow2_Z in Hq by lia.
    assert (inject_Z (rint (a / 2 ^ e)) * 2 ^ e <= 2 ^ (k - e) * 2 ^ e)
      by (by apply Qmult_le_compat_r; [| apply Qlt_le_weak]).
    rewrite <- pow2_add in H. by replace (k - e + e)%Z with k in H by lia.
Qed.

Lemma round_pos_above a k :
  0 < a → 2 ^ k <= a → (-1074 + 52 ≤ k)%Z → 2 ^ k <= round_pos a.
Proof.
  intros Ha Hk Hmin. destruct (flog2_spec a Ha) as [Hlo Hhi].
  unfold round_pos. set (e := ulp_exp a).
  pose proof (pow2_pos e) as He.
  assert (HL : (k ≤ flog2 a)%Z).
  { apply Z.lt_succ_r, Z.lt_nge. intros Hge. apply pow2_le in Hge.
    unfold Z.succ in Hge. lra. }
  assert (Hek : e = (flog2 a - 52)%Z) by (unfold e, ulp_exp; lia).
  assert (Hq : inject_Z (2 ^ 52) <= a / 2 ^ e).
  { rewrite pow2_Z by lia. apply Qle_shift_div_l; [done |].
    rewrite <- pow2_add. replace (52 + e)%Z with (flog2 a) by lia. lra. }
  apply rint_ge in Hq. rewrite Zle_Qle, pow2_Z in Hq by lia.
  assert (2 ^ 52 * 2 ^ e <= inject_Z (rint (a / 2 ^ e)) * 2 ^ e)
    by (by apply Qmult_le_compat_r; [| apply Qlt_le_weak]).
  rewrite <- pow2_add in H. replace (52 + e)%Z with (flog2 a) in H by lia.
  apply pow2_le in HL. lra.
Qed.

(** The test against the tolerance, on the exact difference: a positive
    [a] rounds below [TOLERANCE] exactly when it is below the midpoint
    between [TOLERANCE] and the float before it. *)
Lemma round_pos_tolerance a :
  0 < a → round_pos a < TOLERANCE ↔ a < CUTOFF.
Proof.
  intros Ha. destruct (flog2_spec a Ha) as [Hlo Hhi].
  assert (T1 : 2 ^ (-5) < TOLERANCE) by reflexivity.
  assert (T2 : TOLERANCE < 2 ^ (-4)) by reflexivity.
  assert (C1 : 2 ^ (-5) < CUTOFF) by reflexivity.
  assert (C2 : CUTOFF < 2 ^ (-4)) by reflexivity.
  destruct (Z_lt_le_dec (flog2 a) (-5)) as [Hlow | Hge].
  - (* below the binade of the tolerance *)
    assert (a < 2 ^ (-5)).
    { assert (2 ^ (flog2 a + 1) <= 2 ^ (-5)) by (apply pow2_le; lia). lra. }
    pose proof (round_pos_below a (-5) Ha H ltac:(lia)). split; intros _; lra.
  - destruct (Z_lt_le_dec (-5) (flog2 a)) as [Hhigh | Hle].
    + (* above it *)
      assert (2 ^ (-4) <= a).
      { assert (2 ^ (-4) <= 2 ^ flog2 a) by (apply pow2_le; lia). lra. }
      pose proof (round_pos_above a (-4) Ha H ltac:(lia)). split; intros ?; lra.
    + (* in it: the unit is [2 ^ -57] *)
      assert (HL : flog2 a = (-5)%Z) by lia.
      unfold round_pos, ulp_exp. rewrite HL.
      change (Z.max (-1074) (-5 - 52)) with (-57)%Z.
      pose proof (pow2_pos (-57)) as He.
      assert (ET : TOLERANCE == inject_Z 7205759403792794 * 2 ^ (-57)) by reflexivity.
      assert (EC : CUTOFF == (inject_Z 7205759403792794 - (1 # 2)) * 2 ^ (-57))
        by reflexivity.
      pose proof (rint_lt_even 7205759403792794 (a / 2 ^ (-57)) eq_refl) as Hr.
      rewrite ET, EC. split.
      * intros Hlt. apply Qmult_lt_r in Hlt; [| done].
        rewrite <- Zlt_Qlt in Hlt. apply Hr in Hlt.
        apply (Qmult_lt_r _ _ (2 ^ (-57))) in Hlt; [| done].
        assert (Ea : a / 2 ^ (-57) * 2 ^ (-57) == a) by (field; lra).
        rewrite Ea in Hlt. exact Hlt.
      * intros Hlt. apply Qmult_lt_r; [done |]. rewrite <- Zlt_Qlt. apply Hr.
        apply Qlt_shift_div_r; [done |]. exact Hlt.
Qed.

Lemma round_pos_nonneg a : 0 < a → 0 <= round_pos a.
Proof.
  intros Ha. unfold round_pos. pose proof (pow2_pos (ulp_exp a)) as He.
  assert (Hq : inject_Z 0 <= a / 2 ^ ulp_exp a).
  { apply Qle_shift_div_l; [done |]. change (inject_Z 0) with 0. lra. }
  apply rint_ge in Hq. rewrite Zle_Qle in Hq. change (inject_Z 0) with 0 in Hq.
  apply Qmult_le_0_compat; [done | by apply Qlt_le_weak].
Qed.

(** The same for a difference of either sign. *)
Lemma round_tolerance d : Qabs (round d) < TOLERANCE ↔ Qabs d < CUTOFF.
Proof.
  unfold round. destruct (d ?= 0) eqn:Hc.
  - apply Qeq_alt in Hc. rewrite Hc. split; intros _; reflexivity.
  - apply Qlt_alt in Hc.
    assert (Hd : 0 < - d) by lra.
    rewrite Qabs_opp, (Qabs_pos (round_pos (- d))) by (by apply round_pos_nonneg).
    rewrite (Qabs_neg d) by lra. by apply round_pos_tolerance.
  - apply Qgt_alt in Hc.
    rewrite (Qabs_pos (round_pos d)) by (by apply round_pos_nonneg).
    rewrite (Qabs_pos d) by lra. by apply round_pos_tolerance.
Qed.

End Float64Facts.

Lemma Qlt_bool_iff x y : Num.Qlt_bool x y = true ↔ (x < y)%Q.
Proof.
  unfold Num.Qlt_bool. rewrite negb_true_iff, <- not_true_iff_false, Qle_bool_iff.
  split; [apply Qnot_le_lt | apply Qlt_not_le].
Qed.

Lemma amounts_agree_iff b i :
  amounts_agree (Some b) (Some i) = true ↔ within_tolerance b i.
Proof.
  unfold amounts_agree, within_tolerance. destruct b as [x |], i as [y |];
    cbn [Num.sub Num.abs Num.lt fmap option_fmap option_map].
  - rewrite Qlt_bool_iff, round_tolerance. split; [eauto 6 |].
    by intros (x' & y' & [= <-] & [= <-] & H).
  - split; [done | by intros (? & ? & _ & ? & _)].
  - split; [done | by intros (? & ? & ? & _)].
  - split; [done | by intros (? & ? & ? & _)].
Qed.

Lemma paired_neq st bi ii t i : paired st bi ii t i ≠ st.
Proof.
  intros H. apply (f_equal (fun s => length (results s))) in H.
  simpl in H. rewrite length_app in H. simpl in H. lia.
Qed.

(** What one iteration does, in each of its cases. *)
Lemma try_match_cases bank inv by_ref st bi :
  let st' := try_match bank inv by_ref st bi in
  (∃ t ii i,
      bank !! bi = Some t ∧ by_ref !! Bank._extracted_ref t = Some ii ∧
      inv !! ii = Some i ∧ ii ∈ unmatched_inv_idx st ∧
      within_tolerance (Bank.amount t) (Inv.amount i) ∧
      st' = paired st bi ii t i)
  ∨ (st' = st ∧
     ∀ t ii i, bank !! bi = Some t → by_ref !! Bank._extracted_ref t = Some ii →
               inv !! ii = Some i →
               ¬ (ii ∈ unmatched_inv_idx st ∧
                  within_tolerance (Bank.amount t) (Inv.amount i))).
Proof.
  unfold try_match. simpl.
  destruct (bank !! bi) as [t |] eqn:Hb; [| right; split; [done | by intros]].
  destruct (by_ref !! Bank._extracted_ref t) as [ii |] eqn:Hr;
    [| right; split; [done | by intros ??? [= <-]; congruence]].
  rewrite lookup_bank_amts, lookup_inv_amts, Hb. simpl.
  destruct (decide (ii ∈ unmatched_inv_idx st)) as [Hin | Hnin].
  - destruct (inv !! ii) as [i |] eqn:Hi; simpl.
    + pose proof (amounts_agree_iff (Bank.amount t) (Inv.amount i)) as Hiff.
      unfold amounts_agree in Hiff.
      destruct (Num.lt _ _) eqn:Ha.
      * left. exists t, ii, i. split_and!; try done. by apply Hiff.
      * right. split; [done |]. intros t' ii' i' [= <-] Hr' Hi' [_ Hw].
        rewrite Hr in Hr'. injection Hr' as <-. rewrite Hi in Hi'. injection Hi' as <-.
        apply Hiff in Hw. congruence.
    + right. split; [done |]. intros t' ii' i' [= <-] Hr' Hi'.
      rewrite Hr in Hr'. injection Hr' as <-. congruence.
  - right. split; [done |]. intros t' ii' i' [= <-] Hr' Hi' [Hin _].
    rewrite Hr in Hr'. injection Hr' as <-. done.
Qed.

Lemma pass_inv_init T0 I0 bank inv :
  pass_inv T0 I0 bank inv [] (Pools T0 I0 []).
Proof.
  split; simpl; try set_solver; constructor.
Qed.

Lemma pass_inv_step T0 I0 bank inv visited st bi :
  pass_inv T0 I0 bank inv visited st → bi ∉ visited →
  pass_inv T0 I0 bank inv (visited ++ [bi])
           (try_match bank inv (inv_by_ref inv) st bi).
Proof.
  intros [Ht Hi Hv Hp Hnt Hni Hb] Hfresh.
  destruct (try_match_cases bank inv (inv_by_ref inv) st bi)
    as [(t & ii & i & Hbt & Hr & Hii & Hin & Hw & ->) | [-> _]].
  - assert (Hbi : bi ∉ m_txn <$> results st).
    { intros (m & -> & Hm)%list_elem_of_fmap. by apply Hfresh, Hv. }
    assert (Hii' : ii ∉ m_inv <$> results st).
    { rewrite Hi in Hin. set_solver. }
    split; simpl; rewrite ?fmap_app; simpl.
    + rewrite Ht, list_to_set_app_L. set_solver.
    + rewrite Hi, list_to_set_app_L. set_solver.
    + intros m [Hm | ->%list_elem_of_singleton]%elem_of_app; [set_solver |].
      simpl. set_solver.
    + intros m [Hm | ->%list_elem_of_singleton]%elem_of_app; [by apply Hp |].
      simpl. rewrite Hi in Hin. set_solver.
    + apply NoDup_app. split_and!; [done | | apply NoDup_singleton].
      intros x Hx ->%list_elem_of_singleton. done.
    + apply NoDup_app. split_and!; [done | | apply NoDup_singleton].
      intros x Hx ->%list_elem_of_singleton. done.
    + intros m [Hm | ->%list_elem_of_singleton]%elem_of_app; [by apply Hb |].
      exists t, i. simpl. split_and!; try done. by apply inv_by_ref_Some.
  - split; try done. intros m Hm. apply elem_of_app. left. by apply Hv.
Qed.

Lemma pass_inv_fold T0 I0 bank inv order : ∀ visited st,
  pass_inv T0 I0 bank inv visited st → NoDup (visited ++ order) →
  pass_inv T0 I0 bank inv (visited ++ order)
           (exact_pass bank inv order st).
Proof.
  unfold exact_pass. induction order as [| bi order IH]; intros visited st Hinv Hnd; simpl.
  - by rewrite app_nil_r.
  - replace (visited ++ bi :: order) with ((visited ++ [bi]) ++ order) in *
      by (by rewrite <- app_assoc).
    apply IH; [| done]. apply pass_inv_step; [done |].
    apply NoDup_app in Hnd as [Hnd _]. apply NoDup_app in Hnd as (_ & Hnd & _).
    intros Hin. apply (Hnd bi Hin). set_solver.
Qed.

(** The invariant holds of the final state of [run_match]. *)
Lemma run_match_inv bank inv :
  pass_inv (list_to_set (labels bank)) (list_to_set (labels inv)) bank inv
    (labels bank)
    (exact_pass bank inv (labels bank)
       (Pools (list_to_set (labels bank)) (list_to_set (labels inv)) [])).
Proof.
  apply (pass_inv_fold _ _ bank inv (labels bank) []).
  - apply pass_inv_init.
  - simpl. apply NoDup_seq.
Qed.

(** ** The unmatched frames *)

Lemma sorted_perm (s : gset nat) : sorted s ≡ₚ elements s.
Proof. apply merge_sort_Permutation. Qed.

Lemma elem_of_sorted (s : gset nat) x : x ∈ sorted s ↔ x ∈ s.
Proof. by rewrite sorted_perm, elem_of_elements. Qed.

Lemma NoDup_sorted (s : gset nat) : NoDup (sorted s).
Proof. rewrite sorted_perm. apply NoDup_elements. Qed.

Lemma loc_index {R} (df : list R) (ls : list nat) :
  (∀ i, i ∈ ls → i < length df) → (loc df ls).*1 = ls.
Proof.
  unfold loc. induction ls as [| i ls IH]; intros Hlt; simpl; [done |].
  destruct (lookup_lt_is_Some_2 df i) as [r Hr]; [apply Hlt; set_solver |].
  rewrite Hr. simpl. f_equal. apply IH. intros j Hj. apply Hlt. set_solver.
Qed.

Lemma loc_rows {R} (df : list R) (ls : list nat) i r :
  (i, r) ∈ loc df ls → df !! i = Some r ∧ i ∈ ls.
Proof.
  unfold loc. intros (j & Hj & Hr)%list_elem_of_omap.
  destruct (df !! j) as [r' |] eqn:Hd; simpl in Hr; [| done].
  injection Hr as <- <-. done.
Qed.

Lemma index_unmatched_frame {R} cols (df : list R) (s : gset nat) :
  s ⊆ list_to_set (labels df) →
  index (unmatched_frame cols df s) = sorted s.
Proof.
  intros Hsub. unfold unmatched_frame, index.
  destruct (decide (s = ∅)) as [-> | Hne]; simpl.
  - symmetry. apply Permutation_nil_r. rewrite sorted_perm.
    by rewrite elements_empty.
  - apply loc_index. intros i Hi%elem_of_sorted.
    apply Hsub in Hi. apply elem_of_list_to_set in Hi.
    unfold labels in Hi. apply elem_of_seq in Hi. lia.
Qed.

Lemma rows_unmatched_frame {R} cols (df : list R) (s : gset nat) i r :
  (i, r) ∈ rows (unmatched_frame cols df s) → df !! i = Some r ∧ i ∈ s.
Proof.
  unfold unmatched_frame. destruct (decide (s = ∅)); simpl; [set_solver |].
  intros [H1 H2]%loc_rows. by apply elem_of_sorted in H2.
Qed.

(** The labels of the matched rows and those left in the pool make up
    the whole index, each once. *)
Lemma pool_partition (l : list nat) (n : nat) :
  NoDup l → (∀ x, x ∈ l → x < n) →
  l ++ sorted (list_to_set (seq 0 n) ∖ list_to_set l) ≡ₚ seq 0 n.
Proof.
  intros Hnd Hlt. apply NoDup_Permutation.
  - apply NoDup_app. split_and!; [done | | apply NoDup_sorted].
    intros x Hx Hx'%elem_of_sorted. set_solver.
  - apply NoDup_seq.
  - intros x. rewrite elem_of_app, elem_of_sorted, elem_of_seq.
    rewrite elem_of_difference, !elem_of_list_to_set, elem_of_seq.
    split.
    + intros [Hx | [Hx _]]; [apply Hlt in Hx |]; lia.
    + intros Hx. destruct (decide (x ∈ l)); [by left | right]. split; [lia | done].
Qed.

(** Ascending order, strictly. *)
Lemma sorted_ascending (s : gset nat) : StronglySorted lt (sorted s).
Proof.
  pose proof (NoDup_sorted s) as Hnd.
  assert (Hs : StronglySorted le (sorted s)).
  { apply StronglySorted_merge_sort; apply _. }
  induction Hs as [| x l Hs IH Hall]; [constructor |].
  apply NoDup_cons in Hnd as [Hx Hnd]. constructor; [by apply IH |].
  rewrite Forall_forall in *. intros y Hy. specialize (Hall y Hy).
  assert (x ≠ y) by (intros ->; done). lia.
Qed.

Lemma match_unfold bank_df inv_df :
  match_ bank_df inv_df =
  run_match (preprocess_txn <$> bank_df) (preprocess_inv <$> inv_df).
Proof. reflexivity. Qed.

(** The partition, for the pass over preprocessed data. *)
Lemma run_match_partition bank inv :
  let o := run_match bank inv in
  (m_txn <$> matches o) ++ index (unmatched_txns o) ≡ₚ labels bank ∧
  (m_inv <$> matches o) ++ index (unmatched_invs o) ≡ₚ labels inv.
Proof.
  simpl. destruct (run_match_inv bank inv) as [Ht Hi Hv Hp Hnt Hni Hb].
  rewrite !index_unmatched_frame, Ht, Hi
    by (first [rewrite Ht | rewrite Hi]; set_solver).
  split; apply pool_partition; try done.
  - intros x (m & -> & Hm)%list_elem_of_fmap.
    destruct (Hb m Hm) as (t & _ & Hbt & _). by apply lookup_lt_Some in Hbt.
  - intros x (m & -> & Hm)%list_elem_of_fmap.
    destruct (Hb m Hm) as (_ & i & _ & Hii & _). by apply lookup_lt_Some in Hii.
Qed.

(** C1, as amended: in the exact-reference pass, a transaction whose
    (non-empty) extracted reference finds the candidate invoice [ii] in
    the lookup is paired with it if and only if [ii] is still in the
    unmatched pool, both amounts are present, and their difference,
    computed as floats, is below the float 0.05; that is the case exactly
    when the values of the two cells differ by less than the cutoff,
    0.05 - 6.9e-19.  Otherwise the iteration changes nothing.  In
    particular values that differ by 0.049 or less are paired, values
    that differ by 0.05 or more are not, and a missing amount on either
    side is never paired. *)
Theorem exact_ref_acceptance bank inv st bi t ii :
  bank !! bi = Some t →
  Bank._extracted_ref t ≠ "" →
  inv_by_ref inv !! Bank._extracted_ref t = Some ii →
  ∃ i, inv !! ii = Some i ∧
    let st' := try_match bank inv (inv_by_ref inv) st bi in
    let accepted := st' = paired st bi ii t i in
    (accepted ↔ ii ∈ unmatched_inv_idx st ∧
                ∃ x y, Bank.amount t = Some x ∧ Inv.amount i = Some y ∧
                       (Qabs (Float64.round (x - y)) < TOLERANCE)%Q) ∧
    (accepted ↔ ii ∈ unmatched_inv_idx st ∧
                within_tolerance (Bank.amount t) (Inv.amount i)) ∧
    (¬ accepted → st' = st) ∧
    (∀ x y, ii ∈ unmatched_inv_idx st →
            Bank.amount t = Some x → Inv.amount i = Some y →
            (Qabs (x - y) <= 49 # 1000)%Q → accepted) ∧
    (∀ x y, Bank.amount t = Some x → Inv.amount i = Some y →
            (5 # 100 <= Qabs (x - y))%Q → ¬ accepted) ∧
    (Bank.amount t = None ∨ Inv.amount i = None → ¬ accepted).
Proof.
  intros Hbt _ Hr.
  pose proof Hr as [(i & r & Hi & _) _]%inv_by_ref_Some.
  exists i. split; [done |]. simpl.
  assert (Hiff : try_match bank inv (inv_by_ref inv) st bi = paired st bi ii t i ↔
                 ii ∈ unmatched_inv_idx st ∧
                 within_tolerance (Bank.amount t) (Inv.amount i)).
  { destruct (try_match_cases bank inv (inv_by_ref inv) st bi)
      as [(t' & ii' & i' & Hbt' & Hr' & Hi' & Hin & Hw & ->) | [-> Hno]].
    - rewrite Hbt in Hbt'. injection Hbt' as <-.
      rewrite Hr in Hr'. injection Hr' as <-.
      rewrite Hi in Hi'. injection Hi' as <-. done.
    - split; [intros Heq; symmetry in Heq; by apply paired_neq in Heq |].
      intros Hok. by destruct (Hno t ii i). }
  assert (Hlow : (49 # 1000 < CUTOFF)%Q) by reflexivity.
  assert (Hhigh : (CUTOFF < 5 # 100)%Q) by reflexivity.
  split_and!.
  - rewrite Hiff. unfold within_tolerance.
    split; intros [Hin (x & y & Hx & Hy & Hlt)]; (split; [done |]);
      exists x, y; split_and!; try done; by apply round_tolerance.
  - done.
  - intros Hna.
    destruct (try_match_cases bank inv (inv_by_ref inv) st bi)
      as [(t' & ii' & i' & Hbt' & Hr' & Hi' & Hin & Hw & Heq) | [-> _]]; [| done].
    rewrite Hbt in Hbt'. injection Hbt' as <-.
    rewrite Hr in Hr'. injection Hr' as <-.
    rewrite Hi in Hi'. injection Hi' as <-. done.
  - intros x y Hin Hx Hy Hd. apply Hiff. split; [done |].
    exists x, y. split_and!; try done. by eapply Qle_lt_trans.
  - intros x y Hx Hy Hd [_ (x' & y' & Hx' & Hy' & Hlt)]%Hiff.
    rewrite Hx in Hx'. injection Hx' as <-. rewrite Hy in Hy'. injection Hy' as <-.
    apply (Qlt_irrefl (5 # 100)).
    eapply Qle_lt_trans; [exact Hd |]. by eapply Qlt_trans.
  - intros Hnone [_ (x' & y' & Hx' & Hy' & _)]%Hiff.
    destruct Hnone; congruence.
Qed.

Lemma exact_ref_acceptance_witness :
  ∃ i, w_inv !! 0 = Some i ∧
    let st' := try_match w_bank w_inv (inv_by_ref w_inv) w_pools 0 in
    let accepted := st' = paired w_pools 0 0 w_txn i in
    (accepted ↔ 0 ∈ unmatched_inv_idx w_pools ∧
                ∃ x y, Bank.amount w_txn = Some x ∧ Inv.amount i = Some y ∧
                       (Qabs (Float64.round (x - y)) < TOLERANCE)%Q) ∧
    (accepted ↔ 0 ∈ unmatched_inv_idx w_pools ∧
                within_tolerance (Bank.amount w_txn) (Inv.amount i)) ∧
    (¬ accepted → st' = w_pools) ∧
    (∀ x y, 0 ∈ unmatched_inv_idx w_pools →
            Bank.amount w_txn = Some x → Inv.amount i = Some y →
            (Qabs (x - y) <= 49 # 1000)%Q → accepted) ∧
    (∀ x y, Bank.amount w_txn = Some x → Inv.amount i = Some y →
            (5 # 100 <= Qabs (x - y))%Q → ¬ accepted) ∧
    (Bank.amount w_txn = None ∨ Inv.amount i = None → ¬ accepted).
Proof.
  apply (exact_ref_acceptance w_bank w_inv w_pools 0 w_txn 0).
  - reflexivity.
  - discriminate.
  - vm_compute. reflexivity.
Defined.

(** C1, as stated, fails at the boundary: two amounts written 100.05 and
    100.00 differ by exactly 0.05, yet the transaction is paired with the
    invoice.  The cell of 100.05 holds the nearest float, which is
    100.04999999999999716, so the difference that the test sees is below
    0.05. *)
Lemma boundary_pair_is_matched :
  ((10005 # 100) - (100 # 1) == 5 # 100)%Q ∧
  Bank.raw_amount <$> boundary_bank = [float (10005 # 100)] ∧
  Inv.raw_amount <$> boundary_invoices = [float (100 # 1)] ∧
  summary (match_ boundary_bank boundary_invoices) = ([(0, 0)], [], []).
Proof. split_and!; [reflexivity | reflexivity | reflexivity |]. vm_compute. reflexivity. Qed.

Lemma run_match_built bank inv m :
  m ∈ matches (run_match bank inv) → built_from bank inv m.
Proof. intros Hm. by apply (inv_built _ _ _ _ _ _ (run_match_inv bank inv)). Qed.

Lemma run_match_pools bank inv :
  unmatched_txns_idx
    (exact_pass bank inv (labels bank)
       (Pools (list_to_set (labels bank)) (list_to_set (labels inv)) []))
    ⊆ list_to_set (labels bank) ∧
  unmatched_inv_idx
    (exact_pass bank inv (labels bank)
       (Pools (list_to_set (labels bank)) (list_to_set (labels inv)) []))
    ⊆ list_to_set (labels inv).
Proof.
  destruct (run_match_inv bank inv) as [Ht Hi _ _ _ _ _].
  rewrite Ht, Hi. set_solver.
Qed.

(** C3: after [match], the labels of the matched transactions together
    with the labels of the unmatched transactions are the labels of the
    input, each exactly once, and the same holds of the invoices: no row
    is in both sets, none is in neither, and no transaction or invoice is
    used by two matches.  Every match is built from exactly the one
    transaction and the one invoice it names, and every unmatched row is
    the input row with that label. *)
Theorem match_partition bank_df inv_df :
  let o := match_ bank_df inv_df in
  let '(bank, inv) := preprocess bank_df inv_df in
  (m_txn <$> matches o) ++ index (unmatched_txns o) ≡ₚ seq 0 (length bank_df) ∧
  (m_inv <$> matches o) ++ index (unmatched_invs o) ≡ₚ seq 0 (length inv_df) ∧
  NoDup (m_txn <$> matches o) ∧ NoDup (m_inv <$> matches o) ∧
  (∀ m, m ∈ matches o →
     ∃ t i, bank !! m_txn m = Some t ∧ inv !! m_inv m = Some i ∧
            m = merged (m_txn m) (m_inv m) t i) ∧
  (∀ l r, (l, r) ∈ rows (unmatched_txns o) → bank !! l = Some r) ∧
  (∀ l r, (l, r) ∈ rows (unmatched_invs o) → inv !! l = Some r).
Proof.
  rewrite match_unfold. unfold preprocess. cbv zeta.
  set (bank := preprocess_txn <$> bank_df). set (inv := preprocess_inv <$> inv_df).
  destruct (run_match_partition bank inv) as [Hpt Hpi].
  unfold labels in Hpt, Hpi. subst bank inv. rewrite !length_fmap in *.
  split_and!; try done.
  - pose proof (NoDup_seq 0 (length bank_df)) as Hnd.
    rewrite <- Hpt in Hnd. by apply NoDup_app in Hnd as [? _].
  - pose proof (NoDup_seq 0 (length inv_df)) as Hnd.
    rewrite <- Hpi in Hnd. by apply NoDup_app in Hnd as [? _].
  - intros m Hm. destruct (run_match_built _ _ m Hm) as (t & i & ? & ? & ? & _).
    eauto.
  - intros l r Hr. by apply rows_unmatched_frame in Hr as [? _].
  - intros l r Hr. by apply rows_unmatched_frame in Hr as [? _].
Qed.

(** C8: the invoice lookup maps a key to an invoice exactly when that
    invoice is the last one, in input order, whose reference is present
    and equals the key once trimmed and uppercased; a key has no entry
    exactly when no invoice carries it, so invoices without a reference
    add nothing.  Consequently the invoice of every match is the last
    invoice with its normalized reference. *)
Theorem lookup_last_one_wins inv :
  (∀ k ii, inv_by_ref inv !! k = Some ii ↔
     (∃ i r, inv !! ii = Some i ∧ Inv.reference i = Some r ∧
             upper (strip r) = k) ∧
     (∀ j i' r', ii < j → inv !! j = Some i' → Inv.reference i' = Some r' →
                 upper (strip r') ≠ k)) ∧
  (∀ k, inv_by_ref inv !! k = None ↔
     ∀ j i r, inv !! j = Some i → Inv.reference i = Some r →
              upper (strip r) ≠ k) ∧
  (∀ bank m, m ∈ matches (run_match bank inv) →
     ∃ i r, inv !! m_inv m = Some i ∧ Inv.reference i = Some r ∧
            upper (strip r) = m_extracted_ref m ∧
            ∀ j i' r', m_inv m < j → inv !! j = Some i' →
                       Inv.reference i' = Some r' →
                       upper (strip r') ≠ upper (strip r)).
Proof.
  split_and!.
  - intros k ii. rewrite inv_by_ref_Some. unfold last_with_ref, has_ref, norm_ref.
    split; intros [Hh Hlast]; (split; [done |]).
    + intros j i' r' Hlt Hj Hr' Hk. apply (Hlast j Hlt). eauto.
    + intros j Hlt (i' & r' & Hj & Hr' & Hk). by apply (Hlast j i' r').
  - intros k. rewrite inv_by_ref_None. unfold has_ref, norm_ref. split.
    + intros Hno j i r Hj Hr Hk. apply (Hno j). eauto.
    + intros Hno j (i & r & Hj & Hr & Hk). by apply (Hno j i r).
  - intros bank m Hm.
    destruct (run_match_built _ _ m Hm)
      as (t & i & Hbt & Hi & Heq & [(i' & r & Hi' & Hr & Hk) Hlast] & _).
    rewrite Hi in Hi'. injection Hi' as <-.
    exists i, r. split_and!; try done.
    + rewrite Heq. simpl. done.
    + intros j i' r' Hlt Hj Hr' Hk'. apply (Hlast j Hlt).
      exists i', r'. split_and!; try done. unfold norm_ref in *. congruence.
Qed.

(** C9: the unmatched transactions and the unmatched invoices returned by
    [match] are in strictly ascending order of their row labels. *)
Theorem unmatched_sorted bank_df inv_df :
  let o := match_ bank_df inv_df in
  StronglySorted lt (index (unmatched_txns o)) ∧
  StronglySorted lt (index (unmatched_invs o)).
Proof.
  rewrite match_unfold. cbv zeta.
  set (bank := preprocess_txn <$> bank_df). set (inv := preprocess_inv <$> inv_df).
  destruct (run_match_pools bank inv) as [Ht Hi].
  unfold run_match. simpl.
  rewrite !index_unmatched_frame by done.
  split; apply sorted_ascending.
Qed.

(** ** Merging the findings *)

Lemma merge_findings_lookup findings strict k :
  merge_findings findings strict !! k =
  match strict !! k with
  | None => findings !! k
  | Some v =>
      match findings !! k with
      | None => Some (DataFrame v)
      | Some (DataFrame existing) =>
          if is_empty existing && negb (is_empty v) then Some (DataFrame v)
          else Some (DataFrame existing)
      | Some (PyList l) => Some (PyList l)
      end
  end.
Proof.
  unfold merge_findings. revert k.
  apply (map_fold_weak_ind (fun r (m : gmap string (frame Bank.row)) => ∀ k,
    r !! k = match m !! k with
             | None => findings !! k
             | Some v =>
                 match findings !! k with
                 | None => Some (DataFrame v)
                 | Some (DataFrame existing) =>
                     if is_empty existing && negb (is_empty v)
                     then Some (DataFrame v) else Some (DataFrame existing)
                 | Some (PyList l) => Some (PyList l)
                 end
             end)).
  - intros k. by rewrite lookup_empty.
  - intros i x m r Hi IH k. unfold merge_one.
    pose proof (IH i) as IHi. rewrite Hi in IHi. rewrite IHi.
    destruct (decide (i = k)) as [-> | Hne].
    + rewrite lookup_insert_eq.
      destruct (findings !! k) as [[e | l] |] eqn:Hf.
      * destruct (is_empty e && negb (is_empty x)); [by rewrite lookup_insert_eq |].
        by rewrite IH, Hi, Hf.
      * by rewrite IH, Hi, Hf.
      * by rewrite lookup_insert_eq.
    + rewrite (lookup_insert_ne m) by done.
      destruct (findings !! i) as [[e | l] |].
      * destruct (is_empty e && negb (is_empty x)); [rewrite lookup_insert_ne by done |];
          apply IH.
      * apply IH.
      * rewrite lookup_insert_ne by done. apply IH.
Qed.

(** The precedence rule holds for a category unless the matcher stores
    an empty list under it. *)
Lemma merge_rule_frames findings strict k :
  findings !! k ≠ Some (PyList []) →
  merge_rule empty_collection findings strict k.
Proof.
  intros Hlist. unfold merge_rule, engine_wins. rewrite merge_findings_lookup.
  destruct (strict !! k) as [v |]; [| done].
  destruct (findings !! k) as [[e | l] |] eqn:Hf.
  - destruct (is_empty e) eqn:He, (is_empty v) eqn:Hv; simpl; split; try done.
    + by intros [? | (e' & [= <-] & _ & ?)].
    + intros Hno. destruct Hno. right. by exists (DataFrame e).
    + by intros [? | (e' & [= <-] & He' & _)]; [| simpl in He'; congruence].
    + by intros [? | (e' & [= <-] & He' & _)]; [| simpl in He'; congruence].
  - split; [| done]. intros [? | (e' & [= <-] & He' & _)]; [done |].
    simpl in He'. by subst l.
  - split; [done |]. intros Hno. destruct Hno. by left.
Qed.

(** The guard of the loop asks for a data frame, so an empty list would
    be kept against a frame of the engine.  No run meets the case: the
    only list among the matcher's findings is under [partials], where the
    engine reports nothing. *)
Lemma merge_keeps_empty_list :
  ¬ merge_rule empty_collection {["partials" := PyList []]}
               {["partials" := one_row]} "partials".
Proof.
  unfold merge_rule. rewrite lookup_singleton_eq. intros [Hwin _].
  assert (Hw : engine_wins empty_collection {["partials" := PyList []]}
                           "partials" one_row).
  { right. exists (PyList []). rewrite lookup_singleton_eq.
    split; [reflexivity |]. split; reflexivity. }
  apply Hwin in Hw. rewrite merge_findings_lookup in Hw.
  rewrite !lookup_singleton_eq in Hw. discriminate Hw.
Qed.

(** ** The findings engine *)

Lemma select_map {A} (P : A → bool) (l : list A) :
  select (map P l) l = filter (fun x => P x = true) l.
Proof.
  induction l as [| x l IH]; simpl; [done |].
  destruct (P x) eqn:Hx.
  - rewrite filter_cons_True by done. by rewrite IH.
  - rewrite filter_cons_False by congruence. done.
Qed.

Lemma select_map_on {A B} (g : A → B) (P : B → bool) (l : list A) :
  select (map (fun x => P (g x)) l) l = filter (fun x => P (g x) = true) l.
Proof. apply (select_map (fun x => P (g x))). Qed.

Lemma reset_index_rows {R} (f : frame R) : (rows (reset_index f)).*2 = (rows f).*2.
Proof.
  unfold reset_index. simpl.
  rewrite fmap_imap. simpl. induction (rows f) as [| r l IH]; [done |].
  simpl. f_equal. rewrite <- IH at 1. apply imap_ext. done.
Qed.

Lemma zip_columns (f : frame Bank.row) :
  zip (map (fun r => Bank.amount r.2) (rows f)) (map (fun r => Bank.date r.2) (rows f))
  = keys_of f.
Proof. unfold keys_of. induction (rows f) as [| r l IH]; simpl; [done | by f_equal]. Qed.

Lemma column_present {R A} (f : frame R) name (cell : R → A) :
  name ∈ columns f → column f name cell = Ok (map (fun r => cell r.2) (rows f)).
Proof. intros H. unfold column. by rewrite decide_True. Qed.

Lemma has_column_true {R} (f : frame R) name :
  has_column f name = true ↔ name ∈ columns f.
Proof. unfold has_column. apply bool_decide_eq_true. Qed.

Lemma duplicated_present (f : frame Bank.row) :
  "amount" ∈ columns f → "date" ∈ columns f →
  duplicated f = Ok (map (fun r => dup_flag f r.2) (rows f)).
Proof.
  intros Ha Hd. unfold duplicated.
  rewrite (column_present f "amount") by done. simpl.
  rewrite (column_present f "date") by done. simpl.
  rewrite zip_columns. unfold keys_of at 2. rewrite map_map. done.
Qed.

(** The result of [compute_findings], by the guards of its two rules. *)
Lemma compute_findings_eq matches bu iu :
  compute_findings matches bu iu =
  Ok (let rule1 : gmap string (frame Bank.row) :=
        if negb (is_empty bu) && (has_column bu "amount" && has_column bu "date")
        then {[DUPLICATE_TXN := duplicates_of bu]}
        else {[DUPLICATE_TXN := no_frame]} in
      if negb (is_empty bu) && has_column bu "amount"
      then <[HIGH_VALUE := high_values_of bu]> rule1
      else rule1).
Proof.
  unfold compute_findings.
  destruct (is_empty bu) eqn:He; simpl; [done |].
  destruct (has_column bu "amount") eqn:Ha; simpl; [| done].
  apply has_column_true in Ha.
  destruct (has_column bu "date") eqn:Hd; simpl.
  - apply has_column_true in Hd. rewrite duplicated_present by done. simpl.
    rewrite (column_present bu "amount") by done. simpl.
    unfold high_values_of, high_flag, threshold_of, amounts_of.
    rewrite map_map. done.
  - rewrite (column_present bu "amount") by done. simpl.
    unfold high_values_of, high_flag, threshold_of, amounts_of.
    rewrite map_map. done.
Qed.

Lemma rows_duplicates_of f :
  (rows (duplicates_of f)).*2 = filter (fun r => dup_flag f r = true) (rows f).*2.
Proof.
  unfold duplicates_of. rewrite reset_index_rows. unfold where_. simpl.
  rewrite (select_map_on snd (dup_flag f)).
  induction (rows f) as [| r l IH]; [done |]. simpl.
  destruct (dup_flag f r.2) eqn:Hr.
  - rewrite !filter_cons_True by done. simpl. by f_equal.
  - rewrite !filter_cons_False by congruence. done.
Qed.

Lemma rows_high_values_of f :
  (rows (high_values_of f)).*2 = filter (fun r => high_flag f r = true) (rows f).*2.
Proof.
  unfold high_values_of. rewrite reset_index_rows. unfold where_. simpl.
  rewrite (select_map_on snd (high_flag f)).
  induction (rows f) as [| r l IH]; [done |]. simpl.
  destruct (high_flag f r.2) eqn:Hr.
  - rewrite !filter_cons_True by done. simpl. by f_equal.
  - rewrite !filter_cons_False by congruence. done.
Qed.

Lemma same_key_iff r r' :
  same_key (key_of r) (key_of r') = true ↔ same_amount_and_date r r'.
Proof.
  unfold same_key, same_amount_and_date, key_of, same_date, Num.same. simpl.
  rewrite andb_true_iff, bool_decide_eq_true.
  destruct (Bank.amount r), (Bank.amount r'); rewrite ?Qeq_bool_iff; naive_solver.
Qed.

Lemma same_amount_and_date_refl r : same_amount_and_date r r.
Proof.
  unfold same_amount_and_date. split; [| done].
  destruct (Bank.amount r); [reflexivity | done].
Qed.

Lemma filter_nonempty {A} (P : A → Prop) `{∀ x, Decision (P x)} (l : list A) :
  1 ≤ length (filter P l) ↔ ∃ j y, l !! j = Some y ∧ P y.
Proof.
  split.
  - intros Hlen. destruct (filter P l) as [| y l'] eqn:Hf; [simpl in Hlen; lia |].
    assert (Hy : y ∈ filter P l) by (rewrite Hf; set_solver).
    apply list_elem_of_filter in Hy as [HP Hy].
    apply list_elem_of_lookup in Hy as [j Hj]. eauto.
  - intros (j & y & Hj & HP).
    assert (Hy : y ∈ filter P l).
    { apply list_elem_of_filter. split; [done |]. apply list_elem_of_lookup. eauto. }
    destruct (filter P l); [set_solver | simpl; lia].
Qed.

(** An element that satisfies [P] sits at position [i]: [P] holds of two
    or more elements exactly when it holds at some other position. *)
Lemma filter_twice {A} (P : A → Prop) `{∀ x, Decision (P x)} (l : list A) :
  ∀ i x, l !! i = Some x → P x →
  (2 ≤ length (filter P l) ↔ ∃ j y, j ≠ i ∧ l !! j = Some y ∧ P y).
Proof.
  induction l as [| a l IH]; intros i x Hi HP; [by rewrite lookup_nil in Hi |].
  destruct i as [| i]; simpl in Hi.
  - injection Hi as ->. rewrite filter_cons_True by done. simpl.
    rewrite <- Nat.succ_le_mono, filter_nonempty. split.
    + intros (j & y & Hj & Hy). exists (S j), y. done.
    + intros (j & y & Hne & Hj & Hy). destruct j as [| j]; [done |]. eauto.
  - destruct (decide (P a)) as [Ha | Hna].
    + rewrite filter_cons_True by done. simpl. split.
      * intros _. exists 0, a. done.
      * intros _. rewrite <- Nat.succ_le_mono. apply filter_nonempty. eauto.
    + rewrite filter_cons_False by done. rewrite (IH i x) by done. split.
      * intros (j & y & Hne & Hj & Hy). exists (S j), y. split_and!; [lia | done..].
      * intros (j & y & Hne & Hj & Hy). destruct j as [| j]; simpl in Hj.
        -- by injection Hj as <-.
        -- exists j, y. split_and!; [lia | done..].
Qed.

(** A row is flagged by rule 1 exactly when another row has its amount
    and date. *)
Lemma dup_flag_iff f i r :
  rows f !! i = Some r →
  (dup_flag f r.2 = true ↔
   ∃ j r', j ≠ i ∧ rows f !! j = Some r' ∧ same_amount_and_date r.2 r'.2).
Proof.
  intros Hi. unfold dup_flag, occurrences. rewrite Nat.leb_le.
  rewrite (filter_twice _ (keys_of f) i (key_of r.2)).
  - unfold keys_of. split.
    + intros (j & k & Hne & Hj & Hk). rewrite list_lookup_fmap in Hj.
      destruct (rows f !! j) as [r' |] eqn:Hr'; simpl in Hj; [| done].
      injection Hj as <-. exists j, r'. by rewrite <- same_key_iff.
    + intros (j & r' & Hne & Hj & Hk). exists j, (key_of r'.2).
      rewrite list_lookup_fmap, Hj. by rewrite same_key_iff.
  - unfold keys_of. by rewrite list_lookup_fmap, Hi.
  - apply same_key_iff, same_amount_and_date_refl.
Qed.

Lemma ge_iff a t : Num.ge a t = true ↔ at_or_above a t.
Proof.
  unfold Num.ge, at_or_above. destruct a as [x |], t as [y |].
  - rewrite Qle_bool_iff. naive_solver.
  - naive_solver.
  - naive_solver.
  - naive_solver.
Qed.

Lemma quantile_all_null q (col : list Num.num) :
  (∀ a, a ∈ col → a = None) → quantile q col = None.
Proof.
  intros Hnull. unfold quantile.
  assert (omap id col = []) as ->; [| done].
  induction col as [| a col IH]; [done |]. simpl.
  rewrite (Hnull a) by set_solver. simpl. apply IH. intros b Hb. apply Hnull. set_solver.
Qed.

(** C5: on unmatched transactions that are not empty and have the
    [amount] and [date] columns, [duplicate_txn] holds, in their order,
    exactly the rows whose amount and date are those of another row:
    every occurrence of a repeated pair is kept, the first included, and
    no row with a pair of its own is. *)
Theorem duplicate_txn_exact matches bu iu :
  is_empty bu = false → "amount" ∈ columns bu → "date" ∈ columns bu →
  ∃ f d, compute_findings matches bu iu = Ok f ∧
         f !! "duplicate_txn" = Some d ∧
         ∃ flagged : Bank.row → bool,
           (rows d).*2 = filter (fun r => flagged r = true) (rows bu).*2 ∧
           ∀ i r, rows bu !! i = Some r →
                  (flagged r.2 = true ↔
                   ∃ j r', j ≠ i ∧ rows bu !! j = Some r' ∧
                           same_amount_and_date r.2 r'.2).
Proof.
  intros He Ha Hd. rewrite compute_findings_eq.
  apply has_column_true in Ha, Hd. rewrite He, Ha, Hd. simpl.
  eexists _, (duplicates_of bu). split; [done |]. split.
  - rewrite lookup_insert_ne by done. apply lookup_singleton_eq.
  - exists (dup_flag bu). split; [apply rows_duplicates_of |].
    intros i r Hi. by apply dup_flag_iff.
Qed.

Lemma duplicate_txn_exact_witness :
  ∃ f d, compute_findings [] w_dups no_frame = Ok f ∧
         f !! "duplicate_txn" = Some d ∧
         ∃ flagged : Bank.row → bool,
           (rows d).*2 = filter (fun r => flagged r = true) (rows w_dups).*2 ∧
           ∀ i r, rows w_dups !! i = Some r →
                  (flagged r.2 = true ↔
                   ∃ j r', j ≠ i ∧ rows w_dups !! j = Some r' ∧
                           same_amount_and_date r.2 r'.2).
Proof.
  apply (duplicate_txn_exact [] w_dups no_frame).
  - reflexivity.
  - vm_compute. repeat constructor.
  - vm_compute. repeat constructor.
Defined.

(** ** The quantile lies among the values *)

Lemma insert_sorted_elem x l y : y ∈ insert_sorted x l ↔ y = x ∨ y ∈ l.
Proof.
  induction l as [| z l IH]; simpl; [set_solver |].
  destruct (Qle_bool x z); [set_solver |].
  rewrite elem_of_cons, IH. set_solver.
Qed.

Lemma sort_values_elem l y : y ∈ sort_values l ↔ y ∈ l.
Proof.
  induction l as [| z l IH]; simpl; [done |].
  rewrite insert_sorted_elem, IH. set_solver.
Qed.

Lemma insert_sorted_sorted x l :
  StronglySorted Qle l → StronglySorted Qle (insert_sorted x l).
Proof.
  induction 1 as [| z l Hs IH Hall]; simpl; [repeat constructor |].
  destruct (Qle_bool x z) eqn:Hxz.
  - apply Qle_bool_iff in Hxz. constructor; [by constructor |].
    constructor; [done |]. eapply Forall_impl; [exact Hall |].
    intros w Hw. simpl in Hw. by apply (Qle_trans _ z).
  - constructor; [done |]. apply Forall_forall. intros w Hw.
    apply insert_sorted_elem in Hw as [-> | Hw].
    + apply Qlt_le_weak, Qnot_le_lt. intros Hle. apply Qle_bool_iff in Hle. congruence.
    + rewrite Forall_forall in Hall. by apply Hall.
Qed.

Lemma sort_values_sorted l : StronglySorted Qle (sort_values l).
Proof.
  induction l as [| z l IH]; simpl; [constructor | by apply insert_sorted_sorted].
Qed.

Lemma sorted_lookup_le (l : list Q) : StronglySorted Qle l →
  ∀ i j x y, i ≤ j → l !! i = Some x → l !! j = Some y → (x <= y)%Q.
Proof.
  induction 1 as [| z l Hs IH Hall]; intros i j x y Hij Hi Hj; [done |].
  destruct i as [| i], j as [| j]; simpl in *.
  - injection Hi as <-. injection Hj as <-. apply Qle_refl.
  - injection Hi as <-. rewrite Forall_forall in Hall. apply Hall.
    apply list_elem_of_lookup. eauto.
  - lia.
  - apply (IH i j); [lia | done..].
Qed.

(** Between two values of which the first is the smaller, a linear
    interpolation stays between them. *)
Lemma interpolation_bounds (a b frac : Q) :
  (a <= b)%Q → (0 <= frac)%Q → (frac <= 1)%Q →
  (a <= a + (b - a) * frac)%Q ∧ (a + (b - a) * frac <= b)%Q.
Proof. intros Hab H0 H1. split; nra. Qed.

Lemma quantile_bounds q (col : list Num.num) :
  (0 <= q)%Q → (q <= 1)%Q → omap id col ≠ [] →
  ∃ t a b, quantile q col = Some t ∧
           Some a ∈ col ∧ Some b ∈ col ∧ (a <= t)%Q ∧ (t <= b)%Q.
Proof.
  intros Hq0 Hq1 Hne. unfold quantile.
  assert (∃ x, x ∈ omap id col) as [x0 Hx0].
  { destruct (omap id col) as [| x l]; [done | exists x; set_solver]. }
  set (v := sort_values (omap id col)).
  assert (Hin : ∀ x, x ∈ v → Some x ∈ col).
  { intros x Hx. unfold v in Hx. apply (proj1 (sort_values_elem _ _)) in Hx.
    apply list_elem_of_omap in Hx as (o & Ho & Hx). simpl in Hx. by subst o. }
  assert (Hv : v ≠ []).
  { intros Hv. assert (Hx : x0 ∈ v) by (by apply sort_values_elem).
    rewrite Hv in Hx. set_solver. }
  destruct v as [| v0 v'] eqn:Hveq; [done |]. rewrite <- Hveq in *.
  set (n1 := length v - 1).
  set (pos := (q * inject_Z (Z.of_nat n1))%Q).
  assert (Hn1 : (0 <= inject_Z (Z.of_nat n1))%Q).
  { change 0%Q with (inject_Z 0). rewrite <- Zle_Qle. lia. }
  assert (Hpos0 : (0 <= pos)%Q) by (by apply Qmult_le_0_compat).
  assert (Hpos1 : (pos <= inject_Z (Z.of_nat n1))%Q).
  { unfold pos. rewrite <- (Qmult_1_l (inject_Z (Z.of_nat n1))) at 2.
    by apply Qmult_le_compat_r. }
  assert (Hfl0 : (0 <= Qfloor pos)%Z).
  { exact (Qfloor_resp_le 0 pos Hpos0). }
  assert (Hfl1 : (Qfloor pos <= Z.of_nat n1)%Z).
  { rewrite <- (Qfloor_Z (Z.of_nat n1)). by apply Qfloor_resp_le. }
  set (lo := Z.to_nat (Qfloor pos)).
  set (hi := Nat.min (S lo) n1).
  assert (Hlen : 0 < length v) by (rewrite Hveq; simpl; lia).
  assert (Hlo : lo ≤ hi ∧ hi < length v) by (unfold hi, lo, n1; lia).
  destruct (lookup_lt_is_Some_2 v lo) as [a Ha]; [lia |].
  destruct (lookup_lt_is_Some_2 v hi) as [b Hb]; [lia |].
  assert (Hab : (a <= b)%Q).
  { apply (sorted_lookup_le v (sort_values_sorted _) lo hi); [lia | done..]. }
  assert (Hfrac : (0 <= pos - inject_Z (Qfloor pos))%Q ∧
                  (pos - inject_Z (Qfloor pos) <= 1)%Q).
  { pose proof (Qfloor_le pos). pose proof (Qlt_floor pos) as Hlt.
    rewrite inject_Z_plus in Hlt. change (inject_Z 1) with 1%Q in Hlt.
    split; lra. }
  destruct (interpolation_bounds a b _ Hab (proj1 Hfrac) (proj2 Hfrac)) as [Hl Hu].
  exists (a + (b - a) * (pos - inject_Z (Qfloor pos)))%Q, a, b.
  split_and!.
  - f_equal. fold n1 pos lo hi. 
    rewrite (nth_lookup_Some v lo 0%Q a Ha), (nth_lookup_Some v hi 0%Q b Hb). done.
  - apply Hin, list_elem_of_lookup. eauto.
  - apply Hin, list_elem_of_lookup. eauto.
  - done.
  - done.
Qed.

(** Whenever an amount is present, the rows with the largest amount are
    at or above the threshold of rule 2. *)
Lemma largest_amount_flagged bu r x :
  r ∈ (rows bu).*2 → Bank.amount r = Some x →
  (∀ r' y, r' ∈ (rows bu).*2 → Bank.amount r' = Some y → (y <= x)%Q) →
  high_flag bu r = true.
Proof.
  intros Hr Hx Hmax.
  assert (Hcol : ∀ y, Some y ∈ amounts_of bu →
                      ∃ r', r' ∈ (rows bu).*2 ∧ Bank.amount r' = Some y).
  { intros y (r0 & Hy & Hr0)%list_elem_of_fmap. exists r0.2.
    split; [| done]. apply list_elem_of_fmap. eauto. }
  assert (Hin : Some x ∈ amounts_of bu).
  { apply list_elem_of_fmap in Hr as (r0 & -> & Hr0).
    apply list_elem_of_fmap. exists r0. done. }
  destruct (quantile_bounds (90 # 100) (amounts_of bu)) as (t & a & b & Ht & _ & Hb & _ & Htb).
  - done.
  - done.
  - intros Hnil. assert (Hx' : x ∈ omap id (amounts_of bu)).
    { apply list_elem_of_omap. exists (Some x). done. }
    rewrite Hnil in Hx'. set_solver.
  - destruct (Hcol b Hb) as (r' & Hr' & Hb').
    unfold high_flag, threshold_of. rewrite Hx, Ht. simpl.
    apply Qle_bool_iff. apply (Qle_trans _ b); [done |]. by apply (Hmax r').
Qed.

Lemma high_flag_iff f r :
  high_flag f r = true ↔ at_or_above (Bank.amount r) (threshold_of f).
Proof. apply ge_iff. Qed.

Lemma high_flag_null f r : Bank.amount r = None → high_flag f r = false.
Proof. intros H. unfold high_flag. by rewrite H. Qed.

Lemma filter_none {A} (P : A → Prop) `{∀ x, Decision (P x)} (l : list A) :
  (∀ x, x ∈ l → ¬ P x) → filter P l = [].
Proof.
  intros Hno. induction l as [| x l IH]; [done |].
  rewrite filter_cons_False by (apply Hno; set_solver).
  apply IH. intros y Hy. apply Hno. set_solver.
Qed.

Lemma fmap_snd_nil {A B} (l : list (A * B)) : l.*2 = [] → l = [].
Proof. by destruct l. Qed.

(** The engine reports nothing outside its two categories. *)
Lemma compute_findings_keys matches bu iu f k :
  compute_findings matches bu iu = Ok f →
  k ≠ "duplicate_txn" → k ≠ "high_value_unmatched" → f !! k = None.
Proof.
  rewrite compute_findings_eq. intros [= <-] H1 H2. simpl.
  destruct (negb (is_empty bu) && has_column bu "amount");
    [rewrite lookup_insert_ne by done |];
    destruct (negb (is_empty bu) && (has_column bu "amount" && has_column bu "date"));
    by rewrite lookup_singleton_ne.
Qed.

(** With no unmatched transaction the result is the empty
    [duplicate_txn] frame of rule 1 and nothing else. *)
Lemma compute_findings_empty matches bu iu :
  is_empty bu = true →
  compute_findings matches bu iu = Ok {[DUPLICATE_TXN := no_frame]}.
Proof. intros He. rewrite compute_findings_eq, He. reflexivity. Qed.

(** C6: [high_value_unmatched] is missing, not empty, when no transaction
    is unmatched.  Rule 2 has no [else] branch: with an empty frame of
    unmatched transactions the result holds no [high_value_unmatched] at
    all, whereas rule 1 stores an empty [duplicate_txn] frame; so it is
    after a run in which every transaction is matched.  Otherwise the
    claim holds: no call raises; when rule 2 runs (the unmatched
    transactions are not empty and have an [amount] column) the category
    holds, in their order, exactly the rows whose amount is present and
    at or above the 0.9 quantile of the unmatched amounts; when every
    amount is missing the frame stored has no row.  The threshold, when
    there is one, lies between two of the amounts.  On the amounts 10,
    20, ..., 100 the threshold is 91 and the row of 100 is the one
    flagged. *)
Theorem high_value_exact matches bu iu :
  ∃ f, compute_findings matches bu iu = Ok f ∧
    (is_empty bu = true →
       f !! "high_value_unmatched" = None ∧
       f !! "duplicate_txn" = Some no_frame) ∧
    (rows (unmatched_txns (match_ boundary_bank boundary_invoices)) = [] ∧
     findings (reconcile boundary_bank boundary_invoices) !! "high_value_unmatched"
     = None) ∧
    (is_empty bu = false → "amount" ∈ columns bu →
       ∃ d, f !! "high_value_unmatched" = Some d ∧
            (rows d).*2
            = filter (fun r => high_flag bu r = true) (rows bu).*2 ∧
            ∀ r, high_flag bu r = true ↔
                 at_or_above (Bank.amount r)
                             (quantile (90 # 100) (amounts_of bu))) ∧
    ((∀ r, r ∈ rows bu → Bank.amount r.2 = None) →
       ∀ d, f !! "high_value_unmatched" = Some d → rows d = []) ∧
    (∀ t, quantile (90 # 100) (amounts_of bu) = Some t →
          ∃ a b, Some a ∈ amounts_of bu ∧ Some b ∈ amounts_of bu ∧
                 (a <= t)%Q ∧ (t <= b)%Q) ∧
    (∃ t, threshold_of w_ten = Some t ∧ (t == 91)%Q ∧
          (Bank.amount <$> filter (fun r => high_flag w_ten r = true) (rows w_ten).*2)
          = [Some (inject_Z 100)]).
Proof.
  rewrite compute_findings_eq. eexists. split; [done |]. split_and!.
  - intros He. rewrite He. simpl.
    split; [by rewrite lookup_singleton_ne | by rewrite lookup_singleton_eq].
  - vm_compute. reflexivity.
  - vm_compute. reflexivity.
  - intros He Ha. apply has_column_true in Ha. rewrite He, Ha. simpl.
    exists (high_values_of bu). split; [apply lookup_insert_eq |].
    split; [apply rows_high_values_of |]. intros r. apply high_flag_iff.
  - intros Hnull d.
    destruct (negb (is_empty bu) && has_column bu "amount").
    + rewrite lookup_insert_eq. intros [= <-]. apply fmap_snd_nil.
      rewrite rows_high_values_of. apply filter_none.
      intros r (r0 & -> & Hr)%list_elem_of_fmap.
      rewrite high_flag_null; [done | by apply Hnull].
    + destruct (negb (is_empty bu) && (has_column bu "amount" && has_column bu "date"));
        by rewrite lookup_singleton_ne.
  - intros t Ht.
    destruct (quantile_bounds (90 # 100) (amounts_of bu))
      as (t' & a & b & Ht' & Ha & Hb & Hat & Htb); [done | done | |].
    + intros Hnil. unfold quantile in Ht. by rewrite Hnil in Ht.
    + rewrite Ht in Ht'. injection Ht' as <-. eauto 6.
  - eexists. split; [vm_compute; reflexivity |]. split; vm_compute; reflexivity.
Qed.

(** C7, as amended: [compute_findings] returns a result on every input.
    When the unmatched transactions are empty every frame it returns is
    empty.  It always stores [duplicate_txn], and stores nothing under a
    category other than [duplicate_txn] and [high_value_unmatched]: a
    category it does not compute, such as [partials], is absent from its
    result.  The empty [partials] of a run is the list of the matcher,
    which the merge keeps. *)
Theorem compute_findings_total matches bu iu :
  ∃ f, compute_findings matches bu iu = Ok f ∧
    (is_empty bu = true → ∀ k d, f !! k = Some d → is_empty d = true) ∧
    is_Some (f !! "duplicate_txn") ∧
    (∀ k, k ≠ "duplicate_txn" → k ≠ "high_value_unmatched" → f !! k = None) ∧
    f !! "partials" = None ∧
    merge_findings MATCHER_FINDINGS f !! "partials" = Some (PyList []).
Proof.
  destruct (compute_findings matches bu iu) as [f | e] eqn:Hf;
    [| by rewrite compute_findings_eq in Hf].
  exists f. split; [done |].
  pose proof (compute_findings_keys matches bu iu f) as Hkeys.
  split_and!.
  - intros He k d. rewrite compute_findings_empty in Hf by done.
    injection Hf as <-. intros [_ <-]%lookup_singleton_Some. done.
  - rewrite compute_findings_eq in Hf. injection Hf as <-. simpl.
    destruct (negb (is_empty bu) && has_column bu "amount");
      [rewrite lookup_insert_ne by done |];
      destruct (negb (is_empty bu) && (has_column bu "amount" && has_column bu "date"));
      by rewrite lookup_singleton_eq.
  - intros k. by apply Hkeys.
  - by apply Hkeys.
  - rewrite merge_findings_lookup, Hkeys by done. reflexivity.
Qed.

(** C7, as stated, fails: on empty input the result has the computed
    category [duplicate_txn], with no row, and no entry at all for
    [partials], so reading [partials] from it gives no empty value. *)
Lemma partials_not_defaulted :
  stored (compute_findings [] no_frame no_frame) "duplicate_txn" = Some [] ∧
  stored (compute_findings [] no_frame no_frame) "partials" = None.
Proof. split; vm_compute; reflexivity. Qed.

(** C4: in a run the merge follows the precedence rule.  The matcher's
    findings are those of [match] and the engine's those of
    [compute_findings]: for each category the engine's result replaces
    the matcher's when the category is absent from the matcher's
    findings, or is empty there while the engine's result is not; in
    every other case the matcher's value is kept.  The same holds for any
    findings of the matcher that store no empty list under the category.
    In particular an empty [duplicate_txn] gives way to two rows from the
    engine, and a [duplicate_txn] frame with one row is kept whatever the
    engine reports. *)
Theorem merge_precedence matches bu iu strict k :
  compute_findings matches bu iu = Ok strict →
  merge_rule empty_collection MATCHER_FINDINGS strict k ∧
  (∀ findings, findings !! k ≠ Some (PyList []) →
               merge_rule empty_collection findings strict k) ∧
  (∀ v, strict !! "duplicate_txn" = Some v → length (rows v) = 2 →
        columns v ≠ [] →
        merge_findings MATCHER_FINDINGS strict !! "duplicate_txn"
        = Some (DataFrame v)) ∧
  (∀ findings e, findings !! "duplicate_txn" = Some (DataFrame e) →
        length (rows e) = 1 → columns e ≠ [] →
        merge_findings findings strict !! "duplicate_txn" = Some (DataFrame e)).
Proof.
  intros Hstrict. split_and!.
  - destruct (decide (k = "partials")) as [-> | Hk].
    + unfold merge_rule.
      rewrite (compute_findings_keys matches bu iu strict "partials") by done.
      rewrite merge_findings_lookup.
      by rewrite (compute_findings_keys matches bu iu strict "partials") by done.
    + apply merge_rule_frames. unfold MATCHER_FINDINGS.
      destruct (decide (k = "duplicate_txn")) as [-> | Hd].
      * vm_compute. discriminate.
      * rewrite !lookup_insert_ne by done. by rewrite lookup_empty.
  - intros findings. apply merge_rule_frames.
  - intros v Hv Hlen Hcols. rewrite merge_findings_lookup, Hv.
    assert (is_empty v = false) as ->.
    { unfold is_empty. rewrite Hlen. destruct (columns v); done. }
    reflexivity.
  - intros findings e He Hlen Hcols. rewrite merge_findings_lookup, He.
    assert (is_empty e = false) as ->.
    { unfold is_empty. rewrite Hlen. destruct (columns e); done. }
    by destruct (strict !! "duplicate_txn").
Qed.

Lemma merge_precedence_witness :
  merge_rule empty_collection MATCHER_FINDINGS
    (<[HIGH_VALUE := high_values_of w_dups]> {[DUPLICATE_TXN := duplicates_of w_dups]})
    "duplicate_txn" ∧
  merge_findings MATCHER_FINDINGS
    (<[HIGH_VALUE := high_values_of w_dups]> {[DUPLICATE_TXN := duplicates_of w_dups]})
    !! "duplicate_txn"
  = Some (DataFrame (duplicates_of w_dups)).
Proof.
  destruct (merge_precedence [] w_dups no_frame
              (<[HIGH_VALUE := high_values_of w_dups]>
                 {[DUPLICATE_TXN := duplicates_of w_dups]}) "duplicate_txn")
    as (Hrule & _ & Htwo & _).
  - vm_compute. reflexivity.
  - split; [exact Hrule |]. apply Htwo.
    + vm_compute. reflexivity.
    + vm_compute. reflexivity.
    + discriminate.
Defined.

Lemma preprocess_keeps_amount r :
  Bank.amount (preprocess_txn r) = Bank.raw_amount r.
Proof. reflexivity. Qed.

(** C10: two unmatched transactions whose amounts are both missing and
    whose dates are equal are both flagged by rule 1, and both are rows
    of [duplicate_txn]; no row of [high_value_unmatched] has a missing
    amount.  ([preprocess] keeps a missing amount missing.) *)
Theorem null_amounts_in_findings matches bu iu i j ri rj :
  is_empty bu = false → "amount" ∈ columns bu → "date" ∈ columns bu →
  i ≠ j → rows bu !! i = Some ri → rows bu !! j = Some rj →
  Bank.amount ri.2 = None → Bank.amount rj.2 = None →
  Bank.date ri.2 = Bank.date rj.2 →
  ∃ f d h, compute_findings matches bu iu = Ok f ∧
    f !! "duplicate_txn" = Some d ∧
    f !! "high_value_unmatched" = Some h ∧
    (rows d).*2 = filter (fun r => dup_flag bu r = true) (rows bu).*2 ∧
    dup_flag bu ri.2 = true ∧ dup_flag bu rj.2 = true ∧
    ri.2 ∈ (rows d).*2 ∧ rj.2 ∈ (rows d).*2 ∧
    (∀ r, r ∈ (rows h).*2 → Bank.amount r ≠ None) ∧
    (∀ raw, Bank.raw_amount raw = None →
            Bank.amount (preprocess_txn raw) = None).
Proof.
  intros He Ha Hd Hne Hi Hj Hai Haj Hdate. rewrite compute_findings_eq.
  apply has_column_true in Ha, Hd. rewrite He, Ha, Hd. simpl.
  assert (Hfi : dup_flag bu ri.2 = true).
  { apply (dup_flag_iff bu i ri Hi). exists j, rj. split_and!; try done.
    unfold same_amount_and_date. by rewrite Hai, Haj. }
  assert (Hfj : dup_flag bu rj.2 = true).
  { apply (dup_flag_iff bu j rj Hj). exists i, ri. split_and!; try done.
    unfold same_amount_and_date. by rewrite Hai, Haj. }
  eexists _, (duplicates_of bu), (high_values_of bu). split; [done |].
  split_and!.
  - rewrite lookup_insert_ne by done. apply lookup_singleton_eq.
  - apply lookup_insert_eq.
  - apply rows_duplicates_of.
  - done.
  - done.
  - rewrite rows_duplicates_of. apply list_elem_of_filter. split; [done |].
    apply list_elem_of_fmap. exists ri. split; [done |].
    apply list_elem_of_lookup. eauto.
  - rewrite rows_duplicates_of. apply list_elem_of_filter. split; [done |].
    apply list_elem_of_fmap. exists rj. split; [done |].
    apply list_elem_of_lookup. eauto.
  - intros r. rewrite rows_high_values_of.
    intros [Hflag _]%list_elem_of_filter Hnull.
    rewrite high_flag_null in Hflag by done. done.
  - intros raw Hraw. exact Hraw.
Qed.

Lemma null_amounts_in_findings_witness :
  ∃ f d h, compute_findings [] w_nulls no_frame = Ok f ∧
    f !! "duplicate_txn" = Some d ∧
    f !! "high_value_unmatched" = Some h ∧
    (rows d).*2 = filter (fun r => dup_flag w_nulls r = true) (rows w_nulls).*2 ∧
    dup_flag w_nulls (Bank.Row None (Some 738000%Z) None None None "") = true ∧
    dup_flag w_nulls (Bank.Row None (Some 738000%Z) None None None "") = true ∧
    Bank.Row None (Some 738000%Z) None None None "" ∈ (rows d).*2 ∧
    Bank.Row None (Some 738000%Z) None None None "" ∈ (rows d).*2 ∧
    (∀ r, r ∈ (rows h).*2 → Bank.amount r ≠ None) ∧
    (∀ raw, Bank.raw_amount raw = None →
            Bank.amount (preprocess_txn raw) = None).
Proof.
  apply (null_amounts_in_findings [] w_nulls no_frame 0 1
           (0, Bank.Row None (Some 738000%Z) None None None "")
           (1, Bank.Row None (Some 738000%Z) None None None "")).
  - reflexivity.
  - vm_compute. repeat constructor.
  - vm_compute. repeat constructor.
  - lia.
  - reflexivity.
  - reflexivity.
  - reflexivity.
  - reflexivity.
  - reflexivity.
Defined.

(** ** The regular-expression matcher *)

Lemma greedy_first lo rest k n :
  lo ≤ k → rest k = Some n → greedy lo rest k = Some (k + n).
Proof.
  intros Hlo Hr. destruct k; simpl.
  - assert (lo = 0) as -> by lia. simpl. by rewrite Hr.
  - destruct (S k <? lo) eqn:Hlt; [apply Nat.ltb_lt in Hlt; lia |].
    by rewrite Hr.
Qed.

Lemma greedy_Some lo rest k0 m :
  greedy lo rest k0 = Some m →
  ∃ k n, lo ≤ k ∧ k ≤ k0 ∧ rest k = Some n ∧ m = k + n.
Proof.
  induction k0 as [| k0 IH]; simpl.
  - destruct (0 <? lo) eqn:Hlt; [done |]. apply Nat.ltb_ge in Hlt.
    destruct (rest 0) as [n |] eqn:Hr; [| done].
    intros [= <-]. exists 0, n. done.
  - destruct (S k0 <? lo) eqn:Hlt; [done |]. apply Nat.ltb_ge in Hlt.
    destruct (rest (S k0)) as [n |] eqn:Hr.
    + intros [= <-]. exists (S k0), n. done.
    + intros (k & n & ? & ? & ? & ?)%IH. exists k, n. split_and!; [done | lia | done..].
Qed.

Lemma run_le cls s : run cls s ≤ length s.
Proof. induction s as [| c s IH]; simpl; [lia |]. destruct (cls c); simpl; lia. Qed.

Lemma run_take cls s k : k ≤ run cls s → all_of cls (take k s).
Proof.
  revert k. induction s as [| c s IH]; intros k Hk; simpl in *.
  - rewrite take_nil. constructor.
  - destruct k; [constructor |]. destruct (cls c) eqn:Hc; [| lia].
    simpl. constructor; [done |]. apply IH. lia.
Qed.

Lemma run_app cls u v :
  all_of cls u → not_in cls (head v) → run cls (u ++ v) = length u.
Proof.
  intros Hu Hv. induction Hu as [| c u Hc Hu IH]; simpl.
  - destruct v as [| c v]; simpl in *; [done | by rewrite Hv].
  - by rewrite Hc, IH.
Qed.

Lemma upper_is_word c : is_upper c = true → is_word c = true.
Proof. intros H. unfold is_word. by rewrite H. Qed.

Lemma digit_is_word c : is_digit c = true → is_word c = true.
Proof. intros H. unfold is_word. rewrite H. by rewrite orb_true_r. Qed.

Lemma nonword_not_digit o : word_opt o = false → not_in is_digit o.
Proof.
  destruct o as [c |]; simpl; [| done]. intros Hw.
  destruct (is_digit c) eqn:Hd; [| done]. by rewrite digit_is_word in Hw.
Qed.

Lemma digit_not_upper c : is_digit c = true → is_upper c = false.
Proof.
  unfold is_digit, is_upper. rewrite !andb_true_iff, !Nat.leb_le.
  intros [? ?]. apply andb_false_iff. left. apply Nat.leb_gt. lia.
Qed.

Lemma dash_classes : is_upper "-" = false ∧ is_digit "-" = false ∧ is_word "-" = false.
Proof. by vm_compute. Qed.

Lemma prev_after_app prev (u v : list ascii) :
  prev_after prev (u ++ v) (length u) = match last u with Some c => Some c | None => prev end.
Proof.
  destruct u as [| c u] using rev_ind; [done |].
  rewrite length_app. simpl. rewrite Nat.add_1_r. simpl.
  rewrite last_snoc. rewrite <- app_assoc. simpl.
  by rewrite list_lookup_middle.
Qed.

Lemma prev_after_take prev (s : list ascii) k :
  0 < k → k ≤ length s → prev_after prev s k = last (take k s).
Proof.
  intros Hk Hlen. destruct k; [lia |]. simpl.
  rewrite last_lookup. rewrite length_take, Nat.min_l by lia. simpl.
  by rewrite lookup_take_lt by lia.
Qed.

Lemma all_of_last cls l c : all_of cls l → last l = Some c → cls c = true.
Proof.
  intros Hl Hc. unfold all_of in Hl. rewrite Forall_forall in Hl. apply Hl.
  rewrite last_lookup in Hc. apply list_elem_of_lookup. eauto.
Qed.

Lemma all_of_head cls l c : all_of cls l → head l = Some c → cls c = true.
Proof. intros Hl Hc. destruct l; [done |]. injection Hc as ->. by inversion Hl. Qed.

Lemma last_nonempty {A} (l : list A) : 0 < length l → ∃ c, last l = Some c.
Proof.
  destruct l as [| x l] using rev_ind; simpl; [lia |]. rewrite last_snoc. eauto.
Qed.

Lemma head_nonempty {A} (l : list A) : 0 < length l → ∃ c, head l = Some c.
Proof. destruct l; simpl; [lia | eauto]. Qed.

Lemma boundary_after_word c s :
  is_word c = true → (at_boundary (Some c) s = true ↔ word_opt (head s) = false).
Proof.
  intros Hc. unfold at_boundary. simpl. rewrite Hc.
  destruct (word_opt (head s)); simpl; naive_solver.
Qed.

Lemma boundary_before_word prev s c :
  head s = Some c → is_word c = true →
  (at_boundary prev s = true ↔ word_opt prev = false).
Proof.
  intros Hs Hc. unfold at_boundary. rewrite Hs. simpl. rewrite Hc.
  destruct (word_opt prev); simpl; naive_solver.
Qed.

Lemma head_take {A} (s : list A) k : 0 < k → head (take k s) = head s.
Proof. destruct k, s; simpl; try done; lia. Qed.

Lemma length_take_run cls s k : k ≤ run cls s → length (take k s) = k.
Proof. intros Hk. pose proof (run_le cls s). rewrite length_take. lia. Qed.

(** The tail of both patterns: digits up to a word boundary. *)
Lemma match_digits lo prev s n :
  0 < lo →
  match_here [Rep is_digit lo; WordB] prev s = Some n ↔
  ∃ ds post, s = ds ++ post ∧ n = length ds ∧ lo ≤ length ds ∧
             all_of is_digit ds ∧ word_opt (head post) = false.
Proof.
  intros Hlo. simpl. split.
  - intros (m & n' & Hm & Hrun & Hrest & ->)%greedy_Some.
    destruct (at_boundary (prev_after prev s m) (drop m s)) eqn:Hb; [| done].
    injection Hrest as <-.
    pose proof (run_take _ _ _ Hrun) as Hdig.
    pose proof (length_take_run _ _ _ Hrun) as Hlen.
    exists (take m s), (drop m s). rewrite take_drop, Hlen.
    split_and!; [done | lia | done | done |].
    rewrite prev_after_take in Hb by (pose proof (run_le is_digit s); lia).
    destruct (last_nonempty (take m s)) as [c Hc]; [lia |].
    rewrite Hc in Hb. apply (boundary_after_word c); [| done].
    apply digit_is_word. by apply (all_of_last _ (take m s)).
  - intros (ds & post & -> & -> & Hlen & Hdig & Hpost).
    rewrite run_app by (by try apply nonword_not_digit).
    replace (Some (length ds)) with (Some (length ds + 0)) by (f_equal; lia).
    apply greedy_first; [done |].
    rewrite drop_app_length, prev_after_app.
    destruct (last_nonempty ds) as [c Hc]; [lia |]. rewrite Hc.
    assert (at_boundary (Some c) post = true) as ->; [| done].
    apply boundary_after_word; [| done].
    apply digit_is_word. by apply (all_of_last _ ds).
Qed.

Lemma match_dash prev s n :
  match_here REF_DASH prev s = Some n ↔ code_here dash_code prev s n.
Proof.
  unfold REF_DASH.
  change (match_here [WordB; Rep is_upper 2; Lit "-"; Rep is_digit 1; WordB] prev s)
    with (if at_boundary prev s
          then greedy 2 (fun k => match_here [Lit "-"; Rep is_digit 1; WordB]
                                   (prev_after prev s k) (drop k s))
                      (run is_upper s)
          else None).
  split.
  - destruct (at_boundary prev s) eqn:Hb; [| done].
    intros (k & n' & Hk & Hrun & Hrest & ->)%greedy_Some.
    destruct (drop k s) as [| x s2] eqn:Hdrop; [done |].
    change (match_here [Lit "-"; Rep is_digit 1; WordB] (prev_after prev s k) (x :: s2))
      with (if Ascii.eqb x "-"
            then S <$> match_here [Rep is_digit 1; WordB] (Some x) s2 else None) in Hrest.
    destruct (Ascii.eqb x "-") eqn:Hx; [| done]. apply Ascii.eqb_eq in Hx as ->.
    destruct (match_here [Rep is_digit 1; WordB] (Some "-"%char) s2) as [n2 |] eqn:Hd;
      [| done].
    injection Hrest as <-.
    apply match_digits in Hd as (ds & post & -> & -> & Hlen & Hdig & Hpost); [| lia].
    pose proof (run_take _ _ _ Hrun) as Hup.
    pose proof (length_take_run _ _ _ Hrun) as Hlk.
    exists (take k s ++ "-"%char :: ds), post. split_and!.
    + rewrite <- app_assoc. simpl. rewrite <- Hdrop. by rewrite take_drop.
    + rewrite length_app, Hlk. simpl. lia.
    + exists (take k s), ds. split_and!; [done | lia | done | done | done].
    + destruct (head_nonempty (take k s)) as [c Hc]; [lia |].
      rewrite head_take in Hc by lia.
      apply (boundary_before_word prev s c); [done | | done].
      apply upper_is_word. apply (all_of_head _ (take k s)); [done |].
      by rewrite head_take by lia.
    + done.
  - intros (r & post & -> & -> & (ls & ds & -> & Hls & Hup & Hds & Hdig) & Hprev & Hpost).
    destruct (head_nonempty ls) as [c Hc]; [lia |].
    assert (at_boundary prev ((ls ++ "-"%char :: ds) ++ post) = true) as ->.
    { apply (boundary_before_word _ _ c); [| | done].
      - destruct ls; [done |]. done.
      - apply upper_is_word. by apply (all_of_head _ ls). }
    rewrite <- app_assoc, <- app_comm_cons.
    rewrite run_app by (done || apply dash_classes).
    replace (length (ls ++ "-"%char :: ds)) with (length ls + S (length ds))
      by (rewrite length_app; simpl; lia).
    apply greedy_first; [done |].
    rewrite drop_app_length.
    change (match_here [Lit "-"; Rep is_digit 1; WordB]
              (prev_after prev (ls ++ "-"%char :: ds ++ post) (length ls))
              ("-"%char :: ds ++ post))
      with (S <$> match_here [Rep is_digit 1; WordB] (Some "-"%char) (ds ++ post)).
    assert (match_here [Rep is_digit 1; WordB] (Some "-"%char) (ds ++ post)
            = Some (length ds)) as ->; [| done].
    apply match_digits; [lia |]. exists ds, post. done.
Qed.

Lemma match_plain prev s n :
  match_here REF_PLAIN prev s = Some n ↔ code_here plain_code prev s n.
Proof.
  unfold REF_PLAIN.
  change (match_here [WordB; Rep is_upper 2; Rep is_digit 2; WordB] prev s)
    with (if at_boundary prev s
          then greedy 2 (fun k => match_here [Rep is_digit 2; WordB]
                                   (prev_after prev s k) (drop k s))
                      (run is_upper s)
          else None).
  split.
  - destruct (at_boundary prev s) eqn:Hb; [| done].
    intros (k & n' & Hk & Hrun & Hrest & ->)%greedy_Some.
    apply match_digits in Hrest as (ds & post & Hdrop & -> & Hlen & Hdig & Hpost); [| lia].
    pose proof (run_take _ _ _ Hrun) as Hup.
    pose proof (length_take_run _ _ _ Hrun) as Hlk.
    exists (take k s ++ ds), post. split_and!.
    + rewrite <- app_assoc. rewrite <- Hdrop. by rewrite take_drop.
    + rewrite length_app, Hlk. lia.
    + exists (take k s), ds. split_and!; [done | lia | done | done | done].
    + destruct (head_nonempty (take k s)) as [c Hc]; [lia |].
      rewrite head_take in Hc by lia.
      apply (boundary_before_word prev s c); [done | | done].
      apply upper_is_word. apply (all_of_head _ (take k s)); [done |].
      by rewrite head_take by lia.
    + done.
  - intros (r & post & -> & -> & (ls & ds & -> & Hls & Hup & Hds & Hdig) & Hprev & Hpost).
    destruct (head_nonempty ls) as [c Hc]; [lia |].
    destruct (head_nonempty ds) as [d Hd]; [lia |].
    assert (at_boundary prev ((ls ++ ds) ++ post) = true) as ->.
    { apply (boundary_before_word _ _ c); [| | done].
      - destruct ls; [done |]. done.
      - apply upper_is_word. by apply (all_of_head _ ls). }
    rewrite <- app_assoc.
    rewrite run_app; [| done |].
    2:{ destruct ds as [| d' ds]; [done |]. simpl. apply digit_not_upper.
        by inversion Hdig. }
    rewrite length_app. apply greedy_first; [done |].
    rewrite drop_app_length.
    apply match_digits; [lia |]. exists ds, post. done.
Qed.

(** ** Searching a text *)

Section Search.

Variable re : regex.
Variable code : list ascii → Prop.
Hypothesis match_code :
  ∀ prev s n, match_here re prev s = Some n ↔ code_here code prev s n.

Lemma occurs_at_here pre s r :
  occurs_at code (pre ++ s) (length pre) r ↔
  code_here code (last pre) s (length r) ∧ r = take (length r) s.
Proof.
  split.
  - intros (pre' & post & Htxt & Hlen & Hcode & Hpre & Hpost).
    apply app_inj_1 in Htxt as [<- ->]; [| done].
    split; [by exists r, post |]. by rewrite take_app_length.
  - intros [(r' & post & -> & Hlen & Hcode & Hpre & Hpost) Hr].
    rewrite Hlen, take_app_length in Hr. subst r'.
    by exists pre, post.
Qed.

Lemma occurs_at_bound txt i r : occurs_at code txt i r → i ≤ length txt.
Proof.
  intros (pre & post & -> & <- & _). rewrite length_app. lia.
Qed.

Lemma occurs_at_split txt i r :
  occurs_at code txt i r →
  occurs_at code (take i txt ++ drop i txt) (length (take i txt)) r.
Proof.
  intros H. pose proof (occurs_at_bound _ _ _ H) as Hle.
  rewrite take_drop, length_take, Nat.min_l by done. done.
Qed.

(** At one position there is at most one code. *)
Lemma occurs_at_unique txt i r r' :
  occurs_at code txt i r → occurs_at code txt i r' → r = r'.
Proof.
  intros [H1 E1]%occurs_at_split%occurs_at_here [H2 E2]%occurs_at_split%occurs_at_here.
  apply match_code in H1, H2. rewrite H1 in H2. injection H2 as Hlen.
  rewrite E1, E2. by rewrite Hlen.
Qed.

Lemma search_from_spec s : ∀ pre,
  match search_from re (last pre) s with
  | Some r =>
      ∃ i, length pre ≤ i ∧ occurs_at code (pre ++ s) i r ∧
           ∀ j r', length pre ≤ j → occurs_at code (pre ++ s) j r' → i ≤ j
  | None => ∀ j r', length pre ≤ j → ¬ occurs_at code (pre ++ s) j r'
  end.
Proof.
  induction s as [| c s IH]; intros pre.
  - simpl. destruct (match_here re (last pre) []) as [n |] eqn:Hm.
    + exists (length pre). split; [done |]. split; [| by intros].
      apply occurs_at_here. apply match_code in Hm.
      destruct Hm as (r & post & Hs & -> & Hrest).
      symmetry in Hs. apply app_eq_nil in Hs as [-> ->]. simpl.
      split; [| done]. by exists [], [].
    + intros j r' Hj Hocc. pose proof (occurs_at_bound _ _ _ Hocc) as Hle.
      rewrite app_nil_r in Hle. assert (j = length pre) as -> by lia.
      apply occurs_at_here in Hocc as [Hocc _]. apply match_code in Hocc. congruence.
  - simpl. destruct (match_here re (last pre) (c :: s)) as [n |] eqn:Hm.
    + exists (length pre). split; [done |]. split; [| by intros].
      apply occurs_at_here. apply match_code in Hm.
      pose proof Hm as (r & post & Hs & Hn & Hrest). subst n.
      rewrite Hs in *. rewrite take_app_length.
      split; [done | by rewrite take_app_length].
    + specialize (IH (pre ++ [c])). rewrite last_snoc in IH.
      rewrite <- app_assoc, length_app in IH. simpl in IH.
      assert (Hnot : ∀ r', ¬ occurs_at code (pre ++ c :: s) (length pre) r').
      { intros r' [Hocc _]%occurs_at_here. apply match_code in Hocc. congruence. }
      destruct (search_from re (Some c) s) as [r |].
      * destruct IH as (i & Hi & Hocc & Hmin). exists i.
        split; [lia |]. split; [done |]. intros j r' Hj Hocc'.
        destruct (decide (j = length pre)) as [-> | Hne]; [by destruct (Hnot r') |].
        apply (Hmin j r'); [lia | done].
      * intros j r' Hj Hocc.
        destruct (decide (j = length pre)) as [-> | Hne]; [by destruct (Hnot r') |].
        apply (IH j r'); [lia | done].
Qed.

Lemma search_spec txt :
  match search_from re None txt with
  | Some r => ∃ i, leftmost code txt i r
  | None => absent code txt
  end.
Proof.
  pose proof (search_from_spec txt []) as H. simpl in H.
  destruct (search_from re None txt) as [r |].
  - destruct H as (i & _ & Hocc & Hmin). exists i. split; [done |].
    intros j r' Hj. apply (Hmin j r'); [lia | done].
  - intros j r'. apply H. lia.
Qed.

Lemma leftmost_unique txt i r i' r' :
  leftmost code txt i r → leftmost code txt i' r' → r = r'.
Proof.
  intros [H1 M1] [H2 M2]. assert (i = i') as <-.
  { apply Nat.le_antisymm; [by apply (M1 i' r') | by apply (M2 i r)]. }
  by apply (occurs_at_unique txt i).
Qed.

End Search.

(** ** [extract_reference] *)

Lemma chars_text l : chars (text l) = l.
Proof. apply list_ascii_of_string_of_list_ascii. Qed.

Lemma extract_reference_unfold t :
  extract_reference t = first_search REF_PATTERNS (upper t).
Proof.
  unfold extract_reference. destruct (String.eqb t "") eqn:Ht; [| done].
  apply String.eqb_eq in Ht as ->. reflexivity.
Qed.

Lemma extract_reference_priority t : priority_reference t (extract_reference t).
Proof.
  rewrite extract_reference_unfold. unfold priority_reference, first_search, REF_PATTERNS, search.
  pose proof (search_spec REF_DASH dash_code match_dash (chars (upper t))) as Hd.
  pose proof (search_spec REF_PLAIN plain_code match_plain (chars (upper t))) as Hp.
  destruct (search_from REF_DASH None (chars (upper t))) as [r |]; simpl.
  - left. destruct Hd as [i Hi]. eauto.
  - right. destruct (search_from REF_PLAIN None (chars (upper t))) as [r |]; simpl.
    + left. destruct Hp as [i Hi]. eauto.
    + right. done.
Qed.

Lemma priority_reference_unique t o1 o2 :
  priority_reference t o1 → priority_reference t o2 → o1 = o2.
Proof.
  unfold priority_reference.
  intros [(i & r & Hl & ->) | [(Hno & i & r & Hl & ->) | (Hnd & Hnp & ->)]]
         [(i' & r' & Hl' & ->) | [(Hno' & i' & r' & Hl' & ->) | (Hnd' & Hnp' & ->)]].
  - f_equal. by apply (leftmost_unique REF_DASH dash_code match_dash (chars (upper t)) i r i' r').
  - destruct Hl as [Hl _]. by destruct (Hno' i r).
  - destruct Hl as [Hl _]. by destruct (Hnd' i r).
  - destruct Hl' as [Hl' _]. by destruct (Hno i' r').
  - f_equal. by apply (leftmost_unique REF_PLAIN plain_code match_plain (chars (upper t)) i r i' r').
  - destruct Hl as [Hl _]. by destruct (Hnp' i r).
  - destruct Hl' as [Hl' _]. by destruct (Hnd i' r').
  - destruct Hl' as [Hl' _]. by destruct (Hnp i' r').
  - done.
Qed.

(** C2, as amended: on the uppercased text, [extract_reference] returns
    the leftmost code of the first kind (two or more capital letters, a
    hyphen, one or more digits, between word boundaries) if the text has
    one; otherwise the leftmost code of the second kind (two or more
    capital letters directly followed by two or more digits, between
    word boundaries) if it has one; otherwise the empty string.  This
    determines the result.  "Payment ref ABC-123 received" gives
    "ABC-123" and "no codes here" gives the empty string. *)
Theorem extract_reference_by_priority t out :
  (extract_reference t = out ↔ priority_reference t out) ∧
  extract_reference "Payment ref ABC-123 received" = "ABC-123" ∧
  extract_reference "no codes here" = "".
Proof.
  split_and!.
  - split.
    + intros <-. apply extract_reference_priority.
    + intros H. apply (priority_reference_unique t); [apply extract_reference_priority | done].
  - reflexivity.
  - reflexivity.
Qed.

(** C2, as stated, fails: in "AB12 CD-3" the first code from the left is
    "AB12", of the second kind, but the code of the first kind further
    to the right is returned. *)
Lemma extract_reference_not_first :
  extract_reference "AB12 CD-3" = "CD-3" ∧
  occurs_at plain_code (chars (upper "AB12 CD-3")) 0 (chars "AB12") ∧
  ¬ first_reference "AB12 CD-3" (extract_reference "AB12 CD-3").
Proof.
  assert (Hex : extract_reference "AB12 CD-3" = "CD-3") by reflexivity.
  assert (Htxt : chars (upper "AB12 CD-3") = chars "AB12 CD-3") by reflexivity.
  assert (Hocc : occurs_at plain_code (chars (upper "AB12 CD-3")) 0 (chars "AB12")).
  { rewrite Htxt. exists [], (chars " CD-3"). split_and!; try reflexivity.
    exists (chars "AB"), (chars "12").
    split_and!; unfold chars; simpl; try lia; try reflexivity; repeat constructor. }
  split_and!; [done | done |].
  rewrite Hex. unfold first_reference.
  intros [(i & r & Heither & Hmin & Hout) | (_ & Hnp & _)].
  - assert (i = 0) as ->.
    { pose proof (Hmin 0 (chars "AB12") (or_intror Hocc)). lia. }
    apply (f_equal chars) in Hout. rewrite chars_text in Hout. subst r.
    rewrite Htxt in Heither.
    destruct Heither as [(pre & post & Hs & Hlen & _) | (pre & post & Hs & Hlen & _)];
      destruct pre; simpl in *; discriminate.
  - by destruct (Hnp 0 (chars "AB12")).
Qed.

(** ** The model on sample data *)

Example match_sample :
  summary (match_ sample_bank sample_invoices) = ([(0, 0); (1, 1)], [2; 3], [2; 3]).
Proof. vm_compute. reflexivity. Qed.

Example match_shared_reference :
  summary (match_ sample_bank shared_reference) = ([(0, 1)], [1; 2; 3], [0]).
Proof. vm_compute. reflexivity. Qed.

Example preprocess_sample :
  map Bank._extracted_ref (preprocess sample_bank sample_invoices).1
  = ["ABC-123"; "ABC-124"; "ABC-125"; "AB-7"].
Proof. vm_compute. reflexivity. Qed.

Example duplicates_sample :
  stored (compute_findings [] w_dups no_frame) "duplicate_txn"
  = Some [(0, Bank.Row None (Some 738000%Z) (Some (500 # 1)) None None "");
          (1, Bank.Row None (Some 738000%Z) (Some (500 # 1)) None None "")].
Proof. vm_compute. reflexivity. Qed.

Example high_value_sample :
  (fun l => map (fun r => Bank.amount r.2) l)
    <$> stored (compute_findings [] w_ten no_frame) "high_value_unmatched"
  = Some [Some (inject_Z 100)].
Proof. vm_compute. reflexivity. Qed.

Example empty_input_sample :
  stored (compute_findings [] (Frame Bank.COLUMNS []) no_frame) "duplicate_txn"
  = Some [] ∧
  stored (compute_findings [] (Frame Bank.COLUMNS []) no_frame) "high_value_unmatched"
  = None.
Proof. split; vm_compute; reflexivity. Qed.

Example merge_sample :
  merge_findings MATCHER_FINDINGS {["duplicate_txn" := two_rows]} !! "duplicate_txn"
  = Some (DataFrame two_rows) ∧
  merge_findings {["duplicate_txn" := DataFrame one_row]}
                 {["duplicate_txn" := two_rows]} !! "duplicate_txn"
  = Some (DataFrame one_row) ∧
  merge_findings MATCHER_FINDINGS {["duplicate_txn" := two_rows]} !! "partials"
  = Some (PyList []).
Proof. split_and!; vm_compute; reflexivity. Qed.

Example norm_ref_sample : norm_ref "  abc-123 " = "ABC-123".
Proof. reflexivity. Qed.

(** ** The greedy pass, characterized *)

Lemma pass_upto_S bank inv k :
  pass_upto bank inv (S k)
  = try_match bank inv (inv_by_ref inv) (pass_upto bank inv k) k.
Proof.
  unfold pass_upto, exact_pass. rewrite seq_S, fold_left_app. reflexivity.
Qed.

Lemma run_match_pass bank inv :
  matches (run_match bank inv) = results (pass_upto bank inv (length bank)) ∧
  unmatched_txns (run_match bank inv)
  = unmatched_frame Bank.COLUMNS bank
      (unmatched_txns_idx (pass_upto bank inv (length bank))) ∧
  unmatched_invs (run_match bank inv)
  = unmatched_frame Inv.COLUMNS inv
      (unmatched_inv_idx (pass_upto bank inv (length bank))).
Proof. done. Qed.

Lemma eligible_functional bank inv bi ii ii' :
  eligible bank inv bi ii → eligible bank inv bi ii' → ii = ii'.
Proof.
  intros (t & i & Ht & Hr & _) (t' & i' & Ht' & Hr' & _). congruence.
Qed.

Lemma greedy_inv_upto bank inv k : greedy_inv bank inv k (pass_upto bank inv k).
Proof.
  induction k as [| k IH].
  - split; simpl.
    + intros bj ii Hlt. lia.
    + intros m Hm. by apply elem_of_nil in Hm.
    + constructor.
  - rewrite pass_upto_S. destruct IH as [Htaken Hfirst Horder].
    destruct (try_match_cases bank inv (inv_by_ref inv) (pass_upto bank inv k) k)
      as [(t & ii & i & Hbt & Hr & Hi & Hin & Hw & ->) | [-> Hno]].
    + assert (Hel : eligible bank inv k ii) by (by exists t, i).
      split; simpl.
      * intros bj ii' Hlt Hel'. destruct (decide (bj = k)) as [-> | Hne].
        -- rewrite (eligible_functional _ _ _ _ _ Hel' Hel). set_solver.
        -- assert (ii' ∉ unmatched_inv_idx (pass_upto bank inv k))
             by (apply (Htaken bj); [lia | done]).
           set_solver.
      * intros m [Hm | ->%list_elem_of_singleton]%elem_of_app.
        -- destruct (Hfirst m Hm) as [Hlt Hnone]. split; [lia | done].
        -- simpl. split; [lia |]. intros bj Hlt Hel'.
           by apply (Htaken bj ii Hlt Hel').
      * rewrite fmap_app. apply StronglySorted_app_2.
        -- intros x y (m & -> & Hm)%list_elem_of_fmap Hy. simpl in Hy.
           apply list_elem_of_singleton in Hy as ->. by apply Hfirst.
        -- exact Horder.
        -- simpl. repeat constructor.
    + split.
      * intros bj ii' Hlt Hel'. destruct (decide (bj = k)) as [-> | Hne].
        -- destruct Hel' as (t & i & Ht & Hr & Hi & Hw).
           intros Hin. by apply (Hno t ii' i).
        -- apply (Htaken bj); [lia | done].
      * intros m Hm. destruct (Hfirst m Hm) as [Hlt Hnone]. split; [lia | done].
      * done.
Qed.

Lemma built_from_eligible bank inv m :
  built_from bank inv m → eligible bank inv (m_txn m) (m_inv m).
Proof.
  intros (t & i & Ht & Hi & _ & Hlast & Hw). exists t, i.
  split_and!; try done. by apply inv_by_ref_Some.
Qed.

Lemma eligible_lt bank inv bi ii :
  eligible bank inv bi ii → bi < length bank ∧ ii < length inv.
Proof.
  intros (t & i & Ht & _ & Hi & _).
  split; [by apply lookup_lt_Some in Ht | by apply lookup_lt_Some in Hi].
Qed.

(** The pairs of the pass over preprocessed data. *)
Lemma run_match_pairs bank inv bi ii :
  (∃ m, m ∈ matches (run_match bank inv) ∧ m_txn m = bi ∧ m_inv m = ii) ↔
  eligible bank inv bi ii ∧ ∀ bj, bj < bi → ¬ eligible bank inv bj ii.
Proof.
  destruct (greedy_inv_upto bank inv (length bank)) as [Htaken Hfirst _].
  assert (Hinv : pass_inv (list_to_set (labels bank)) (list_to_set (labels inv))
                   bank inv (labels bank) (pass_upto bank inv (length bank)))
    by apply run_match_inv.
  destruct Hinv as [_ Hpool _ _ _ _ Hbuilt].
  change (matches (run_match bank inv))
    with (results (pass_upto bank inv (length bank))).
  split.
  - intros (m & Hm & <- & <-). split.
    + apply built_from_eligible. by apply Hbuilt.
    + by apply Hfirst.
  - intros [Hel Hmin]. destruct (eligible_lt _ _ _ _ Hel) as [Hbi Hii].
    pose proof (Htaken bi ii Hbi Hel) as Hout. rewrite Hpool in Hout.
    assert (Hin : ii ∈ m_inv <$> results (pass_upto bank inv (length bank))).
    { destruct (decide (ii ∈ m_inv <$> results (pass_upto bank inv (length bank))));
        [done |].
      destruct Hout. apply elem_of_difference. split.
      - apply elem_of_list_to_set, elem_of_seq. lia.
      - by rewrite elem_of_list_to_set. }
    apply list_elem_of_fmap in Hin as (m & -> & Hm). exists m.
    split_and!; try done.
    destruct (Hfirst m Hm) as [_ Hm_first].
    pose proof (built_from_eligible _ _ _ (Hbuilt m Hm)) as Helm.
    destruct (Nat.lt_trichotomy (m_txn m) bi) as [Hlt | [Heq | Hgt]]; [| done |].
    + by destruct (Hmin (m_txn m) Hlt).
    + by destruct (Hm_first bi Hgt).
Qed.

(** ** The unmatched frames, row by row *)

Lemma StronglySorted_filter {A} (R : relation A) (P : A → Prop)
    `{∀ x, Decision (P x)} (l : list A) :
  StronglySorted R l → StronglySorted R (filter P l).
Proof.
  induction 1 as [| x l Hs IH Hall]; [constructor |].
  destruct (decide (P x)).
  - rewrite filter_cons_True by done. constructor; [done |].
    rewrite Forall_forall in *. intros y [_ Hy]%list_elem_of_filter. by apply Hall.
  - by rewrite filter_cons_False.
Qed.

Lemma StronglySorted_seq a n : StronglySorted lt (seq a n).
Proof.
  revert a. induction n as [| n IH]; intros a; simpl; constructor; [apply IH |].
  apply Forall_forall. intros y Hy%elem_of_seq. lia.
Qed.

Lemma filter_ext_elem {A} (P Q : A → Prop) `{∀ x, Decision (P x)}
    `{∀ x, Decision (Q x)} (l : list A) :
  (∀ x, x ∈ l → P x ↔ Q x) → filter P l = filter Q l.
Proof.
  induction l as [| x l IH]; intros Hext; [done |].
  assert (Hl : filter P l = filter Q l).
  { apply IH. intros y Hy. apply Hext. set_solver. }
  destruct (decide (P x)) as [HP | HP].
  - rewrite filter_cons_True by done.
    rewrite filter_cons_True by (apply Hext; [set_solver | done]). by f_equal.
  - rewrite filter_cons_False by done.
    rewrite filter_cons_False; [done |]. intros HQ. apply HP, Hext; [set_solver | done].
Qed.

(** The sorted labels of a pool are the labels of the frame, in order,
    that belong to the pool. *)
Lemma sorted_filter (s : gset nat) n :
  s ⊆ list_to_set (seq 0 n) → sorted s = filter (fun i => i ∈ s) (seq 0 n).
Proof.
  intros Hsub. apply (StronglySorted_unique_strong lt).
  - intros; lia.
  - apply sorted_ascending.
  - apply StronglySorted_filter, StronglySorted_seq.
  - apply NoDup_Permutation.
    + apply NoDup_sorted.
    + apply NoDup_filter, NoDup_seq.
    + intros x. rewrite elem_of_sorted, list_elem_of_filter. split; [| by intros [? _]].
      intros Hx. split; [done |]. apply Hsub in Hx. by apply elem_of_list_to_set in Hx.
Qed.

Lemma loc_snoc {R} (df : list R) x ls :
  (∀ i, i ∈ ls → i < length df) → loc (df ++ [x]) ls = loc df ls.
Proof.
  intros Hlt. unfold loc. apply list_omap_ext. apply Forall2_same_length_lookup_2; [done |].
  intros j i i' Hi Hi'. rewrite Hi in Hi'. injection Hi' as <-.
  rewrite lookup_app_l; [done |]. apply Hlt. apply list_elem_of_lookup. eauto.
Qed.

Lemma loc_filter_seq {R} (P : nat → Prop) `{∀ i, Decision (P i)} (df : list R) :
  loc df (filter P (seq 0 (length df)))
  = filter (fun p => P p.1) (imap pair df).
Proof.
  induction df as [| x df IH] using rev_ind; [done |].
  rewrite length_app. simpl. rewrite Nat.add_1_r, seq_S. simpl.
  rewrite filter_app, imap_app, filter_app.
  unfold loc at 1. rewrite omap_app. fold (loc (df ++ [x]) (filter P (seq 0 (length df)))).
  rewrite loc_snoc.
  2:{ intros i [_ Hi%elem_of_seq]%list_elem_of_filter. lia. }
  rewrite IH. f_equal. simpl. rewrite Nat.add_0_r.
  destruct (decide (P (length df))) as [HP | HP].
  - rewrite !filter_cons_True by done. simpl.
    rewrite lookup_app_r by lia. by rewrite Nat.sub_diag.
  - by rewrite !filter_cons_False.
Qed.

Lemma rows_unmatched_filter {R} cols (df : list R) (s : gset nat) :
  s ⊆ list_to_set (labels df) →
  rows (unmatched_frame cols df s) = filter (fun p => p.1 ∈ s) (imap pair df).
Proof.
  intros Hsub. unfold unmatched_frame.
  destruct (decide (s = ∅)) as [-> | Hne]; simpl.
  - symmetry. apply filter_none. set_solver.
  - rewrite (sorted_filter s (length df)) by done.
    exact (loc_filter_seq (fun i => i ∈ s) df).
Qed.

Lemma elem_of_imap_pair {R} (df : list R) (p : nat * R) :
  p ∈ imap pair df ↔ df !! p.1 = Some p.2.
Proof.
  rewrite list_elem_of_lookup. split.
  - intros (i & Hi). rewrite list_lookup_imap in Hi.
    destruct (df !! i) eqn:Hd; simpl in Hi; [| done]. by injection Hi as <-.
  - intros Hp. exists p.1. rewrite list_lookup_imap, Hp. simpl. by destruct p.
Qed.

(** The unmatched frames of the pass over preprocessed data. *)
Lemma run_match_rows bank inv :
  let o := run_match bank inv in
  rows (unmatched_txns o)
  = filter (fun p => p.1 ∉ m_txn <$> matches o) (imap pair bank) ∧
  rows (unmatched_invs o)
  = filter (fun p => p.1 ∉ m_inv <$> matches o) (imap pair inv) ∧
  columns (unmatched_txns o) = Bank.COLUMNS ∧
  columns (unmatched_invs o) = Inv.COLUMNS.
Proof.
  destruct (run_match_pools bank inv) as [Hpt Hpi].
  destruct (run_match_inv bank inv) as [Ht Hi _ _ _ _ _].
  unfold run_match. simpl. split_and!.
  - rewrite rows_unmatched_filter by done. apply filter_ext_elem.
    intros p Hp%elem_of_imap_pair. rewrite Ht. apply lookup_lt_Some in Hp.
    rewrite elem_of_difference, !elem_of_list_to_set. unfold labels.
    rewrite elem_of_seq. split; [by intros [_ ?] | intros ?; split; [lia | done]].
  - rewrite rows_unmatched_filter by done. apply filter_ext_elem.
    intros p Hp%elem_of_imap_pair. rewrite Hi. apply lookup_lt_Some in Hp.
    rewrite elem_of_difference, !elem_of_list_to_set. unfold labels.
    rewrite elem_of_seq. split; [by intros [_ ?] | intros ?; split; [lia | done]].
  - unfold unmatched_frame. by destruct (decide _).
  - unfold unmatched_frame. by destruct (decide _).
Qed.

(** X1: the unmatched transactions (and invoices) returned by [match]
    are the rows of the preprocessed input, with their labels and in
    their order, from which exactly the rows used by a match are
    removed. *)
Theorem unmatched_rows_are_input_minus_matched bank_df inv_df :
  let o := match_ bank_df inv_df in
  let '(bank, inv) := preprocess bank_df inv_df in
  rows (unmatched_txns o)
  = filter (fun p => p.1 ∉ m_txn <$> matches o) (imap pair bank) ∧
  rows (unmatched_invs o)
  = filter (fun p => p.1 ∉ m_inv <$> matches o) (imap pair inv).
Proof.
  rewrite match_unfold. unfold preprocess. cbv zeta.
  destruct (run_match_rows (preprocess_txn <$> bank_df) (preprocess_inv <$> inv_df))
    as (Ht & Hi & _).
  split; assumption.
Qed.

(** ** Which pairs [match] makes *)

(** X2: [match] pairs transaction [bi] with invoice [ii] exactly when
    [bi] is the first transaction, in row order, that can take [ii]:
    its extracted reference finds [ii] in the lookup and the two amounts
    are present and pass the amount test (their float difference is
    below the float 0.05, that is, their values are closer than the
    cutoff).  So the pairing is greedy: an invoice goes to the earliest
    transaction that fits it. *)
Theorem match_pairs_first_eligible bank_df inv_df bi ii :
  let o := match_ bank_df inv_df in
  let '(bank, inv) := preprocess bank_df inv_df in
  (∃ m, m ∈ matches o ∧ m_txn m = bi ∧ m_inv m = ii) ↔
  eligible bank inv bi ii ∧ ∀ bj, bj < bi → ¬ eligible bank inv bj ii.
Proof. rewrite match_unfold. unfold preprocess. cbv zeta. apply run_match_pairs. Qed.

(** X3: every match is sound.  The invoice has a reference which,
    trimmed and uppercased, is the reference extracted from the
    transaction; both amounts are present, their difference computed as
    floats is below the float 0.05, and their values differ by less than
    0.05; the match row is tagged [exact_ref] and carries the invoice's
    amount and reference, not the transaction's. *)
Theorem matches_sound bank_df inv_df m :
  let o := match_ bank_df inv_df in
  let '(bank, inv) := preprocess bank_df inv_df in
  m ∈ matches o →
  ∃ t i r x y,
    bank !! m_txn m = Some t ∧ inv !! m_inv m = Some i ∧
    Inv.reference i = Some r ∧ upper (strip r) = Bank._extracted_ref t ∧
    Bank.amount t = Some x ∧ Inv.amount i = Some y ∧
    (Qabs (Float64.round (x - y)) < TOLERANCE)%Q ∧
    (Qabs (x - y) < 5 # 100)%Q ∧
    match_type m = "exact_ref" ∧
    m_amount m = Some y ∧ m_reference m = Some r ∧
    m_txn_id m = Bank.txn_id t ∧ m_invoice_id m = Inv.invoice_id i.
Proof.
  rewrite match_unfold. unfold preprocess. cbv zeta. intros Hm.
  destruct (run_match_built _ _ m Hm)
    as (t & i & Ht & Hi & Heq & [(i' & r & Hi' & Hr & Hk) _] & (x & y & Hx & Hy & Hlt)).
  rewrite Hi in Hi'. injection Hi' as <-.
  assert (Hhigh : (CUTOFF < 5 # 100)%Q) by reflexivity.
  exists t, i, r, x, y. rewrite Heq. simpl. split_and!; try done.
  - by apply round_tolerance.
  - by eapply Qlt_trans.
Qed.

Lemma matches_sound_witness :
  ∃ t i r x y,
    (preprocess sample_bank sample_invoices).1 !! 0 = Some t ∧
    (preprocess sample_bank sample_invoices).2 !! 0 = Some i ∧
    Inv.reference i = Some r ∧ upper (strip r) = Bank._extracted_ref t ∧
    Bank.amount t = Some x ∧ Inv.amount i = Some y ∧
    (Qabs (Float64.round (x - y)) < TOLERANCE)%Q ∧
    (Qabs (x - y) < 5 # 100)%Q ∧
    match_type (merged 0 0 t i) = "exact_ref" ∧
    m_amount (merged 0 0 t i) = Some y ∧ m_reference (merged 0 0 t i) = Some r ∧
    m_txn_id (merged 0 0 t i) = Bank.txn_id t ∧
    m_invoice_id (merged 0 0 t i) = Inv.invoice_id i.
Proof.
  destruct (matches_sound sample_bank sample_invoices
              (merged 0 0 (preprocess_txn (Bank.Raw (Some "T1") (Some 738000%Z)
                                  (float (100049 # 1000))
                                  (Some "Payment ref ABC-123 received") None))
                          (preprocess_inv (Inv.Raw (Some "I1") (Some "A")
                                  (float (100 # 1)) None None (Some " abc-123 ")))))
    as (t & i & r & x & y & Ht & Hi & H).
  - vm_compute. left.
  - simpl in Ht, Hi. injection Ht as <-. injection Hi as <-.
    eexists _, _, r, x, y. split; [reflexivity |]. split; [reflexivity |]. exact H.
Defined.

(** X4: the matches are listed in the order of their transactions. *)
Theorem matches_in_transaction_order bank_df inv_df :
  StronglySorted lt (m_txn <$> matches (match_ bank_df inv_df)).
Proof.
  rewrite match_unfold.
  apply (g_order _ _ _ _ (greedy_inv_upto _ _ (length (preprocess_txn <$> bank_df)))).
Qed.

(** Whether a transaction can take an invoice is decidable, so among
    the transactions before [bi] either none can take [ii] or one can. *)
Lemma within_tolerance_dec b i : {within_tolerance b i} + {¬ within_tolerance b i}.
Proof.
  destruct (amounts_agree (Some b) (Some i)) eqn:H.
  - left. by apply amounts_agree_iff.
  - right. intros Hw. apply amounts_agree_iff in Hw. congruence.
Qed.

Lemma eligible_dec bank inv bi ii :
  {eligible bank inv bi ii} + {¬ eligible bank inv bi ii}.
Proof.
  unfold eligible.
  destruct (bank !! bi) as [t |] eqn:Ht; [| right; by intros (? & ? & ? & _)].
  destruct (decide (inv_by_ref inv !! Bank._extracted_ref t = Some ii)) as [Hr | Hr];
    [| right; intros (t' & ? & [= <-] & ? & _); done].
  destruct (inv !! ii) as [i |] eqn:Hi; [| right; by intros (? & ? & _ & _ & ? & _)].
  destruct (within_tolerance_dec (Bank.amount t) (Inv.amount i)) as [Hw | Hw].
  - left. by exists t, i.
  - right. intros (t' & i' & [= <-] & _ & [= <-] & Hw'). done.
Qed.

Lemma classic_first bank inv bi ii :
  (∀ bk, bk < bi → ¬ eligible bank inv bk ii) ∨
  (∃ bk, bk < bi ∧ eligible bank inv bk ii).
Proof.
  induction bi as [| bi IH]; [left; intros; lia |].
  destruct IH as [Hnone | (bk & Hlt & Hk)].
  - destruct (eligible_dec bank inv bi ii) as [Hel | Hnel].
    + right. exists bi. split; [lia | done].
    + left. intros bk Hlt. destruct (decide (bk = bi)) as [-> | Hne]; [done |].
      apply Hnone. lia.
  - right. exists bk. split; [lia | done].
Qed.

Lemma run_match_matched_or_unmatched bank inv bi :
  bi < length bank →
  bi ∈ index (unmatched_txns (run_match bank inv)) ∨
  bi ∈ m_txn <$> matches (run_match bank inv).
Proof.
  intros Hlt. destruct (run_match_partition bank inv) as [Hp _].
  assert (Hin : bi ∈ labels bank) by (apply elem_of_seq; lia).
  rewrite <- Hp in Hin. apply elem_of_app in Hin. tauto.
Qed.

Lemma run_match_inv_matched_or_unmatched bank inv ii :
  ii < length inv →
  ii ∈ index (unmatched_invs (run_match bank inv)) ∨
  ii ∈ m_inv <$> matches (run_match bank inv).
Proof.
  intros Hlt. destruct (run_match_partition bank inv) as [_ Hp].
  assert (Hin : ii ∈ labels inv) by (apply elem_of_seq; lia).
  rewrite <- Hp in Hin. apply elem_of_app in Hin. tauto.
Qed.

Lemma run_match_not_both bank inv bi :
  bi ∈ index (unmatched_txns (run_match bank inv)) →
  bi ∈ m_txn <$> matches (run_match bank inv) → False.
Proof.
  intros Hu Hm. destruct (run_match_partition bank inv) as [Hp _].
  pose proof (NoDup_seq 0 (length bank)) as Hnd. fold (labels bank) in Hnd.
  rewrite <- Hp in Hnd. apply NoDup_app in Hnd as (_ & Hdisj & _).
  by apply (Hdisj bi).
Qed.

(** X5: a transaction is left unmatched although it can take an invoice
    only because an earlier transaction took that invoice. *)
Theorem unmatched_lost_to_earlier bank_df inv_df bi ii :
  let o := match_ bank_df inv_df in
  let '(bank, inv) := preprocess bank_df inv_df in
  bi ∈ index (unmatched_txns o) → eligible bank inv bi ii →
  ∃ m, m ∈ matches o ∧ m_inv m = ii ∧ m_txn m < bi ∧
       eligible bank inv (m_txn m) ii.
Proof.
  rewrite match_unfold. unfold preprocess. cbv zeta.
  set (bank := preprocess_txn <$> bank_df). set (inv := preprocess_inv <$> inv_df).
  intros Hun Hel.
  (* the first transaction that can take [ii] *)
  assert (Hfirst : ∃ bj, bj ≤ bi ∧ eligible bank inv bj ii ∧
                         ∀ bk, bk < bj → ¬ eligible bank inv bk ii).
  { clear Hun. induction bi as [bi IH] using lt_wf_ind.
    destruct (classic_first bank inv bi ii) as [Hnone | (bk & Hlt & Hk)].
    - exists bi. done.
    - destruct (IH bk Hlt Hk) as (bj & Hle & Hj & Hmin). exists bj.
      split; [lia | done]. }
  destruct Hfirst as (bj & Hle & Hj & Hmin).
  destruct (proj2 (run_match_pairs bank inv bj ii) (conj Hj Hmin))
    as (m & Hm & Hmt & Hmi).
  exists m. subst bj. split_and!; try done.
  destruct (decide (m_txn m = bi)) as [Heq | Hne]; [| lia].
  destruct (run_match_not_both bank inv bi Hun).
  rewrite <- Heq. apply list_elem_of_fmap. eauto.
Qed.

Lemma unmatched_lost_to_earlier_witness :
  ∃ m, m ∈ matches (match_ competing_bank one_invoice) ∧ m_inv m = 0 ∧
       m_txn m < 1 ∧
       eligible (preprocess_txn <$> competing_bank) (preprocess_inv <$> one_invoice)
                (m_txn m) 0.
Proof.
  apply (unmatched_lost_to_earlier competing_bank one_invoice 1 0).
  - vm_compute. repeat constructor.
  - eexists _, _. split; [reflexivity |]. split; [vm_compute; reflexivity |].
    split; [reflexivity |]. eexists _, _.
    split; [reflexivity |]. split; [reflexivity |]. vm_compute. reflexivity.
Defined.

(** X6: a row with missing data is never matched.  A transaction without
    an amount, an invoice without an amount and an invoice without a
    reference are always among the unmatched rows. *)
Theorem missing_data_stays_unmatched bank_df inv_df :
  let o := match_ bank_df inv_df in
  let '(bank, inv) := preprocess bank_df inv_df in
  (∀ bi t, bank !! bi = Some t → Bank.amount t = None →
           bi ∈ index (unmatched_txns o)) ∧
  (∀ ii i, inv !! ii = Some i →
           Inv.amount i = None ∨ Inv.reference i = None →
           ii ∈ index (unmatched_invs o)).
Proof.
  rewrite match_unfold. unfold preprocess. cbv zeta.
  change (map preprocess_txn bank_df) with (preprocess_txn <$> bank_df).
  change (map preprocess_inv inv_df) with (preprocess_inv <$> inv_df).
  set (bank := preprocess_txn <$> bank_df). set (inv := preprocess_inv <$> inv_df).
  clearbody bank inv. split.
  - intros bi t Ht Hnone.
    destruct (run_match_matched_or_unmatched bank inv bi (lookup_lt_Some _ _ _ Ht))
      as [Hu | Hm]; [done |].
    apply list_elem_of_fmap in Hm as (m & -> & Hm).
    destruct (run_match_built _ _ m Hm)
      as (t' & i & Ht' & _ & _ & _ & (x & y & Hx & _)). congruence.
  - intros ii i Hi Hnone.
    destruct (run_match_inv_matched_or_unmatched bank inv ii (lookup_lt_Some _ _ _ Hi))
      as [Hu | Hm]; [done |].
    apply list_elem_of_fmap in Hm as (m & -> & Hm).
    destruct (run_match_built _ _ m Hm)
      as (t & i' & _ & Hi' & _ & [(i'' & r & Hi'' & Hr & _) _] & (x & y & _ & Hy & _)).
    destruct Hnone; congruence.
Qed.

Lemma filter_all {A} (P : A → Prop) `{∀ x, Decision (P x)} (l : list A) :
  (∀ x, x ∈ l → P x) → filter P l = l.
Proof.
  induction l as [| x l IH]; intros Hall; [done |].
  rewrite filter_cons_True by (apply Hall; set_solver).
  f_equal. apply IH. intros y Hy. apply Hall. set_solver.
Qed.

(** X7: with no transaction, or with no invoice, [match] makes no pair:
    every row of the other dataset is returned unmatched, with its
    label, and the frame of the empty side has no row. *)
Theorem match_empty_input bank_df inv_df :
  (matches (match_ [] inv_df) = [] ∧
   rows (unmatched_txns (match_ [] inv_df)) = [] ∧
   rows (unmatched_invs (match_ [] inv_df)) = imap pair (preprocess_inv <$> inv_df)) ∧
  (matches (match_ bank_df []) = [] ∧
   rows (unmatched_txns (match_ bank_df [])) = imap pair (preprocess_txn <$> bank_df) ∧
   rows (unmatched_invs (match_ bank_df [])) = []).
Proof.
  assert (H1 : matches (match_ [] inv_df) = []) by reflexivity.
  assert (H2 : matches (match_ bank_df []) = []).
  { destruct (matches (match_ bank_df [])) as [| m l] eqn:Hm; [done |].
    assert (Hin : m ∈ matches (match_ bank_df [])) by (rewrite Hm; left).
    rewrite match_unfold in Hin.
    destruct (run_match_built _ _ m Hin) as (_ & i & _ & Hi & _). done. }
  pose proof (run_match_rows [] (preprocess_inv <$> inv_df)) as Ha.
  pose proof (run_match_rows (preprocess_txn <$> bank_df) []) as Hb.
  cbv zeta in Ha, Hb.
  change (run_match [] (preprocess_inv <$> inv_df)) with (match_ [] inv_df) in Ha.
  change (run_match (preprocess_txn <$> bank_df) []) with (match_ bank_df []) in Hb.
  destruct Ha as (Ha1 & Ha2 & _). destruct Hb as (Hb1 & Hb2 & _).
  rewrite H1 in Ha2. rewrite H2 in Hb1.
  split; split_and!.
  - done.
  - reflexivity.
  - rewrite Ha2. apply filter_all. intros p _. simpl. apply not_elem_of_nil.
  - done.
  - rewrite Hb1. apply filter_all. intros p _. simpl. apply not_elem_of_nil.
  - exact Hb2.
Qed.

(** X8: the loop probes the lookup with every extracted reference, the
    empty one included.  A transaction in which no reference code was
    found is therefore paired with the last invoice whose reference is
    blank (empty once trimmed), when their amounts agree and no earlier
    transaction could take that invoice. *)
Theorem unreferenced_transaction_takes_blank_invoice bank_df inv_df bi ii t i :
  let o := match_ bank_df inv_df in
  let '(bank, inv) := preprocess bank_df inv_df in
  bank !! bi = Some t → Bank._extracted_ref t = "" →
  inv !! ii = Some i → last_with_ref inv "" ii →
  within_tolerance (Bank.amount t) (Inv.amount i) →
  (∀ bj, bj < bi → ¬ eligible bank inv bj ii) →
  ∃ m, m ∈ matches o ∧ m_txn m = bi ∧ m_inv m = ii.
Proof.
  rewrite match_unfold. unfold preprocess. cbv zeta.
  intros Ht Hr Hi Hlast Hw Hfirst. apply run_match_pairs. split; [| done].
  exists t, i. split_and!; try done. rewrite Hr. by apply inv_by_ref_Some.
Qed.

Lemma unreferenced_transaction_takes_blank_invoice_witness :
  ∃ m, m ∈ matches (match_ blank_bank blank_invoices) ∧ m_txn m = 0 ∧ m_inv m = 0.
Proof.
  apply (unreferenced_transaction_takes_blank_invoice blank_bank blank_invoices 0 0
           (preprocess_txn (Bank.Raw (Some "T1") None (float (65005 # 100))
                                     (Some "rent march") None))
           (preprocess_inv (Inv.Raw (Some "I1") (Some "A") (float (650 # 1))
                                    None None (Some "   ")))).
  - reflexivity.
  - reflexivity.
  - reflexivity.
  - split.
    + eexists _, _. split; [reflexivity |]. split; reflexivity.
    + intros j Hj (i' & r' & Hi' & _). destruct j; [lia | done].
  - eexists _, _. split; [reflexivity |]. split; [reflexivity |].
    vm_compute. reflexivity.
  - intros bj Hbj. lia.
Defined.

(** ** The shape of an extracted reference *)

Lemma text_chars s : text (chars s) = s.
Proof. apply string_of_list_ascii_of_string. Qed.

Lemma upper_char_fixed c : is_lower c = false → upper_char c = c.
Proof. intros H. unfold upper_char. by rewrite H. Qed.

Lemma upper_not_lower c : is_upper c = true → is_lower c = false.
Proof.
  unfold is_upper, is_lower. rewrite !andb_true_iff, !Nat.leb_le.
  intros [? ?]. apply andb_false_iff. left. apply Nat.leb_gt. lia.
Qed.

Lemma digit_not_lower c : is_digit c = true → is_lower c = false.
Proof.
  unfold is_digit, is_lower. rewrite !andb_true_iff, !Nat.leb_le.
  intros [? ?]. apply andb_false_iff. left. apply Nat.leb_gt. lia.
Qed.

Lemma code_char_not_lower c : code_char c → is_lower c = false.
Proof.
  intros [H | [H | ->]];
    [by apply upper_not_lower | by apply digit_not_lower | reflexivity].
Qed.

Lemma upper_text_fixed r : Forall code_char r → upper (text r) = text r.
Proof.
  intros Hr. unfold upper. rewrite chars_text. f_equal.
  induction Hr as [| c r Hc Hr IH]; [done |]. simpl.
  rewrite upper_char_fixed by (by apply code_char_not_lower). by f_equal.
Qed.

Lemma all_of_code_char cls r :
  (∀ c, cls c = true → code_char c) → all_of cls r → Forall code_char r.
Proof. intros Hcls Hr. eapply Forall_impl; [exact Hr | done]. Qed.

Lemma dash_code_chars r : dash_code r → Forall code_char r ∧ 4 ≤ length r.
Proof.
  intros (ls & ds & -> & Hls & Hup & Hds & Hdig). split.
  - apply Forall_app. split; [| constructor].
    + apply (all_of_code_char is_upper); [by left | done].
    + by right; right.
    + apply (all_of_code_char is_digit); [by right; left | done].
  - rewrite length_app. simpl. lia.
Qed.

Lemma plain_code_chars r :
  plain_code r →
  Forall (fun c => is_upper c = true ∨ is_digit c = true) r ∧ 4 ≤ length r.
Proof.
  intros (ls & ds & -> & Hls & Hup & Hds & Hdig). split.
  - apply Forall_app. split.
    + eapply Forall_impl; [exact Hup |]. by left.
    + eapply Forall_impl; [exact Hdig |]. by right.
  - rewrite length_app. lia.
Qed.

Lemma plain_code_code_char r : plain_code r → Forall code_char r.
Proof.
  intros [H _]%plain_code_chars. eapply Forall_impl; [exact H |].
  intros c [? | ?]; [by left | by right; left].
Qed.

Lemma extract_reference_code t : empty_or_code (extract_reference t).
Proof.
  pose proof (extract_reference_priority t) as H. unfold priority_reference in H.
  unfold empty_or_code.
  destruct H as [(i & r & [(pre & post & _ & _ & Hc & _) _] & ->)
                | [(_ & i & r & [(pre & post & _ & _ & Hc & _) _] & ->)
                  | (_ & _ & ->)]].
  - right. left. by rewrite chars_text.
  - right. right. by rewrite chars_text.
  - by left.
Qed.

(** X9: an extracted reference is either empty or a reference code of
    one of the two kinds; a code has at least four characters, each a
    capital letter, a digit or a hyphen, so it holds no blank and no
    lowercase letter. *)
Theorem extract_reference_shape t :
  let r := chars (extract_reference t) in
  r = [] ∨
  ((dash_code r ∨ plain_code r) ∧ 4 ≤ length r ∧ Forall code_char r).
Proof.
  simpl. destruct (extract_reference_code t) as [H | [H | H]].
  - by left.
  - right. destruct (dash_code_chars _ H). auto.
  - right. destruct (plain_code_chars _ H). split_and!; auto.
    by apply plain_code_code_char.
Qed.

Lemma occurs_whole code r :
  code r → leftmost code r 0 r.
Proof.
  intros Hc. split; [| intros; lia].
  exists [], []. rewrite app_nil_r. done.
Qed.

Lemma no_dash_in_plain r i r' :
  plain_code r → ¬ occurs_at dash_code r i r'.
Proof.
  intros [Hr _]%plain_code_chars (pre & post & -> & _ & (ls & ds & -> & _) & _).
  rewrite !Forall_app in Hr. destruct Hr as (_ & (_ & Hd) & _).
  inversion Hd as [| c l [Hc | Hc] _]; subst; by vm_compute in Hc.
Qed.

Lemma extract_reference_of_code r :
  dash_code r ∨ plain_code r → extract_reference (text r) = text r.
Proof.
  intros Hr. apply (priority_reference_unique (text r)).
  - apply extract_reference_priority.
  - unfold priority_reference.
    assert (Hfix : chars (upper (text r)) = r).
    { rewrite upper_text_fixed, chars_text; [done |].
      destruct Hr as [H | H]; [by apply dash_code_chars | by apply plain_code_code_char]. }
    rewrite Hfix. destruct Hr as [H | H].
    + left. exists 0, r. split; [by apply occurs_whole | done].
    + right. left. split.
      * intros i r'. by apply no_dash_in_plain.
      * exists 0, r. split; [by apply occurs_whole | done].
Qed.

Lemma upper_char_idem c : upper_char (upper_char c) = upper_char c.
Proof.
  destruct c as [[] [] [] [] [] [] [] []]; reflexivity.
Qed.

Lemma upper_idem s : upper (upper s) = upper s.
Proof.
  unfold upper. rewrite chars_text. f_equal. rewrite map_map.
  apply map_ext. intros c. apply upper_char_idem.
Qed.

Lemma upper_empty s : upper s = "" → s = "".
Proof.
  unfold upper. intros H. apply (f_equal chars) in H. rewrite chars_text in H.
  destruct s; [done | discriminate].
Qed.

(** X10: extraction is stable and blind to case.  Extracting from an
    extracted reference gives it back, and a text and its uppercase form
    give the same reference. *)
Theorem extract_reference_stable t :
  extract_reference (extract_reference t) = extract_reference t ∧
  extract_reference (upper t) = extract_reference t.
Proof.
  split.
  - destruct (extract_reference_code t) as [H | H].
    + apply (f_equal text) in H. rewrite text_chars in H. simpl in H.
      rewrite H. reflexivity.
    + rewrite <- (text_chars (extract_reference t)).
      by apply extract_reference_of_code.
  - rewrite !extract_reference_unfold. by rewrite upper_idem.
Qed.

Lemma preprocess_txn_code r : empty_or_code (Bank._extracted_ref (preprocess_txn r)).
Proof.
  unfold preprocess_txn. simpl.
  destruct (String.eqb _ _); apply extract_reference_code.
Qed.

(** X11: the lookup key of an invoice is its whole reference, trimmed
    and uppercased, while a transaction only ever carries an extracted
    code.  An invoice whose reference is neither blank nor exactly a
    reference code (it holds other words, say) is therefore never
    matched. *)
Theorem invoice_with_extra_text_never_matched bank_df inv_df ii i r :
  let o := match_ bank_df inv_df in
  let '(bank, inv) := preprocess bank_df inv_df in
  inv !! ii = Some i → Inv.reference i = Some r →
  ¬ empty_or_code (upper (strip r)) →
  ii ∈ index (unmatched_invs o).
Proof.
  rewrite match_unfold. unfold preprocess. cbv zeta.
  change (map preprocess_inv inv_df) with (preprocess_inv <$> inv_df).
  intros Hi Hr Hnot.
  destruct (run_match_inv_matched_or_unmatched (preprocess_txn <$> bank_df) _ ii
              (lookup_lt_Some _ _ _ Hi)) as [Hu | Hm]; [done |].
  apply list_elem_of_fmap in Hm as (m & -> & Hm).
  destruct (run_match_built _ _ m Hm)
    as (t & i' & Ht & Hi' & _ & [(i'' & r' & Hi'' & Hr' & Hk) _] & _).
  rewrite Hi in Hi''. injection Hi'' as <-. rewrite Hr in Hr'. injection Hr' as <-.
  destruct Hnot. unfold norm_ref in Hk. rewrite Hk.
  rewrite list_lookup_fmap in Ht.
  destruct (bank_df !! m_txn m) as [raw |]; simpl in Ht; [| done].
  injection Ht as <-. apply preprocess_txn_code.
Qed.

Lemma invoice_with_extra_text_never_matched_witness :
  0 ∈ index (unmatched_invs (match_ competing_bank wordy_invoices)).
Proof.
  apply (invoice_with_extra_text_never_matched competing_bank wordy_invoices 0
           (preprocess_inv (Inv.Raw (Some "I1") (Some "A") (Some (100 # 1))
                                    None None (Some "Ref ABC-123")))
           "Ref ABC-123").
  - reflexivity.
  - reflexivity.
  - intros [H | [H | H]].
    + discriminate H.
    + apply dash_code_chars in H as [H _].
      rewrite Forall_forall in H. specialize (H " "%char).
      destruct H as [H | [H | H]]; [| discriminate H.. ].
      vm_compute. do 3 right. left.
    + apply plain_code_code_char in H.
      rewrite Forall_forall in H. specialize (H " "%char).
      destruct H as [H | [H | H]]; [| discriminate H.. ].
      vm_compute. do 3 right. left.
Defined.

(** ** [normalize_text] on sample texts *)

Example normalize_text_samples :
  normalize_text "Payment ref ABC-123 received" = "ref abc 123 received" ∧
  normalize_text "EFT  from J. Smith (ref:INV2024)" = "from j smith inv2024" ∧
  normalize_text "Debit Order - PAID" = "" ∧
  normalize_text "x_paid" = "x paid" ∧
  normalize_text "repaid payments" = "repaid payments".
Proof. split_and!; reflexivity. Qed.

(** ** The form of a normalized text *)

Lemma strip_text l : strip (text l) = text (strip_list l).
Proof. unfold strip, strip_list. by rewrite chars_text. Qed.

Lemma rev_is_reverse {A} (l : list A) : rev l = reverse l.
Proof. apply rev_alt. Qed.

Lemma lstrip_spec l :
  ∃ pre, l = pre ++ lstrip l ∧ all_of is_space pre ∧ not_in is_space (head (lstrip l)).
Proof.
  induction l as [| c l (pre & Hl & Hpre & Hhd)];
    [exists []; split_and!; [done | constructor | done] |]. simpl.
  destruct (is_space c) eqn:Hc.
  - exists (c :: pre). split_and!; [simpl; f_equal; exact Hl | by constructor | done].
  - exists []. split_and!; [done | constructor | done].
Qed.

(** A stripped text is the text without a run of whitespace at each of
    its ends, and it neither starts nor ends with whitespace. *)
Lemma strip_list_spec l :
  ∃ pre post, l = pre ++ strip_list l ++ post ∧
              all_of is_space pre ∧ all_of is_space post ∧
              not_in is_space (head (strip_list l)) ∧
              not_in is_space (last (strip_list l)).
Proof.
  unfold strip_list.
  destruct (lstrip_spec l) as (pre & Hl & Hpre & Hhd).
  destruct (lstrip_spec (rev (lstrip l))) as (post & Hr & Hpost & Hhd').
  set (x := lstrip (rev (lstrip l))) in *.
  assert (Hl1 : lstrip l = rev x ++ rev post).
  { rewrite <- rev_app_distr, <- Hr. by rewrite rev_involutive. }
  exists pre, (rev post). split_and!.
  - by rewrite <- Hl1.
  - done.
  - unfold all_of in *. rewrite Forall_forall in *. intros c Hc. apply Hpost.
    rewrite rev_is_reverse in Hc. by apply (proj1 (elem_of_reverse _ _)) in Hc.
  - destruct (rev x) as [| c y] eqn:Hx; [done |]. rewrite Hl1 in Hhd. done.
  - rewrite rev_is_reverse, last_reverse. done.
Qed.

Lemma lowered_char c :
  spaced_char (lower_char (if is_alnum c || is_space c then c else " "%char)).
Proof.
  destruct c as [[] [] [] [] [] [] [] []]; vm_compute; auto.
Qed.

Lemma lowered_chars s : Forall spaced_char (map lower_char (blank_symbols s)).
Proof.
  unfold blank_symbols. rewrite map_map. apply Forall_forall.
  intros c (c0 & -> & _)%list_elem_of_fmap. apply lowered_char.
Qed.

Lemma collapse_plain b s : Forall spaced_char s → Forall plain_char (collapse b s).
Proof.
  intros Hs. revert b. induction Hs as [| c s Hc Hs IH]; intros b; simpl; [constructor |].
  destruct (is_space c) eqn:Hsp.
  - destruct b; [apply IH |]. constructor; [by right; right | apply IH].
  - constructor; [| apply IH]. destruct Hc as [? | [? | ?]]; [by left | by right; left | congruence].
Qed.

Lemma collapse_no_double s :
  no_double (collapse false s) ∧
  (no_double (collapse true s) ∧ head (collapse true s) ≠ Some " "%char).
Proof.
  induction s as [| c s (IHf & IHt & IHh)]; simpl; [done |].
  destruct (is_space c) eqn:Hsp.
  - split_and!; try done.
    destruct (collapse true s) as [| b t] eqn:Hc; [done |].
    split; [| done]. intros [_ ->]. done.
  - assert (Hne : c ≠ " "%char) by (intros ->; discriminate Hsp).
    split_and!.
    + destruct (collapse false s); [done |]. split; [| done]. by intros [? _].
    + destruct (collapse false s); [done |]. split; [| done]. by intros [? _].
    + simpl. congruence.
Qed.

Lemma no_double_pairs l :
  no_double l → ∀ l1 a b l2, l = l1 ++ a :: b :: l2 → ¬ (a = " "%char ∧ b = " "%char).
Proof.
  intros Hnd l1. revert l Hnd. induction l1 as [| x l1 IH]; intros l Hnd a b l2 ->.
  - simpl in Hnd. tauto.
  - simpl in Hnd. destruct Hnd as [_ Hnd]. by apply (IH _ Hnd a b l2).
Qed.

Lemma collapse_length b s : length (collapse b s) ≤ length s.
Proof.
  revert b. induction s as [| c s IH]; intros b; simpl; [done |].
  pose proof (IH true). pose proof (IH false).
  destruct (is_space c); [destruct b |]; simpl; lia.
Qed.

Lemma sub_noise_length skip prev s : length (sub_noise skip prev s) ≤ length s.
Proof.
  revert skip prev. induction s as [| c s IH]; intros skip prev; simpl; [done |].
  destruct skip as [| k].
  - destruct (noise_here prev (c :: s)) as [n |]; simpl.
    + specialize (IH (n - 1) (Some c)). lia.
    + specialize (IH 0 (Some c)). lia.
  - specialize (IH k (Some c)). lia.
Qed.

Lemma space_is_space : is_space " " = true.
Proof. reflexivity. Qed.

(** X12: a normalized text is made of lowercase letters, digits and
    single blanks: no other character is left, no two blanks stand side
    by side, the text neither starts nor ends with a blank, and it is
    never longer than the input. *)
Theorem normalize_text_form s :
  let out := chars (normalize_text s) in
  Forall plain_char out ∧ single_spaced out ∧ length out ≤ length (chars s).
Proof.
  simpl. unfold normalize_text.
  destruct (String.eqb s "") eqn:Hs.
  { split_and!; [constructor | | simpl; lia].
    split_and!; [| done | done]. intros l1 a b l2 H. by destruct l1. }
  rewrite strip_text, chars_text.
  set (c := collapse false (map lower_char (blank_symbols (sub_noise 0 None (chars s))))).
  destruct (strip_list_spec c) as (pre & post & Hc & Hpre & Hpost & Hhd & Hlast).
  assert (Hplain : Forall plain_char c) by apply collapse_plain, lowered_chars.
  assert (Hnd : no_double c) by apply collapse_no_double.
  assert (Hlen : length c ≤ length (chars s)).
  { unfold c. etransitivity; [apply collapse_length |].
    unfold blank_symbols. rewrite !length_map. apply sub_noise_length. }
  split_and!.
  - rewrite Hc in Hplain. apply Forall_app in Hplain as [_ Hplain].
    by apply Forall_app in Hplain as [Hplain _].
  - split_and!.
    + intros l1 a b l2 Heq.
      apply (no_double_pairs c Hnd (pre ++ l1) a b (l2 ++ post)).
      rewrite Hc at 1. rewrite Heq. by rewrite <- !app_assoc.
    + intros Heq. rewrite Heq in Hhd. simpl in Hhd. discriminate Hhd.
    + intros Heq. rewrite Heq in Hlast. simpl in Hlast. discriminate Hlast.
  - rewrite Hc in Hlen. rewrite !length_app in Hlen. lia.
Qed.

(** ** Duplicates come in groups *)

Lemma num_same_sym a b : Num.same a b = true → Num.same b a = true.
Proof.
  destruct a, b; simpl; try done. rewrite !Qeq_bool_iff. by intros ->.
Qed.

Lemma num_same_trans a b c :
  Num.same a b = true → Num.same b c = true → Num.same a c = true.
Proof.
  destruct a, b, c; simpl; try done. rewrite !Qeq_bool_iff. by intros -> ->.
Qed.

Lemma same_key_sym k k' : same_key k k' = true → same_key k' k = true.
Proof.
  unfold same_key, same_date. rewrite !andb_true_iff, !bool_decide_eq_true.
  intros [? ?]. split; [by apply num_same_sym | done].
Qed.

Lemma same_key_trans k1 k2 k3 :
  same_key k1 k2 = true → same_key k2 k3 = true → same_key k1 k3 = true.
Proof.
  unfold same_key, same_date. rewrite !andb_true_iff, !bool_decide_eq_true.
  intros [? ?] [? ?]. split; [by eapply num_same_trans | congruence].
Qed.

Lemma occurrences_same k k' keys :
  same_key k k' = true → occurrences k keys = occurrences k' keys.
Proof.
  intros Hs. unfold occurrences. f_equal. apply filter_ext_elem. intros x _. split.
  - intros Hx. apply (same_key_trans _ k); [by apply same_key_sym | done].
  - intros Hx. by apply (same_key_trans _ k').
Qed.

Lemma occurrences_rows k (l : list (nat * Bank.row)) :
  occurrences k (map (fun r => key_of r.2) l)
  = length (filter (fun r => same_key k (key_of r) = true) l.*2).
Proof.
  unfold occurrences. induction l as [| r l IH]; [done |]. simpl.
  destruct (same_key k (key_of r.2)) eqn:Hk.
  - rewrite !filter_cons_True by done. simpl. by rewrite IH.
  - rewrite !filter_cons_False by congruence. done.
Qed.

(** Every row that rule 1 keeps has a partner among the rows it keeps. *)
Lemma duplicates_of_partner bu i r :
  (rows (duplicates_of bu)).*2 !! i = Some r →
  ∃ j r', j ≠ i ∧ (rows (duplicates_of bu)).*2 !! j = Some r' ∧
          same_amount_and_date r r'.
Proof.
  rewrite rows_duplicates_of. intros Hi.
  assert (Hflag : dup_flag bu r = true).
  { apply list_elem_of_lookup_2 in Hi. by apply list_elem_of_filter in Hi as [? _]. }
  set (P := fun r' : Bank.row => same_key (key_of r) (key_of r') = true).
  assert (Hlen : 2 ≤ length (filter P (filter (fun r => dup_flag bu r = true)
                                              (rows bu).*2))).
  { rewrite list_filter_filter_l.
    - unfold P. rewrite <- occurrences_rows. fold (keys_of bu).
      unfold dup_flag in Hflag. by apply Nat.leb_le in Hflag.
    - intros r' Hr'. unfold P in Hr'. unfold dup_flag.
      rewrite <- (occurrences_same _ _ _ Hr'). exact Hflag. }
  apply (filter_twice P _ i r Hi) in Hlen as (j & r' & Hne & Hj & Hr').
  - exists j, r'. split_and!; try done. by apply same_key_iff.
  - apply same_key_iff, same_amount_and_date_refl.
Qed.

Lemma duplicates_of_not_single bu : length (rows (duplicates_of bu)) ≠ 1.
Proof.
  intros Hone.
  assert (Hlen : length (rows (duplicates_of bu)).*2 = 1) by (by rewrite length_fmap).
  destruct ((rows (duplicates_of bu)).*2) as [| r0 [| r1 l]] eqn:Hrows; try done.
  destruct (duplicates_of_partner bu 0 r0) as (j & r' & Hne & Hj & _).
  - by rewrite Hrows.
  - rewrite Hrows in Hj. by destruct j.
Qed.

(** X13: [duplicate_txn] never holds a row on its own.  Every row of the
    finding has the amount and the date of another row of the finding,
    so the finding is empty or has at least two rows. *)
Theorem duplicates_come_in_groups matches bu iu f d :
  compute_findings matches bu iu = Ok f → f !! "duplicate_txn" = Some d →
  length (rows d) ≠ 1 ∧
  ∀ i r, (rows d).*2 !! i = Some r →
         ∃ j r', j ≠ i ∧ (rows d).*2 !! j = Some r' ∧ same_amount_and_date r r'.
Proof.
  rewrite compute_findings_eq. intros [= <-] Hd.
  assert (Hcase : d = duplicates_of bu ∨ d = no_frame).
  { simpl in Hd.
    destruct (negb (is_empty bu) && has_column bu "amount");
      [rewrite lookup_insert_ne in Hd by done |];
      destruct (negb (is_empty bu) && (has_column bu "amount" && has_column bu "date"));
      rewrite lookup_singleton_eq in Hd; injection Hd as <-; auto. }
  destruct Hcase as [-> | ->].
  - split; [apply duplicates_of_not_single | apply duplicates_of_partner].
  - split; [done | by intros i r Hr].
Qed.

Lemma duplicates_come_in_groups_witness :
  length (rows (duplicates_of w_dups)) ≠ 1 ∧
  ∀ i r, (rows (duplicates_of w_dups)).*2 !! i = Some r →
         ∃ j r', j ≠ i ∧ (rows (duplicates_of w_dups)).*2 !! j = Some r' ∧
                 same_amount_and_date r r'.
Proof.
  apply (duplicates_come_in_groups [] w_dups no_frame
           (<[HIGH_VALUE := high_values_of w_dups]>
              {[DUPLICATE_TXN := duplicates_of w_dups]})
           (duplicates_of w_dups)).
  - vm_compute. reflexivity.
  - vm_compute. reflexivity.
Defined.

(** ** Further properties of the findings *)

(** X14: whenever the unmatched transactions have the [amount] column
    and some amount is present, [high_value_unmatched] is not empty: it
    holds every row whose amount is the largest. *)
Theorem high_value_holds_largest matches bu iu r x :
  "amount" ∈ columns bu → r ∈ (rows bu).*2 → Bank.amount r = Some x →
  (∀ r' y, r' ∈ (rows bu).*2 → Bank.amount r' = Some y → (y <= x)%Q) →
  ∃ f h, compute_findings matches bu iu = Ok f ∧
         f !! "high_value_unmatched" = Some h ∧ r ∈ (rows h).*2.
Proof.
  intros Hcol Hr Hx Hmax. rewrite compute_findings_eq.
  assert (He : is_empty bu = false).
  { unfold is_empty. destruct (columns bu); [by apply elem_of_nil in Hcol |].
    destruct (rows bu); [by apply elem_of_nil in Hr | done]. }
  apply has_column_true in Hcol. rewrite He, Hcol. simpl.
  eexists _, (high_values_of bu). split; [done |].
  split; [apply lookup_insert_eq |].
  rewrite rows_high_values_of. apply list_elem_of_filter. split; [| done].
  by apply (largest_amount_flagged bu r x).
Qed.

Lemma high_value_holds_largest_witness :
  ∃ f h, compute_findings [] w_ten no_frame = Ok f ∧
         f !! "high_value_unmatched" = Some h ∧
         Bank.Row None (Some 738000%Z) (Some (inject_Z 100)) None None "" ∈ (rows h).*2.
Proof.
  apply (high_value_holds_largest [] w_ten no_frame _ (inject_Z 100)).
  - vm_compute. repeat constructor.
  - vm_compute. repeat constructor.
  - reflexivity.
  - intros r' y Hr' Hy. vm_compute in Hr'.
    repeat (apply elem_of_cons in Hr' as [-> | Hr'];
            [injection Hy as <-; vm_compute; discriminate |]).
    by apply elem_of_nil in Hr'.
Defined.

Lemma imap_index {A B} (f : nat → A → B) (g : B → nat) (l : list A) :
  (∀ i x, g (f i x) = i) → g <$> imap f l = seq 0 (length l).
Proof.
  intros Hg. rewrite fmap_imap.
  induction l as [| x l IH] using rev_ind; [done |].
  rewrite imap_app, length_app. simpl. rewrite Nat.add_1_r, seq_S. simpl.
  rewrite IH. f_equal. simpl. by rewrite Hg, Nat.add_0_r.
Qed.

Lemma index_reset_index {R} (f : frame R) :
  index (reset_index f) = seq 0 (length (rows (reset_index f))).
Proof.
  unfold index, reset_index. simpl. rewrite length_imap.
  by apply (imap_index (fun i r => (i, r.2)) fst).
Qed.

Lemma select_sublist {A} (mask : list bool) (l : list A) : select mask l `sublist_of` l.
Proof.
  revert mask. induction l as [| x l IH]; intros [| [] mask]; simpl;
    try apply sublist_nil_l.
  - apply sublist_skip, IH.
  - apply sublist_cons, IH.
Qed.

Lemma sublist_fmap_snd {A B} (l1 l2 : list (A * B)) :
  l1 `sublist_of` l2 → l1.*2 `sublist_of` l2.*2.
Proof. intros H. by apply fmap_sublist. Qed.

Lemma where_relabelled (bu : frame Bank.row) mask :
  let d := reset_index (where_ bu mask) in
  index d = seq 0 (length (rows d)) ∧
  (rows d).*2 `sublist_of` (rows bu).*2 ∧ columns d = columns bu.
Proof.
  cbv zeta. split_and!.
  - apply index_reset_index.
  - rewrite reset_index_rows. apply sublist_fmap_snd, select_sublist.
  - done.
Qed.

(** X15: every frame that [compute_findings] returns holds rows of the
    unmatched transactions, in their order, relabelled [0, 1, 2, ...];
    it has the columns of the unmatched transactions, unless it is the
    frame without rows and columns that stands for no duplicate. *)
Theorem findings_are_relabelled_sublists matches bu iu f k d :
  compute_findings matches bu iu = Ok f → f !! k = Some d →
  index d = seq 0 (length (rows d)) ∧
  (rows d).*2 `sublist_of` (rows bu).*2 ∧
  (d = no_frame ∨ columns d = columns bu).
Proof.
  rewrite compute_findings_eq. intros [= <-] Hd.
  assert (Hcase : d = duplicates_of bu ∨ d = high_values_of bu ∨ d = no_frame).
  { simpl in Hd.
    destruct (negb (is_empty bu) && has_column bu "amount");
      [apply lookup_insert_Some in Hd as [[_ <-] | [_ Hd]]; [auto |] |];
      destruct (negb (is_empty bu) && (has_column bu "amount" && has_column bu "date"));
      apply lookup_singleton_Some in Hd as [_ <-]; auto. }
  destruct Hcase as [-> | [-> | ->]].
  - destruct (where_relabelled bu (map (fun r => dup_flag bu r.2) (rows bu)))
      as (H1 & H2 & H3). auto.
  - destruct (where_relabelled bu (map (fun r => high_flag bu r.2) (rows bu)))
      as (H1 & H2 & H3). auto.
  - split_and!; [done | apply sublist_nil_l | by left].
Qed.

Lemma findings_are_relabelled_sublists_witness :
  index (duplicates_of w_dups) = seq 0 (length (rows (duplicates_of w_dups))) ∧
  (rows (duplicates_of w_dups)).*2 `sublist_of` (rows w_dups).*2 ∧
  (duplicates_of w_dups = no_frame ∨ columns (duplicates_of w_dups) = columns w_dups).
Proof.
  apply (findings_are_relabelled_sublists [] w_dups no_frame
           (<[HIGH_VALUE := high_values_of w_dups]>
              {[DUPLICATE_TXN := duplicates_of w_dups]})
           "duplicate_txn").
  - vm_compute. reflexivity.
  - vm_compute. reflexivity.
Defined.

(** ** Further properties of the merge *)

Lemma merge_findings_dom findings strict k :
  is_Some (merge_findings findings strict !! k) ↔
  is_Some (findings !! k) ∨ is_Some (strict !! k).
Proof.
  rewrite merge_findings_lookup.
  destruct (strict !! k) as [v |], (findings !! k) as [[e | l] |]; simpl;
    try destruct (is_empty e && negb (is_empty v));
    split; intros; try (by left); try (by right); try done.
  - by destruct H as [[] | []].
Qed.

(** X16: the merge never loses a category and never invents one: the
    merged findings have exactly the categories of the matcher's
    findings and of the engine's findings; a category only the matcher
    has keeps its value, and a category only the engine has takes the
    engine's frame. *)
Theorem merge_categories findings strict :
  dom (merge_findings findings strict) = dom findings ∪ dom strict ∧
  (∀ k, strict !! k = None →
        merge_findings findings strict !! k = findings !! k) ∧
  (∀ k v, findings !! k = None → strict !! k = Some v →
          merge_findings findings strict !! k = Some (DataFrame v)).
Proof.
  split_and!.
  - apply set_eq. intros k. rewrite elem_of_union, !elem_of_dom.
    apply merge_findings_dom.
  - intros k Hk. by rewrite merge_findings_lookup, Hk.
  - intros k v Hf Hs. by rewrite merge_findings_lookup, Hs, Hf.
Qed.

(** X17: merging the engine's findings a second time changes nothing. *)
Theorem merge_idempotent findings strict :
  merge_findings (merge_findings findings strict) strict
  = merge_findings findings strict.
Proof.
  apply map_eq. intros k. rewrite !merge_findings_lookup.
  destruct (strict !! k) as [v |]; [| done].
  destruct (findings !! k) as [[e | l] |]; [| done |].
  - destruct (is_empty e) eqn:He, (is_empty v) eqn:Hv; simpl; rewrite ?He, ?Hv; done.
  - by destruct (is_empty v).
Qed.

(** ** The run as a whole *)

Lemma run_match_columns bank inv :
  columns (unmatched_txns (run_match bank inv)) = Bank.COLUMNS ∧
  columns (unmatched_invs (run_match bank inv)) = Inv.COLUMNS.
Proof. destruct (run_match_rows bank inv) as (_ & _ & ? & ?). done. Qed.

Lemma is_empty_rows {R} (f : frame R) :
  columns f ≠ [] → (is_empty f = true ↔ rows f = []).
Proof.
  intros Hc. unfold is_empty. destruct (columns f); [done |]. simpl.
  destruct (rows f); simpl; split; done.
Qed.

(** The merged findings of a run, [u] being the unmatched transactions. *)
Lemma reconcile_findings_eq bank_df inv_df :
  let u := unmatched_txns (match_ bank_df inv_df) in
  findings (reconcile bank_df inv_df)
  = merge_findings MATCHER_FINDINGS
      (if is_empty u then {[DUPLICATE_TXN := no_frame]}
       else <[HIGH_VALUE := high_values_of u]> {[DUPLICATE_TXN := duplicates_of u]}).
Proof.
  cbv zeta. unfold reconcile. cbn [findings].
  change (findings (match_ bank_df inv_df)) with MATCHER_FINDINGS.
  rewrite compute_findings_eq.
  destruct (run_match_columns (preprocess_txn <$> bank_df) (preprocess_inv <$> inv_df))
    as [Hc _].
  rewrite <- match_unfold in Hc.
  assert (Ha : has_column (unmatched_txns (match_ bank_df inv_df)) "amount" = true).
  { apply has_column_true. rewrite Hc. unfold Bank.COLUMNS. set_solver. }
  assert (Hd : has_column (unmatched_txns (match_ bank_df inv_df)) "date" = true).
  { apply has_column_true. rewrite Hc. unfold Bank.COLUMNS. set_solver. }
  cbv zeta. rewrite Ha, Hd, !andb_true_r.
  by destruct (is_empty (unmatched_txns (match_ bank_df inv_df))).
Qed.

(** X18: what a run reports.  The merged findings keep the matcher's
    empty [partials] list; [duplicate_txn] has exactly the rows of the
    unmatched transactions that share amount and date with another one;
    [high_value_unmatched] is present exactly when a transaction is left
    unmatched; there is no other category. *)
Theorem reconcile_findings bank_df inv_df :
  let o := reconcile bank_df inv_df in
  let u := unmatched_txns o in
  findings o !! "partials" = Some (PyList []) ∧
  (∃ d, findings o !! "duplicate_txn" = Some (DataFrame d) ∧
        (rows d).*2 = filter (fun r => dup_flag u r = true) (rows u).*2) ∧
  (rows u = [] → findings o !! "high_value_unmatched" = None) ∧
  (rows u ≠ [] →
   findings o !! "high_value_unmatched" = Some (DataFrame (high_values_of u))) ∧
  (∀ k, is_Some (findings o !! k) →
        k = "partials" ∨ k = "duplicate_txn" ∨ k = "high_value_unmatched").
Proof.
  cbv zeta. rewrite reconcile_findings_eq.
  change (unmatched_txns (reconcile bank_df inv_df))
    with (unmatched_txns (match_ bank_df inv_df)).
  set (u := unmatched_txns (match_ bank_df inv_df)).
  assert (Hcols : columns u ≠ []).
  { unfold u. rewrite match_unfold.
    destruct (run_match_columns (preprocess_txn <$> bank_df) (preprocess_inv <$> inv_df))
      as [-> _]. done. }
  pose proof (is_empty_rows u Hcols) as Hemp.
  split_and!.
  - rewrite merge_findings_lookup.
    destruct (is_empty u); [rewrite lookup_singleton_ne by done
                           | rewrite lookup_insert_ne, lookup_singleton_ne by done];
      reflexivity.
  - rewrite merge_findings_lookup. destruct (is_empty u) eqn:He.
    + rewrite lookup_singleton_eq. exists no_frame. split; [reflexivity |].
      rewrite (proj1 Hemp eq_refl). reflexivity.
    + rewrite lookup_insert_ne, lookup_singleton_eq by done.
      change (MATCHER_FINDINGS !! "duplicate_txn") with (Some (DataFrame (@no_frame Bank.row))).
      change (is_empty (@no_frame Bank.row)) with true. simpl.
      destruct (is_empty (duplicates_of u)) eqn:Hd.
      * exists no_frame. split; [reflexivity |]. rewrite <- rows_duplicates_of.
        assert (rows (duplicates_of u) = []) as ->; [| done].
        apply is_empty_rows; [| done]. done.
      * exists (duplicates_of u). split; [reflexivity | apply rows_duplicates_of].
  - intros Hrows. rewrite (proj2 Hemp Hrows), merge_findings_lookup.
    rewrite lookup_singleton_ne by done. reflexivity.
  - intros Hrows. destruct (is_empty u) eqn:He; [by destruct Hrows; apply Hemp |].
    rewrite merge_findings_lookup, lookup_insert_eq. reflexivity.
  - intros k Hk. apply merge_findings_dom in Hk as [Hk | Hk].
    + unfold MATCHER_FINDINGS in Hk.
      destruct (decide (k = "partials")) as [-> | H1]; [by left |].
      destruct (decide (k = "duplicate_txn")) as [-> | H2]; [by right; left |].
      rewrite !lookup_insert_ne, lookup_empty in Hk by done. by destruct Hk.
    + destruct (decide (k = "duplicate_txn")) as [-> | H2]; [by right; left |].
      destruct (decide (k = "high_value_unmatched")) as [-> | H3]; [by right; right |].
      destruct (is_empty u);
        rewrite ?lookup_insert_ne, ?lookup_singleton_ne in Hk by done; by destruct Hk.
Qed.

Lemma reconcile_dup_len bank_df inv_df :
  finding_len (findings (reconcile bank_df inv_df)) "duplicate_txn"
  = length (rows (duplicates_of (unmatched_txns (match_ bank_df inv_df)))).
Proof.
  rewrite reconcile_findings_eq. cbv zeta.
  set (u := unmatched_txns (match_ bank_df inv_df)).
  assert (Hcols : columns u ≠ []).
  { unfold u. rewrite match_unfold.
    destruct (run_match_columns (preprocess_txn <$> bank_df) (preprocess_inv <$> inv_df))
      as [-> _]. done. }
  clearbody u. unfold finding_len. rewrite merge_findings_lookup.
  change (MATCHER_FINDINGS !! "duplicate_txn") with (Some (DataFrame (@no_frame Bank.row))).
  change (is_empty (@no_frame Bank.row)) with true.
  destruct (is_empty u) eqn:He.
  - rewrite lookup_singleton_eq. simpl.
    apply (is_empty_rows u Hcols) in He.
    unfold duplicates_of, reset_index, where_. simpl. rewrite He. reflexivity.
  - rewrite lookup_insert_ne, lookup_singleton_eq by done.
    destruct (is_empty (duplicates_of u)) eqn:Hd; cbn -[duplicates_of]; [| done].
    assert (rows (duplicates_of u) = []) as ->; [| done].
    by apply (is_empty_rows (duplicates_of u)).
Qed.

(** X19: the counts of a run add up.  Matches and unmatched transactions
    together are as many as the bank rows, matches and unmatched
    invoices as many as the invoices; the duplicate count is at most the
    number of unmatched transactions and is never one. *)
Theorem reconcile_counts bank_df inv_df :
  let c := generate_stats_from_inputs (stats_of (reconcile bank_df inv_df)) in
  c_matches c + c_unmatched_txn c = length bank_df ∧
  c_matches c + c_unmatched_inv c = length inv_df ∧
  c_dup_txn c ≤ c_unmatched_txn c ∧
  c_dup_txn c ≠ 1.
Proof.
  cbv zeta. unfold generate_stats_from_inputs, stats_of.
  cbn [c_matches c_unmatched_txn c_unmatched_inv c_dup_txn rs_matches
       rs_unmatched_txns rs_unmatched_invs rs_findings default from_option id].
  rewrite reconcile_dup_len.
  change (matches (reconcile bank_df inv_df)) with (matches (match_ bank_df inv_df)).
  change (unmatched_txns (reconcile bank_df inv_df))
    with (unmatched_txns (match_ bank_df inv_df)).
  change (unmatched_invs (reconcile bank_df inv_df))
    with (unmatched_invs (match_ bank_df inv_df)).
  rewrite match_unfold.
  destruct (run_match_partition (preprocess_txn <$> bank_df) (preprocess_inv <$> inv_df))
    as [Hpt Hpi].
  apply Permutation_length in Hpt, Hpi. unfold labels, index in Hpt, Hpi.
  rewrite length_app, length_seq in Hpt, Hpi.
  repeat match goal with
         | H : context [length (?f <$> ?l)] |- _ => rewrite (length_fmap f l) in H
         end.
  split_and!.
  - exact Hpt.
  - exact Hpi.
  - rewrite <- (length_fmap snd (rows (duplicates_of _))), rows_duplicates_of.
    rewrite <- (length_fmap snd (rows (unmatched_txns _))). apply length_filter.
  - apply duplicates_of_not_single.
Qed.

(** ** [_retry_call] *)

Lemma length_range lo hi : length (range lo hi) = Z.to_nat (hi - lo).
Proof. unfold range. by rewrite length_fmap, length_seq. Qed.

Lemma range_nil lo hi : (hi ≤ lo)%Z → range lo hi = [].
Proof. intros. unfold range. replace (Z.to_nat (hi - lo)) with 0 by lia. done. Qed.

Lemma range_cons lo hi : (lo < hi)%Z → range lo hi = lo :: range (lo + 1) hi.
Proof.
  intros. unfold range. replace (Z.to_nat (hi - lo)) with (S (Z.to_nat (hi - (lo + 1)))) by lia.
  cbn [seq fmap list_fmap]. f_equal; [lia |].
  rewrite <- seq_shift, <- list_fmap_compose. apply list_fmap_ext. intros _ i _. simpl. lia.
Qed.

Lemma take_range lo hi k :
  (k ≤ Z.to_nat (hi - lo)) → take k (range lo hi) = range lo (lo + Z.of_nat k).
Proof.
  revert lo. induction k as [| k IH]; intros lo Hk.
  - rewrite (range_nil lo (lo + Z.of_nat 0)) by lia. by destruct (range lo hi).
  - rewrite (range_cons lo hi), (range_cons lo (lo + Z.of_nat (S k))) by lia.
    cbn [take]. f_equal. rewrite IH by lia. f_equal. lia.
Qed.

Lemma range_bounds lo hi x : x ∈ range lo hi → (lo ≤ x < hi)%Z.
Proof.
  unfold range. intros (i & -> & Hi)%list_elem_of_fmap.
  apply elem_of_seq in Hi. lia.
Qed.

Lemma sleep_allowed (b : Q) (x : Z) :
  (0 <= b)%Q → (0 ≤ x)%Z → Num.Qlt_bool (b * inject_Z x) 0 = false.
Proof.
  intros Hb Hx. unfold Num.Qlt_bool. apply negb_false_iff, Qle_bool_iff.
  apply Qmult_le_0_compat; [done |]. change 0%Q with (inject_Z 0). by rewrite <- Zle_Qle.
Qed.

Lemma sleep_refused (b : Q) (x : Z) :
  (b < 0)%Q → (0 < x)%Z → Num.Qlt_bool (b * inject_Z x) 0 = true.
Proof.
  intros Hb Hx. unfold Num.Qlt_bool. apply negb_true_iff.
  destruct (Qle_bool 0 (b * inject_Z x)) eqn:Hle; [| done].
  apply Qle_bool_iff in Hle. exfalso.
  assert (Hx' : (0 < inject_Z x)%Q).
  { change 0%Q with (inject_Z 0). by rewrite <- Zlt_Qlt. }
  nra.
Qed.

Section RetryFacts.
Context {W E A : Type}.
Variable fn : W → (E + A) * W.
Variable b : Q.

Lemma call_0 w : call fn 0 w = (fn w).1.
Proof. reflexivity. Qed.

Lemma call_S n w : call fn (S n) w = call fn n (fn w).2.
Proof. reflexivity. Qed.

(** The loop up to the first call that returns. *)
Lemma retry_loop_success k : ∀ atts last w log a,
  k < length atts →
  (∀ j, j < k → failed (call fn j w)) →
  call fn k w = inr a →
  (∀ x, x ∈ take k atts → Num.Qlt_bool (b * inject_Z x)%Q 0 = false) →
  retry_loop fn b atts last w log
  = Ended (inr a) (after_calls fn (S k) w) (log ++ ((fun x : Z => (b * inject_Z x)%Q) <$> take k atts)).
Proof.
  induction k as [| k IH]; intros atts last w log a Hk Hfail Hok Hpos;
    destruct atts as [| x atts]; simpl in Hk; try lia.
  - rewrite call_0 in Hok. cbn [retry_loop]. destruct (fn w) as [[e | a'] w'] eqn:Hfn.
    + done.
    + simpl in Hok. injection Hok as ->. cbn [after_calls]. rewrite Hfn.
      cbn [take fmap list_fmap]. by rewrite app_nil_r.
  - cbn [retry_loop]. destruct (Hfail 0 ltac:(lia)) as [e He]. rewrite call_0 in He.
    destruct (fn w) as [r w'] eqn:Hfn. simpl in He. subst r. cbv zeta.
    rewrite (Hpos x) by (cbn [take]; set_solver).
    rewrite (IH atts (Some e) w' (log ++ [(b * inject_Z x)%Q]) a).
    + cbn [after_calls take fmap list_fmap]. rewrite Hfn. cbn [snd].
      by rewrite <- app_assoc.
    + lia.
    + intros j Hj. specialize (Hfail (S j) ltac:(lia)). by rewrite call_S, Hfn in Hfail.
    + by rewrite call_S, Hfn in Hok.
    + intros y Hy. apply Hpos. cbn [take]. set_solver.
Qed.

(** The loop when no call returns. *)
Lemma retry_loop_all_fail atts : ∀ last w log e,
  (∀ j, j < length atts → failed (call fn j w)) →
  match length atts with 0 => last = Some e | S n => call fn n w = inl e end →
  (∀ x, x ∈ atts → Num.Qlt_bool (b * inject_Z x)%Q 0 = false) →
  retry_loop fn b atts last w log
  = Ended (inl (FromCall e)) (after_calls fn (length atts) w) (log ++ ((fun x : Z => (b * inject_Z x)%Q) <$> atts)).
Proof.
  induction atts as [| x atts IH]; intros last w log e Hfail Hlast Hpos.
  - simpl in Hlast. subst last. cbn. by rewrite app_nil_r.
  - cbn [retry_loop]. destruct (Hfail 0 ltac:(simpl; lia)) as [e0 He0]. rewrite call_0 in He0.
    destruct (fn w) as [r w'] eqn:Hfn. simpl in He0. subst r. cbv zeta.
    rewrite (Hpos x) by set_solver.
    rewrite (IH (Some e0) w' (log ++ [(b * inject_Z x)%Q]) e).
    + cbn [after_calls length fmap list_fmap]. rewrite Hfn. cbn [snd].
      by rewrite <- app_assoc.
    + intros j Hj. specialize (Hfail (S j) ltac:(simpl; lia)).
      by rewrite call_S, Hfn in Hfail.
    + cbn [length] in Hlast. destruct (length atts) as [| n] eqn:Hn.
      * rewrite call_0, Hfn in Hlast. simpl in Hlast. congruence.
      * by rewrite call_S, Hfn in Hlast.
    + intros y Hy. apply Hpos. set_solver.
Qed.

(** Whatever [fn] does: the calls made are consecutive and at most one
    per attempt, every call but the last one made has failed, and the loop
    has slept once per failure at most. *)
Lemma retry_loop_bounds atts : ∀ last w log,
  let r := retry_loop fn b atts last w log in
  ∃ n m, n ≤ length atts ∧ m ≤ n ∧
    world r = after_calls fn n w ∧
    slept r = log ++ ((fun x : Z => (b * inject_Z x)%Q) <$> take m atts) ∧
    (∀ j, S j < n → failed (call fn j w)) ∧
    (∀ a, answer r = inr a → ∃ j, n = S j ∧ m = j ∧ call fn j w = inr a) ∧
    (∀ e, answer r = inl (FromCall e) →
          n = length atts ∧ m = n ∧
          match n with 0 => last = Some e | S j => call fn j w = inl e end) ∧
    (answer r = inl RaiseNone → atts = [] ∧ last = None) ∧
    (answer r = inl NegativeSleep →
     ∃ j x, n = S j ∧ m = j ∧ failed (call fn j w) ∧ atts !! j = Some x ∧
            Num.Qlt_bool (b * inject_Z x)%Q 0 = true).
Proof.
  induction atts as [| x atts IH]; intros last w log; cbv zeta.
  - exists 0, 0. cbn. rewrite app_nil_r. split_and!; try done; try lia.
    + destruct last; intros ? [=]. by subst.
    + by destruct last.
    + by destruct last.
  - cbn [retry_loop]. destruct (fn w) as [[e0 | a0] w'] eqn:Hfn; cbv zeta.
    + destruct (Num.Qlt_bool (b * inject_Z x)%Q 0) eqn:Hneg.
      * exists 1, 0. cbn [answer world slept after_calls take fmap list_fmap length].
        rewrite Hfn, app_nil_r. split_and!; try done; try lia.
        intros _. exists 0, x. split_and!; try done.
        exists e0. by rewrite call_0, Hfn.
      * destruct (IH (Some e0) w' (log ++ [(b * inject_Z x)%Q]))
          as (n & m & Hn & Hm & Hw & Hs & Hf & Ha & He & Hr & Hv).
        exists (S n), (S m). cbn [after_calls take fmap list_fmap length].
        rewrite Hfn. cbn [snd]. split_and!; try lia; try done.
        -- by rewrite Hs, <- app_assoc.
        -- intros [| j] Hj; [exists e0; by rewrite call_0, Hfn |].
           rewrite call_S, Hfn. apply Hf. lia.
        -- intros a Ha'. destruct (Ha a Ha') as (j & -> & -> & Hc).
           exists (S j). split_and!; try done. by rewrite call_S, Hfn.
        -- intros e He'. destruct (He e He') as (-> & -> & Hc).
           split_and!; try done. destruct (length atts) as [| j].
           ++ rewrite call_0, Hfn. simpl. congruence.
           ++ by rewrite call_S, Hfn.
        -- intros Hr'. by destruct (Hr Hr').
        -- intros Hv'. destruct (Hv Hv') as (j & y & -> & -> & Hc & Hl & Hy).
           exists (S j), y. split_and!; try done. by rewrite call_S, Hfn.
    + exists 1, 0. cbn [answer world slept after_calls take fmap list_fmap length].
      rewrite Hfn, app_nil_r. split_and!; try done; try lia.
      intros a [= ->]. exists 0. split_and!; try done. by rewrite call_0, Hfn.
Qed.

End RetryFacts.

(** X20: [_retry_call] returns what the first successful call returns.
    When the calls before call number [k] raise, call [k] returns [a] and
    [k] is within the retries, the result is [a], [fn] has been called
    [k + 1] times, and the pauses were [backoff_base * 1], ...,
    [backoff_base * k]. *)
Theorem retry_returns_first_success {W E A} (fn : W → (E + A) * W)
    (retries : Z) (backoff_base : Q) (w : W) (k : nat) (a : A) :
  (0 <= backoff_base)%Q →
  (Z.of_nat k ≤ retries)%Z →
  (∀ j, j < k → failed (call fn j w)) →
  call fn k w = inr a →
  _retry_call fn retries backoff_base w
  = Ended (inr a) (after_calls fn (S k) w) (backoffs backoff_base k).
Proof.
  intros Hb Hk Hfail Hok. unfold _retry_call.
  rewrite (retry_loop_success fn backoff_base k _ None w [] a); try done.
  - rewrite take_range by lia. reflexivity.
  - rewrite length_range. lia.
  - intros x Hx%subseteq_take%range_bounds. apply sleep_allowed; [done | lia].
Qed.

Lemma retry_returns_first_success_witness :
  _retry_call flaky 2 (6 # 10) 0
  = Ended (inr "plan") 3 [(6 # 10) * inject_Z 1; (6 # 10) * inject_Z 2]%Q.
Proof.
  apply (retry_returns_first_success flaky 2 (6 # 10) 0 2 "plan").
  - done.
  - lia.
  - intros [| [| j]] Hj; [by exists "timeout" .. | lia].
  - reflexivity.
Defined.

(** X21: when every one of the [retries + 1] calls raises, [_retry_call]
    raises the exception of the last call, after having slept once per
    failure, the last one included. *)
Theorem retry_raises_last_failure {W E A} (fn : W → (E + A) * W)
    (retries : Z) (backoff_base : Q) (w : W) (e : E) :
  (0 <= backoff_base)%Q →
  (0 ≤ retries)%Z →
  (∀ j, (Z.of_nat j ≤ retries)%Z → failed (call fn j w)) →
  call fn (Z.to_nat retries) w = inl e →
  _retry_call fn retries backoff_base w
  = Ended (inl (FromCall e)) (after_calls fn (Z.to_nat retries + 1) w)
          (backoffs backoff_base (Z.to_nat retries + 1)).
Proof.
  intros Hb Hr Hfail Hlast. unfold _retry_call.
  rewrite (retry_loop_all_fail fn backoff_base _ None w [] e).
  - rewrite length_range. replace (Z.to_nat (retries + 2 - 1)) with (Z.to_nat retries + 1) by lia.
    unfold backoffs.
    replace (1 + Z.of_nat (Z.to_nat retries + 1))%Z with (retries + 2)%Z by lia. reflexivity.
  - intros j Hj. rewrite length_range in Hj. apply Hfail. lia.
  - rewrite length_range. replace (Z.to_nat (retries + 2 - 1)) with (S (Z.to_nat retries)) by lia.
    done.
  - intros x Hx%range_bounds. apply sleep_allowed; [done | lia].
Qed.

Lemma retry_raises_last_failure_witness :
  _retry_call (A := string) down 2 (6 # 10) 0
  = Ended (inl (FromCall 2)) 3
      [(6 # 10) * inject_Z 1; (6 # 10) * inject_Z 2; (6 # 10) * inject_Z 3]%Q.
Proof.
  apply (retry_raises_last_failure down 2 (6 # 10) 0 2).
  - done.
  - lia.
  - intros [| [| [| j]]] Hj; [by eexists .. | lia].
  - reflexivity.
Defined.

(** X22: the budget of [_retry_call], whatever [fn] does.  [fn] is called
    [n] times in a row with [n] at most [retries + 1] (never, when
    [retries] is negative); every call before the last has raised; a value
    returned is the one of the last call; an exception of [fn] is passed on
    only from call number [retries + 1]; and [raise None] is reached
    exactly when [retries] is negative. *)
Theorem retry_call_budget {W E A} (fn : W → (E + A) * W)
    (retries : Z) (backoff_base : Q) (w : W) :
  let r := _retry_call fn retries backoff_base w in
  ∃ n, (Z.of_nat n ≤ Z.max 0 (retries + 1))%Z ∧
    world r = after_calls fn n w ∧
    length (slept r) ≤ n ∧
    (∀ j, S j < n → failed (call fn j w)) ∧
    (∀ a, answer r = inr a →
          ∃ j, n = S j ∧ call fn j w = inr a ∧ slept r = backoffs backoff_base j) ∧
    (∀ e, answer r = inl (FromCall e) →
          Z.of_nat n = (retries + 1)%Z ∧ call fn (n - 1) w = inl e ∧
          slept r = backoffs backoff_base n) ∧
    (answer r = inl RaiseNone ↔ (retries < 0)%Z).
Proof.
  cbv zeta. unfold _retry_call.
  destruct (retry_loop_bounds fn backoff_base (range 1 (retries + 2)) None w [])
    as (n & m & Hn & Hm & Hw & Hs & Hf & Ha & He & Hr & _).
  rewrite length_range in Hn.
  assert (Hsl : slept (retry_loop fn backoff_base (range 1 (retries + 2)) None w [])
                = backoffs backoff_base m).
  { rewrite Hs, take_range by lia. reflexivity. }
  exists n. split_and!; try done.
  - lia.
  - rewrite Hsl. unfold backoffs. rewrite length_fmap, length_range. lia.
  - intros a Ha'. destruct (Ha a Ha') as (j & -> & -> & Hc). by exists j.
  - intros e He'. destruct (He e He') as (Hl & -> & Hc).
    rewrite length_range in Hl. destruct n as [| j]; [done |].
    split_and!; [lia | by rewrite Nat.sub_1_r | done].
  - split.
    + intros [Hnil _]%Hr. apply (f_equal length) in Hnil.
      rewrite length_range in Hnil. simpl in Hnil. lia.
    + intros Hneg. rewrite range_nil by lia. reflexivity.
Qed.

(** X23: a negative [backoff_base] turns the first failure into the
    [ValueError] of [time.sleep]: the call is not repeated and the
    exception of [fn] is not the one raised. *)
Theorem retry_negative_backoff {W E A} (fn : W → (E + A) * W)
    (retries : Z) (backoff_base : Q) (w : W) :
  (backoff_base < 0)%Q →
  (0 ≤ retries)%Z →
  failed (call fn 0 w) →
  _retry_call fn retries backoff_base w
  = Ended (inl NegativeSleep) (after_calls fn 1 w) [].
Proof.
  intros Hb Hr [e He]. unfold _retry_call. rewrite range_cons by lia.
  cbn [retry_loop after_calls]. rewrite call_0 in He.
  destruct (fn w) as [r w'] eqn:Hfn. simpl in He. subst r. cbv zeta.
  by rewrite sleep_refused by (done || lia).
Qed.

Lemma retry_negative_backoff_witness :
  _retry_call (A := string) down 2 (- (1 # 2)) 0 = Ended (inl NegativeSleep) 1 [].
Proof.
  apply (retry_negative_backoff down 2 (- (1 # 2)) 0).
  - done.
  - lia.
  - by exists 0.
Defined.

(** ** [generate_action_plan_with_gemini] *)

Section GeminiFacts.
Context {W E C Stats : Type}.
Variable str : E → string.
Variable Client : string → W → (E + C) * W.
Variable generate_content : C → request → W → (E + string) * W.
Variable _build_prompt : Stats → E + string.

(** With a key, a client and a prompt, the plan is what [_retry_call]
    makes of [call_gemini]. *)
Lemma plan_with_client key stats model w client w1 prompt :
  key ≠ "" →
  Client key w = (inr client, w1) →
  _build_prompt stats = inr prompt →
  generate_action_plan_with_gemini str Client generate_content _build_prompt
    (Some key) stats model w
  = let r := _retry_call (call_gemini generate_content client model prompt) 2 (6 # 10) w1 in
    match answer r with
    | inr text => Told text (world r) [] (slept r)
    | inl e => api_error str e (world r) (slept r)
    end.
Proof.
  intros Hkey HC HP. unfold generate_action_plan_with_gemini.
  apply String.eqb_neq in Hkey. by rewrite Hkey, HC, HP.
Qed.

End GeminiFacts.

(** X24: transient failures are hidden.  With a key, a client and a
    prompt, when call number [k] of the API, one of the first three, is the
    first to answer, the plan is that answer: nothing is printed, and the
    pauses were 0.6 s times 1, ..., [k]. *)
Theorem plan_is_first_answer {W E C Stats} (str : E → string)
    (Client : string → W → (E + C) * W)
    (generate_content : C → request → W → (E + string) * W)
    (_build_prompt : Stats → E + string)
    key stats model w client w1 prompt (k : nat) text :
  key ≠ "" →
  Client key w = (inr client, w1) →
  _build_prompt stats = inr prompt →
  k < 3 →
  (∀ j, j < k → failed (call (call_gemini generate_content client model prompt) j w1)) →
  call (call_gemini generate_content client model prompt) k w1 = inr text →
  generate_action_plan_with_gemini str Client generate_content _build_prompt
    (Some key) stats model w
  = Told text (after_calls (call_gemini generate_content client model prompt) (S k) w1)
         [] (backoffs (6 # 10) k).
Proof.
  intros Hkey HC HP Hk Hfail Hok.
  rewrite (plan_with_client str Client generate_content _build_prompt
             key stats model w client w1 prompt Hkey HC HP).
  cbv zeta. unfold _retry_call.
  rewrite (retry_loop_success _ (6 # 10) k _ None w1 [] text);
    [| rewrite length_range; simpl; lia | exact Hfail | exact Hok |].
  - cbn [answer world slept]. rewrite take_range by (simpl; lia). reflexivity.
  - intros x Hx%subseteq_take%range_bounds. apply sleep_allowed; [done | lia].
Qed.

Lemma plan_is_first_answer_witness :
  generate_action_plan_with_gemini (fun e => e) any_client third_time any_prompt
    (Some "key") () "gemini-2.0-flash" 0
  = Told "1. Chase unpaid rent." 3 [] [(6 # 10) * inject_Z 1; (6 # 10) * inject_Z 2]%Q.
Proof.
  apply (plan_is_first_answer (fun e => e) any_client third_time any_prompt
           "key" () "gemini-2.0-flash" 0 () 0 "prompt" 2 "1. Chase unpaid rent.").
  - done.
  - reflexivity.
  - reflexivity.
  - lia.
  - intros [| [| j]] Hj; [by eexists .. | lia].
  - reflexivity.
Defined.

(** X25: when the API fails three times, the plan is the local fallback
    followed by a note with the text of the third exception; that text is
    printed once, after pauses of 0.6 s, 1.2 s and 1.8 s, the last of them
    with no call left to make. *)
Theorem plan_after_three_failures {W E C Stats} (str : E → string)
    (Client : string → W → (E + C) * W)
    (generate_content : C → request → W → (E + string) * W)
    (_build_prompt : Stats → E + string)
    key stats model w client w1 prompt (e : E) :
  key ≠ "" →
  Client key w = (inr client, w1) →
  _build_prompt stats = inr prompt →
  (∀ j, j < 3 → failed (call (call_gemini generate_content client model prompt) j w1)) →
  call (call_gemini generate_content client model prompt) 2 w1 = inl e →
  generate_action_plan_with_gemini str Client generate_content _build_prompt
    (Some key) stats model w
  = Told (get_local_fallback +:+ nl +:+ nl +:+ "*(API Error: " +:+ str e +:+ ")*")
         (after_calls (call_gemini generate_content client model prompt) 3 w1)
         ["[Gemini Error] " +:+ str e]
         (backoffs (6 # 10) 3).
Proof.
  intros Hkey HC HP Hfail Hlast.
  rewrite (plan_with_client str Client generate_content _build_prompt
             key stats model w client w1 prompt Hkey HC HP).
  cbv zeta. unfold _retry_call.
  rewrite (retry_loop_all_fail _ (6 # 10) _ None w1 [] e);
    [reflexivity | exact Hfail | exact Hlast |].
  intros x Hx%range_bounds. apply sleep_allowed; [done | lia].
Qed.

Lemma plan_after_three_failures_witness :
  generate_action_plan_with_gemini (fun e => e) any_client outage any_prompt
    (Some "key") () "gemini-2.0-flash" 0
  = Told (get_local_fallback +:+ nl +:+ nl +:+ "*(API Error: quota)*") 3
         ["[Gemini Error] quota"]
         [(6 # 10) * inject_Z 1; (6 # 10) * inject_Z 2; (6 # 10) * inject_Z 3]%Q.
Proof.
  apply (plan_after_three_failures (fun e => e) any_client outage any_prompt
           "key" () "gemini-2.0-flash" 0 () 0 "prompt" "quota").
  - done.
  - reflexivity.
  - reflexivity.
  - intros [| [| [| j]]] Hj; [by eexists .. | lia].
  - reflexivity.
Defined.

(** X26: every way [generate_action_plan_with_gemini] can end.  Either an
    exception of the SDK or of the prompt builder is reported: the plan is
    the fallback with a note carrying its text, which is the one line
    printed; or nothing is printed and the plan is the bare fallback, with
    no call made and no pause; or nothing is printed and the plan is the
    answer of one of the first three requests.  The pauses are 0.6 s times
    1, ..., [m] for some [m] up to three. *)
Theorem plan_outcomes {W E C Stats} (str : E → string)
    (Client : string → W → (E + C) * W)
    (generate_content : C → request → W → (E + string) * W)
    (_build_prompt : Stats → E + string)
    api_key stats model w :
  let t := generate_action_plan_with_gemini str Client generate_content _build_prompt
             api_key stats model w in
  ((∃ e : E,
      plan t = get_local_fallback +:+ nl +:+ nl +:+ "*(API Error: " +:+ str e +:+ ")*" ∧
      printed t = ["[Gemini Error] " +:+ str e]) ∨
   (plan t = get_local_fallback ∧ printed t = [] ∧ sdk t = w ∧ paused t = []) ∨
   (∃ key client w1 prompt j,
      api_key = Some key ∧ Client key w = (inr client, w1) ∧
      _build_prompt stats = inr prompt ∧ j < 3 ∧
      call (call_gemini generate_content client model prompt) j w1 = inr (plan t) ∧
      sdk t = after_calls (call_gemini generate_content client model prompt) (S j) w1 ∧
      printed t = [])) ∧
  ∃ m, m ≤ 3 ∧ paused t = backoffs (6 # 10) m.
Proof.
  cbv zeta. unfold generate_action_plan_with_gemini.
  destruct api_key as [key |]; [| split; [right; left; done | exists 0; split; [lia | reflexivity]]].
  destruct (String.eqb key ""); [split; [right; left; done | exists 0; split; [lia | reflexivity]] |].
  destruct (Client key w) as [[e | client] w1] eqn:HC;
    [split; [left; by exists e | exists 0; split; [lia | reflexivity]] |].
  destruct (_build_prompt stats) as [e | prompt] eqn:HP;
    [split; [left; by exists e | exists 0; split; [lia | reflexivity]] |].
  cbv zeta. unfold _retry_call.
  destruct (retry_loop_bounds (call_gemini generate_content client model prompt)
              (6 # 10) (range 1 (2 + 2)) None w1 [])
    as (n & m & Hn & Hm & Hw & Hs & _ & Ha & He & Hr & Hv).
  rewrite length_range in Hn. simpl in Hn.
  rewrite take_range in Hs by (simpl; lia).
  destruct (answer _) as [[e | |] | text] eqn:Hans.
  - split; [left; by exists e | exists m; split; [lia | exact Hs]].
  - destruct (Hr eq_refl) as [Hnil _]. done.
  - destruct (Hv eq_refl) as (j & x & _ & _ & _ & Hx & Hneg).
    apply list_elem_of_lookup_2, range_bounds in Hx.
    rewrite sleep_allowed in Hneg; [done | done | lia].
  - split; [| exists m; split; [lia | exact Hs]].
    right; right. destruct (Ha text eq_refl) as (j & -> & -> & Hc).
    exists key, client, w1, prompt, j. split_and!; (done || lia).
Qed.

(** ** [publish_recon_report] *)

(** X27: what [publish_recon_report] does, whichever steps fail.  It
    creates the directory and writes the matches, creates the directory
    again and writes the unmatched transactions, then posts the summary
    when a webhook URL is set; it stops at the first step that raises, and
    in every case prints exactly one line after the steps done: the Slack
    line when all went through, the publish error otherwise.  The
    unmatched invoices are written nowhere. *)
Theorem publish_effects {E} (str : E → string) (raises : list effect → effect → option E)
    url matches un_txns un_invs summary log :
  ∃ steps line,
    publish_recon_report str raises url matches un_txns un_invs summary log
    = log ++ steps ++ [Print line] ∧
    ((steps = publication url matches un_txns summary ∧ line = last_line url) ∨
     (∃ ev rest e,
        publication url matches un_txns summary = steps ++ ev :: rest ∧
        raises (log ++ steps) ev = Some e ∧
        line = "Publish error: " +:+ str e)).
Proof.
  unfold publish_recon_report, export_csv, send_slack_message, publication, last_line.
  unfold mbind, io_bind, mret, io_ret, perform, print.
  change ("reports/" +:+ "matches.csv") with "reports/matches.csv".
  change ("reports/" +:+ "unmatched_txns.csv") with "reports/unmatched_txns.csv".
  destruct (raises log (Makedirs "reports")) as [e |] eqn:H1.
  { exists [], ("Publish error: " +:+ str e). split; [done |]. right.
    eexists _, _, e. split_and!; [reflexivity | by rewrite app_nil_r | done]. }
  destruct (raises (log ++ [Makedirs "reports"])
              (ToCsv (MatchTable matches) "reports/matches.csv")) as [e |] eqn:H2.
  { exists [Makedirs "reports"], ("Publish error: " +:+ str e).
    split; [by rewrite <- !app_assoc |]. right.
    eexists _, _, e. split_and!; [reflexivity | done | done]. }
  destruct (raises ((log ++ [Makedirs "reports"]) ++
                    [ToCsv (MatchTable matches) "reports/matches.csv"])
              (Makedirs "reports")) as [e |] eqn:H3.
  { exists [Makedirs "reports"; ToCsv (MatchTable matches) "reports/matches.csv"],
      ("Publish error: " +:+ str e).
    split; [by rewrite <- !app_assoc |]. right.
    eexists _, _, e. split_and!; [reflexivity | by rewrite <- !app_assoc in H3 | done]. }
  destruct (raises (((log ++ [Makedirs "reports"]) ++
                     [ToCsv (MatchTable matches) "reports/matches.csv"]) ++
                    [Makedirs "reports"])
              (ToCsv (TxnTable un_txns) "reports/unmatched_txns.csv")) as [e |] eqn:H4.
  { exists [Makedirs "reports"; ToCsv (MatchTable matches) "reports/matches.csv";
            Makedirs "reports"],
      ("Publish error: " +:+ str e).
    split; [by rewrite <- !app_assoc |]. right.
    eexists _, _, e. split_and!; [reflexivity | by rewrite <- !app_assoc in H4 | done]. }
  assert (Hskip :
    ∃ steps line,
      ((((log ++ [Makedirs "reports"]) ++
         [ToCsv (MatchTable matches) "reports/matches.csv"]) ++ [Makedirs "reports"]) ++
       [ToCsv (TxnTable un_txns) "reports/unmatched_txns.csv"]) ++
      [Print "Slack skipped (no URL)."] = log ++ steps ++ [Print line] ∧
      steps = [Makedirs "reports"; ToCsv (MatchTable matches) "reports/matches.csv";
               Makedirs "reports";
               ToCsv (TxnTable un_txns) "reports/unmatched_txns.csv"] ++ [] ∧
      line = "Slack skipped (no URL).").
  { eexists _, _. split_and!; [| reflexivity | reflexivity]. by rewrite <- !app_assoc. }
  destruct url as [u |]; [destruct (String.eqb u "") |].
  - destruct Hskip as (steps & line & ? & ? & ?). exists steps, line. split; [done |]. by left.
  - destruct (raises ((((log ++ [Makedirs "reports"]) ++
                        [ToCsv (MatchTable matches) "reports/matches.csv"]) ++
                       [Makedirs "reports"]) ++
                      [ToCsv (TxnTable un_txns) "reports/unmatched_txns.csv"])
                (Post u summary)) as [e |] eqn:H5.
    + exists [Makedirs "reports"; ToCsv (MatchTable matches) "reports/matches.csv";
              Makedirs "reports"; ToCsv (TxnTable un_txns) "reports/unmatched_txns.csv"],
        ("Publish error: " +:+ str e).
      split; [by rewrite <- !app_assoc |]. right.
      exists (Post u summary), [], e.
      split_and!; [reflexivity | by rewrite <- !app_assoc in H5 | done].
    + eexists _, "Slack sent.". split; [| left; split; reflexivity].
      by rewrite <- !app_assoc.
  - destruct Hskip as (steps & line & ? & ? & ?). exists steps, line. split; [done |]. by left.
Qed.

(** ** The headers in [preprocess] *)

Lemma ensure_cols_app cols : ∀ columns,
  ∃ added, _ensure_cols columns cols = columns ++ added ∧
           (∀ c, c ∈ added → c ∈ cols ∧ c ∉ columns) ∧
           (∀ c, c ∈ cols → c ∈ columns ++ added) ∧
           NoDup added.
Proof.
  induction cols as [| c rest IH]; intros columns; cbn [_ensure_cols].
  - exists []. rewrite app_nil_r. split_and!; [done | set_solver | set_solver | constructor].
  - case_bool_decide as Hc.
    + destruct (IH columns) as (added & -> & Hin & Hall & Hnd).
      exists added. split_and!; [done | set_solver | set_solver | done].
    + destruct (IH (columns ++ [c])) as (added & -> & Hin & Hall & Hnd).
      exists (c :: added). rewrite <- app_assoc. split_and!; [done | | |].
      * intros x [-> | Hx]%elem_of_cons; [set_solver |].
        destruct (Hin x Hx). set_solver.
      * intros x [-> | Hx]%elem_of_cons; [set_solver |].
        specialize (Hall x Hx). set_solver.
      * constructor; [| done]. intros Hx. destruct (Hin c Hx). set_solver.
Qed.

Lemma ensure_cols_present columns cols :
  cols ⊆ columns → _ensure_cols columns cols = columns.
Proof.
  revert columns. induction cols as [| c rest IH]; intros columns Hsub; [done |].
  cbn [_ensure_cols]. rewrite bool_decide_eq_true_2 by set_solver.
  apply IH. set_solver.
Qed.

Lemma lower_char_idemp c : lower_char (lower_char c) = lower_char c.
Proof.
  unfold lower_char. destruct (is_upper c) eqn:Hu; [| by rewrite Hu].
  assert (Hn : is_upper (ascii_of_nat (code c + 32)) = false); [| by rewrite Hn].
  unfold is_upper, code in *. apply andb_true_iff in Hu as [H1 H2].
  apply Nat.leb_le in H1, H2. rewrite nat_ascii_embedding by lia.
  apply andb_false_iff. right. apply Nat.leb_gt. lia.
Qed.

Lemma lower_idemp s : lower (lower s) = lower s.
Proof.
  unfold lower. rewrite chars_text. f_equal. rewrite map_map.
  apply map_ext. intros c. apply lower_char_idemp.
Qed.

Lemma rename_keeps names columns :
  (∀ c, c ∈ columns → c ∉ names.*1) → rename names columns = columns.
Proof.
  intros Hno. unfold rename. rewrite <- (list_fmap_id columns) at 2.
  apply list_fmap_ext. intros i c Hc%list_elem_of_lookup_2. simpl.
  destruct (find _ names) as [[k v] |] eqn:Hf; [| done].
  apply find_some in Hf as [Hin Heq]. apply String.eqb_eq in Heq. simpl in Heq. subst k.
  destruct (Hno c Hc). apply list_elem_of_fmap. exists (c, v). split; [done |].
  by apply list_elem_of_In.
Qed.

(** Steps 1 to 3 for any table of names whose keys are not in lower case
    and any list of lower-case columns. *)
Lemma standard_headers_facts names cols columns :
  (∀ k, k ∈ names.*1 → lower k ≠ k) →
  (∀ c, c ∈ cols → lower c = c) →
  let out := standard_headers names cols columns in
  cols ⊆ out ∧
  (lower <$> rename names columns) `prefix_of` out ∧
  (∀ c, c ∈ out → c ∈ lower <$> rename names columns ∨ c ∈ cols) ∧
  (NoDup (lower <$> rename names columns) → NoDup out) ∧
  standard_headers names cols out = out.
Proof.
  intros Hkeys Hcols. cbv zeta. unfold standard_headers.
  set (l := lower <$> rename names columns).
  destruct (ensure_cols_app cols l) as (added & Hout & Hin & Hall & Hnd).
  rewrite Hout.
  assert (Hlow : ∀ x, x ∈ l ++ added → lower x = x).
  { intros x [Hx | Hx]%elem_of_app.
    - unfold l in Hx. apply list_elem_of_fmap in Hx as (y & -> & _). apply lower_idemp.
    - apply Hcols. by destruct (Hin x Hx). }
  split_and!.
  - intros c Hc. by apply Hall.
  - by exists added.
  - intros c [Hc | Hc]%elem_of_app; [by left | right; by destruct (Hin c Hc)].
  - intros Hl. apply NoDup_app. split_and!; [done | | done].
    intros x Hx Hx'. by destruct (Hin x Hx').
  - rewrite rename_keeps.
    + assert (lower <$> l ++ added = l ++ added) as ->.
      { rewrite <- (list_fmap_id (l ++ added)) at 2. apply list_fmap_ext.
        intros i x Hx%list_elem_of_lookup_2. by apply Hlow. }
      apply ensure_cols_present. intros c Hc. by apply Hall.
    + intros c Hc Hk. apply (Hkeys c Hk). by apply Hlow.
Qed.

(** X28: the headers after steps 1 to 3 of [preprocess].  Every column the
    matcher reads is there; the headers of the input come first, renamed
    and in lower case, in their order; what is added is one of the missing
    columns; and headers that have been through the steps are left as
    they are by a second pass. *)
Theorem headers_standardised (columns : list string) :
  (let out := bank_headers columns in
   BANK_COLS ⊆ out ∧
   (lower <$> rename BANK_NAMES columns) `prefix_of` out ∧
   (∀ c, c ∈ out → c ∈ lower <$> rename BANK_NAMES columns ∨ c ∈ BANK_COLS) ∧
   bank_headers out = out) ∧
  (let out := inv_headers columns in
   INV_COLS ⊆ out ∧
   (lower <$> rename INV_NAMES columns) `prefix_of` out ∧
   (∀ c, c ∈ out → c ∈ lower <$> rename INV_NAMES columns ∨ c ∈ INV_COLS) ∧
   inv_headers out = out).
Proof.
  split; cbv zeta.
  - destruct (standard_headers_facts BANK_NAMES BANK_COLS columns) as (H1 & H2 & H3 & _ & H5).
    + intros k Hk. unfold BANK_NAMES in Hk. cbn in Hk.
      repeat (apply elem_of_cons in Hk as [-> | Hk]; [by vm_compute |]).
      by apply elem_of_nil in Hk.
    + intros c Hc. unfold BANK_COLS in Hc.
      repeat (apply elem_of_cons in Hc as [-> | Hc]; [by vm_compute |]).
      by apply elem_of_nil in Hc.
    + done.
  - destruct (standard_headers_facts INV_NAMES INV_COLS columns) as (H1 & H2 & H3 & _ & H5).
    + intros k Hk. unfold INV_NAMES in Hk. cbn in Hk.
      repeat (apply elem_of_cons in Hk as [-> | Hk]; [by vm_compute |]).
      by apply elem_of_nil in Hk.
    + intros c Hc. unfold INV_COLS in Hc.
      repeat (apply elem_of_cons in Hc as [-> | Hc]; [by vm_compute |]).
      by apply elem_of_nil in Hc.
    + done.
Qed.
